(** * SreRuleEngine: a shallow embedding of the rule-expression engine

    The development follows [SreRuleEngine.cpp]: the character classes of
    the C library it relies on, the on-demand lexer [SreLexer], the AST with
    its two evaluation interfaces, the recursive-descent parser [SreParser]
    and the engine facade with its built-in predicates.  Strings are
    [std::string] byte strings, maps are [std::unordered_map]. *)

From Stdlib Require Import Ascii String Bool Arith Lia List.
From stdpp Require Import base option list strings gmap.
Import ListNotations.

#[local] Set Warnings "-register-all".
#[local] Arguments String.append : simpl nomatch.

(** ** Outcomes

    Every [throw std::runtime_error(...)] site of the source is one
    constructor; [what] gives back the message the exception carries. *)

Inductive exn : Type :=
| UnexpectedCharacter (c : ascii)
| NotBooleanNode
| NotStringNode
| InvalidLogicalOperator
| VariableNotFound (val : string)
| FunctionNotFound (name : string)
| UnexpectedToken (text : string)
| TokenTypeMismatch
| PredicateError (msg : string).

Definition what (e : exn) : string :=
  match e with
  | UnexpectedCharacter c => "Unexpected character: " +:+ String c EmptyString
  | NotBooleanNode => "Not a boolean expression node"
  | NotStringNode => "Not a string expression node"
  | InvalidLogicalOperator => "Invalid logical operator"
  | VariableNotFound val => "Variable not found: " +:+ val
  | FunctionNotFound name => "Function not found: " +:+ name
  | UnexpectedToken text => "Unexpected token: " +:+ text
  | TokenTypeMismatch => "Expected token type mismatch"
  | PredicateError msg => msg
  end.

(** [Throw] is a C++ exception leaving the function.  [OutOfFuel] belongs to
    the model only: the recursion bound of the parser was too small (shown
    below never to happen for [evaluate]).  [NullDeref] is the dereference
    of the null [right_] of a unary logical node, which the C++ leaves
    undefined and which no tree built by the parser reaches.

    The call stack is outside the model: the recursive descent of the
    parser and of [evalBool] is given the depth it asks for, whereas the
    C++ program has the stack of its process and dies, without boolean or
    exception, on an expression nested deeper than that stack allows.
    Nothing below speaks of that limit. *)
Inductive res (A : Type) : Type :=
| Ok (a : A)
| Throw (e : exn)
| OutOfFuel
| NullDeref.
Arguments Ok {A} a.
Arguments Throw {A} e.
Arguments OutOfFuel {A}.
Arguments NullDeref {A}.

Definition bind {A B : Type} (r : res A) (k : A -> res B) : res B :=
  match r with
  | Ok a => k a
  | Throw e => Throw e
  | OutOfFuel => OutOfFuel
  | NullDeref => NullDeref
  end.

Notation "'let*' p ':=' r 'in' k" := (bind r (fun p => k))
  (at level 10, p pattern, r at level 100, k at level 200).

(** ** Character classes ([<cctype>], "C" locale)

    The source never calls [setlocale], so the classification functions
    are those of the "C" locale; bytes above 127 belong to no class. *)

Definition in_range (lo hi : nat) (c : ascii) : bool :=
  (lo <=? nat_of_ascii c) && (nat_of_ascii c <=? hi).

Definition isupper (c : ascii) : bool := in_range 65 90 c.
Definition islower (c : ascii) : bool := in_range 97 122 c.
Definition isdigit (c : ascii) : bool := in_range 48 57 c.
Definition isalpha (c : ascii) : bool := isupper c || islower c.
Definition isalnum (c : ascii) : bool := isalpha c || isdigit c.
Definition isspace (c : ascii) : bool :=
  (nat_of_ascii c =? 32) || in_range 9 13 c.
Definition tolower (c : ascii) : ascii :=
  if isupper c then ascii_of_nat (nat_of_ascii c + 32) else c.

(** [std::transform(s.begin(), s.end(), s.begin(), ::tolower)] *)
Fixpoint lowercase (s : string) : string :=
  match s with
  | EmptyString => EmptyString
  | String c s' => String (tolower c) (lowercase s')
  end.

(** ** [std::string] operations used by the source *)

(** [s.find(t) != npos] is [isSome (find s t)]: the first offset at which
    [t] occurs in [s]. *)
Fixpoint find (s t : string) : option nat :=
  if String.prefix t s then Some 0
  else match s with
       | EmptyString => None
       | String _ s' => option_map S (find s' t)
       end.

Definition contains_char (c : ascii) (s : string) : bool :=
  existsb (Ascii.eqb c) (list_ascii_of_string s).

(** [s.erase(std::remove(s.begin(), s.end(), c), s.end())] *)
Fixpoint remove_char (c : ascii) (s : string) : string :=
  match s with
  | EmptyString => EmptyString
  | String d s' =>
      if Ascii.eqb d c then remove_char c s' else String d (remove_char c s')
  end.

Definition push_back (s : string) (c : ascii) : string :=
  s +:+ String c EmptyString.

(** ** Lexer *)

Inductive SreTokenType : Type :=
| Identifier | StringLiteral | Comma | LParen | RParen | And | Or | Not | End.

Definition SreTokenType_eqb (a b : SreTokenType) : bool :=
  match a, b with
  | Identifier, Identifier | StringLiteral, StringLiteral | Comma, Comma
  | LParen, LParen | RParen, RParen | And, And | Or, Or | Not, Not
  | End, End => true
  | _, _ => false
  end.

Record SreToken : Type := { type : SreTokenType; text : string }.

Record SreLexer : Type := { input_ : string; pos_ : nat }.

Definition SreLexer_new (input : string) : SreLexer :=
  {| input_ := input; pos_ := 0 |}.

(** [while (pos < input.size() && keep(input[pos])) pos++;]
    At most [input.size() - pos] iterations are possible, which is the
    bound [n] the callers pass. *)
Fixpoint advanceWhile (keep : ascii -> bool) (input : string)
    (n : nat) (pos : nat) : nat :=
  match n with
  | 0 => pos
  | S n' =>
      match String.get pos input with
      | Some c => if keep c then advanceWhile keep input n' (S pos) else pos
      | None => pos
      end
  end.

(** [while (pos < input.size() && keep(input[pos])) s.push_back(input[pos++]);] *)
Fixpoint pushWhile (keep : ascii -> bool) (input : string)
    (n : nat) (s : string) (pos : nat) : string * nat :=
  match n with
  | 0 => (s, pos)
  | S n' =>
      match String.get pos input with
      | Some c =>
          if keep c then pushWhile keep input n' (push_back s c) (S pos)
          else (s, pos)
      | None => (s, pos)
      end
  end.

Definition skipWhitespace (l : SreLexer) : SreLexer :=
  {| input_ := input_ l;
     pos_ := advanceWhile isspace (input_ l)
               (String.length (input_ l) - pos_ l) (pos_ l) |}.

Definition isIdentStart (c : ascii) : bool :=
  isalpha c || Ascii.eqb c "#"%char || Ascii.eqb c "{"%char || Ascii.eqb c "}"%char.
Definition isIdentPart (c : ascii) : bool :=
  isalnum c || Ascii.eqb c "#"%char || Ascii.eqb c "{"%char || Ascii.eqb c "}"%char.
Definition notQuote (c : ascii) : bool := negb (Ascii.eqb c "'"%char).

Definition keyword (s : string) : SreTokenType :=
  let lower := lowercase s in
  if String.eqb lower "and" then And
  else if String.eqb lower "or" then Or
  else if String.eqb lower "not" then Not
  else Identifier.

Definition nextToken (l0 : SreLexer) : res (SreToken * SreLexer) :=
  let l := skipWhitespace l0 in
  let input := input_ l in
  let pos := pos_ l in
  match String.get pos input with
  | None => Ok ({| type := End; text := "" |}, l)
  | Some c =>
      if isIdentStart c then
        let '(s, pos') :=
          pushWhile isIdentPart input (String.length input - pos) "" pos in
        Ok ({| type := keyword s; text := s |},
            {| input_ := input; pos_ := pos' |})
      else if Ascii.eqb c "'"%char then
        let '(s, pos') :=
          pushWhile notQuote input (String.length input - S pos) "" (S pos) in
        Ok ({| type := StringLiteral; text := s |},
            {| input_ := input; pos_ := S pos' |})
      else if Ascii.eqb c ","%char then
        Ok ({| type := Comma; text := "," |},
            {| input_ := input; pos_ := S pos |})
      else if Ascii.eqb c "("%char then
        Ok ({| type := LParen; text := "(" |},
            {| input_ := input; pos_ := S pos |})
      else if Ascii.eqb c ")"%char then
        Ok ({| type := RParen; text := ")" |},
            {| input_ := input; pos_ := S pos |})
      else Throw (UnexpectedCharacter c)
  end.

(** ** AST nodes and the two evaluation interfaces *)

Inductive Operator : Type := OpAnd | OpOr | OpNot.

(** [right_] is the null pointer ([None]) in the nodes built for [not]. *)
Inductive SreASTNode : Type :=
| SreLogicalNode (op_ : Operator) (left_ : SreASTNode)
    (right_ : option SreASTNode)
| SreValueNode (val_ : string) (isVariable_ : bool)
| SreFunctionNode (name_ : string) (args_ : list SreASTNode).

(* using SreContext = std::unordered_map<std::string, std::string> *)
Abbreviation SreContext := (gmap string string).

(** [std::function<bool(const std::vector<std::string>&)>]: a callable
    that returns a boolean or throws. *)
Abbreviation SreFunction := (list string -> res bool).
Abbreviation SreFunctions := (gmap string SreFunction).

(** [evalString] is overridden by [SreValueNode] only; the other two node
    classes inherit the throwing default of [SreASTNode]. *)
Definition evalString (ctx : SreContext) (n : SreASTNode) : res string :=
  match n with
  | SreValueNode val_ isVariable_ =>
      if isVariable_ then
        match ctx !! val_ with
        | None => Throw (VariableNotFound val_)
        | Some v => Ok v
        end
      else Ok val_
  | _ => Throw NotStringNode
  end.

(** [for (auto &arg : args_) evaluatedArgs.push_back(arg->evalString(..))] *)
Fixpoint evalArgs (ctx : SreContext) (args : list SreASTNode)
    (evaluatedArgs : list string) : res (list string) :=
  match args with
  | [] => Ok evaluatedArgs
  | arg :: args' =>
      let* s := evalString ctx arg in
      evalArgs ctx args' (evaluatedArgs ++ [s])
  end.

Definition empty (s : string) : bool :=
  match s with EmptyString => true | _ => false end.

Definition deref {A : Type} (p : option A) (k : A -> res bool) : res bool :=
  match p with
  | Some a => k a
  | None => NullDeref
  end.

Fixpoint evalBool (ctx : SreContext) (functions : SreFunctions)
    (n : SreASTNode) : res bool :=
  match n with
  | SreLogicalNode op_ left_ right_ =>
      match op_ with
      | OpAnd =>
          let* l := evalBool ctx functions left_ in
          if l then deref right_ (evalBool ctx functions) else Ok false
      | OpOr =>
          let* l := evalBool ctx functions left_ in
          if l then Ok true else deref right_ (evalBool ctx functions)
      | OpNot =>
          let* l := evalBool ctx functions left_ in
          Ok (negb l)
      end
  | SreValueNode _ _ =>
      let* s := evalString ctx n in
      Ok (negb (empty s))
  | SreFunctionNode name_ args_ =>
      let* evaluatedArgs := evalArgs ctx args_ [] in
      let lower := lowercase name_ in
      match functions !! lower with
      | None => Throw (FunctionNotFound name_)
      | Some f => f evaluatedArgs
      end
  end.

(** ** Parser

    The parser holds a reference to its lexer and pulls one token at a
    time.  It is written over any token source [nextToken], which the
    engine instantiates with [SreLexer]. *)

Section SreParser.
Context {Lexer : Type}.
Variable nextToken : Lexer -> res (SreToken * Lexer).

Record SreParser : Type := { lexer_ : Lexer; currentToken_ : SreToken }.

Definition advance (lexer : Lexer) : res SreParser :=
  let* (t, lexer') := nextToken lexer in
  Ok {| lexer_ := lexer'; currentToken_ := t |}.

(** Constructor: [currentToken_ = lexer_.nextToken();] *)
Definition SreParser_new (lexer : Lexer) : res SreParser := advance lexer.

Definition current (p : SreParser) : SreTokenType := type (currentToken_ p).

Definition consume (ty : SreTokenType) (p : SreParser) : res SreParser :=
  if SreTokenType_eqb (current p) ty then advance (lexer_ p)
  else Throw TokenTypeMismatch.

Abbreviation parsed := (res (SreASTNode * SreParser)).

(** The four mutually recursive methods are tied through
    [parseExpression], passed here as [pe]; [n] bounds the iterations of
    the [while] loops. *)
Section Levels.
Variable pe : SreParser -> parsed.

(* while (currentToken_.type == Comma) { consume; args.push_back(...) } *)
Fixpoint parseArgs_loop (n : nat) (args : list SreASTNode)
    (p : SreParser) : res (list SreASTNode * SreParser) :=
  if SreTokenType_eqb (current p) Comma then
    match n with
    | 0 => OutOfFuel
    | S n' =>
        let* p := consume Comma p in
        let* (a, p) := pe p in
        parseArgs_loop n' (args ++ [a]) p
    end
  else Ok (args, p).

Definition parsePrimary (n : nat) (p : SreParser) : parsed :=
  match current p with
  | LParen =>
      let* p := consume LParen p in
      let* (node, p) := pe p in
      let* p := consume RParen p in
      Ok (node, p)
  | Identifier =>
      let name := text (currentToken_ p) in
      let* p := consume Identifier p in
      if SreTokenType_eqb (current p) LParen then
        let* p := consume LParen p in
        let* (args, p) :=
          if negb (SreTokenType_eqb (current p) RParen) then
            let* (a, p) := pe p in
            parseArgs_loop n [a] p
          else Ok ([], p) in
        let* p := consume RParen p in
        Ok (SreFunctionNode name args, p)
      else
        let isVar := contains_char "#" name in
        let varName := name in
        let varName := remove_char "#" varName in
        let varName := remove_char "{" varName in
        let varName := remove_char "}" varName in
        Ok (SreValueNode varName isVar, p)
  | StringLiteral =>
      let s := text (currentToken_ p) in
      let* p := consume StringLiteral p in
      Ok (SreValueNode s false, p)
  | _ => Throw (UnexpectedToken (text (currentToken_ p)))
  end.

Definition parseNot (n : nat) (p : SreParser) : parsed :=
  if SreTokenType_eqb (current p) Not then
    let* p := consume Not p in
    let* (operand, p) := parsePrimary n p in
    Ok (SreLogicalNode OpNot operand None, p)
  else parsePrimary n p.

(* while (currentToken_.type == And) { ... } *)
Fixpoint parseAnd_loop (n k : nat) (node : SreASTNode)
    (p : SreParser) : parsed :=
  if SreTokenType_eqb (current p) And then
    match k with
    | 0 => OutOfFuel
    | S k' =>
        let* p := consume And p in
        let* (rhs, p) := parseNot n p in
        parseAnd_loop n k' (SreLogicalNode OpAnd node (Some rhs)) p
    end
  else Ok (node, p).

Definition parseAnd (n : nat) (p : SreParser) : parsed :=
  let* (node, p) := parseNot n p in
  parseAnd_loop n n node p.

(* while (currentToken_.type == Or) { ... } *)
Fixpoint parseOr_loop (n k : nat) (node : SreASTNode)
    (p : SreParser) : parsed :=
  if SreTokenType_eqb (current p) Or then
    match k with
    | 0 => OutOfFuel
    | S k' =>
        let* p := consume Or p in
        let* (rhs, p) := parseAnd n p in
        parseOr_loop n k' (SreLogicalNode OpOr node (Some rhs)) p
    end
  else Ok (node, p).

Definition parseOr (n : nat) (p : SreParser) : parsed :=
  let* (node, p) := parseAnd n p in
  parseOr_loop n n node p.
End Levels.

Fixpoint parseExpression (fuel : nat) (p : SreParser) : parsed :=
  match fuel with
  | 0 => OutOfFuel
  | S fuel' => parseOr (parseExpression fuel') fuel' p
  end.
End SreParser.

Arguments SreParser Lexer : clear implicits.
Arguments lexer_ {Lexer} _.
Arguments currentToken_ {Lexer} _.
Arguments current {Lexer} _.

(** ** Engine facade *)

Record SreRuleEngine : Type := { functions_ : gmap string SreFunction }.

Definition registerFunction (name : string) (func : SreFunction)
    (e : SreRuleEngine) : SreRuleEngine :=
  let lower := lowercase name in
  {| functions_ := <[lower := func]> (functions_ e) |}.

Definition isSome {A : Type} (o : option A) : bool :=
  match o with Some _ => true | None => false end.

(* args[0].find(args[1]) != std::string::npos *)
Definition builtin_contains : SreFunction := fun args =>
  match args with
  | [a0; a1] => Ok (isSome (find a0 a1))
  | _ => Throw (PredicateError "contains requires 2 arguments")
  end.

(* for (size_t i = 1; i < args.size(); ++i)
     if (args[0].find(args[i]) != npos) return true;
   return false; *)
Fixpoint containsAny_loop (a0 : string) (rest : list string) : bool :=
  match rest with
  | [] => false
  | ai :: rest' => if isSome (find a0 ai) then true else containsAny_loop a0 rest'
  end.

Definition builtin_containsAny : SreFunction := fun args =>
  match args with
  | a0 :: (_ :: _) as rest => Ok (containsAny_loop a0 rest)
  | _ => Throw (PredicateError "containsAny requires at least 2 arguments")
  end.

Definition initBuiltInFunctions (e : SreRuleEngine) : SreRuleEngine :=
  registerFunction "containsany" builtin_containsAny
    (registerFunction "contains" builtin_contains e).

(** Constructor of the engine. *)
Definition SreRuleEngine_new : SreRuleEngine :=
  initBuiltInFunctions {| functions_ := ∅ |}.

(** The recursion bound handed to the parser: two more than the number of
    characters of the expression ([parseExpression_nextToken_total] shows it
    is never exhausted). *)
Definition fuel_of (expression : string) : nat := S (S (String.length expression)).

Definition evaluate (e : SreRuleEngine) (expression : string)
    (ctx : SreContext) : res bool :=
  let lexer := SreLexer_new expression in
  let* parser := SreParser_new nextToken lexer in
  let* (root, _) := parseExpression nextToken (fuel_of expression) parser in
  evalBool ctx (functions_ e) root.

(** The tree [evaluate] builds from an expression before walking it. *)
Definition parseRoot (expression : string) : res SreASTNode :=
  let lexer := SreLexer_new expression in
  let* parser := SreParser_new nextToken lexer in
  let* (root, _) := parseExpression nextToken (fuel_of expression) parser in
  Ok root.

(** The context key of a variable reference: the lexeme without its
    [#], [{] and [}] (the three [erase]/[remove] calls of [parsePrimary]). *)
Definition variableName (lexeme : string) : string :=
  remove_char "}" (remove_char "{" (remove_char "#" lexeme)).

Definition isValueNode (n : SreASTNode) : bool :=
  match n with SreValueNode _ _ => true | _ => false end.

(** The context of the end-to-end scenarios. *)
Definition ctx_ab : SreContext :=
  <["b" := "hello, world, xxxx"]> (<["a" := "hello"]> ∅).

(** ** Token traces

    The sequence of answers a lexer gives to successive [nextToken] calls,
    up to its first [End] or its first exception.  Statements about the
    parser are made on traces and carried to the lexer by
    [parseExpression_traced]. *)

Inductive trace : Type :=
| TEnd
| TThrow (e : exn)
| TCons (t : SreToken) (tr : trace).

Definition EndToken : SreToken := {| type := End; text := "" |}.

Definition nextTrace (tr : trace) : res (SreToken * trace) :=
  match tr with
  | TEnd => Ok (EndToken, TEnd)
  | TThrow e => Throw e
  | TCons t tr' => Ok (t, tr')
  end.

(** [tapp ts tr]: the tokens [ts], then the trace [tr]. *)
Definition tapp (ts : list SreToken) (tr : trace) : trace :=
  fold_right TCons tr ts.

(** The distance of the lexer from the end of its input. *)
Definition lexer_size (l : SreLexer) : nat := String.length (input_ l) - pos_ l.

(** The trace of a lexer; [n] bounds the number of tokens, and
    [S (lexer_size l)] is enough ([trace_from_any]). *)
Fixpoint trace_from (n : nat) (l : SreLexer) : trace :=
  match n with
  | 0 => TEnd
  | S n' =>
      match nextToken l with
      | Ok (t, l') =>
          if SreTokenType_eqb (type t) End then TEnd
          else TCons t (trace_from n' l')
      | Throw e => TThrow e
      | _ => TEnd
      end
  end.

Definition trace_of (l : SreLexer) : trace := trace_from (S (lexer_size l)) l.

(** The tokens of an expression, as the parser will receive them. *)
Definition tokens (expression : string) : trace :=
  trace_of (SreLexer_new expression).

(** Parsing alone: the tree [evaluate] walks. *)
Definition parse (fuel : nat) (tr : trace) : res SreASTNode :=
  let* parser := SreParser_new nextTrace tr in
  let* (root, _) := parseExpression nextTrace fuel parser in
  Ok root.

(** Renaming of the function names of a tree, and of the names that the
    messages of exceptions carry. *)
Fixpoint mapNode (g : string -> string) (n : SreASTNode) : SreASTNode :=
  match n with
  | SreLogicalNode op_ left_ right_ =>
      SreLogicalNode op_ (mapNode g left_) (option_map (mapNode g) right_)
  | SreValueNode val_ isVariable_ => SreValueNode val_ isVariable_
  | SreFunctionNode name_ args_ =>
      SreFunctionNode (g name_) (List.map (mapNode g) args_)
  end.

Definition mapExn (g : string -> string) (e : exn) : exn :=
  match e with
  | FunctionNotFound name => FunctionNotFound (g name)
  | UnexpectedToken text => UnexpectedToken (g text)
  | _ => e
  end.

Definition mapRes {A B : Type} (f : A -> B) (g : string -> string)
    (r : res A) : res B :=
  match r with
  | Ok a => Ok (f a)
  | Throw e => Throw (mapExn g e)
  | OutOfFuel => OutOfFuel
  | NullDeref => NullDeref
  end.

(** [le_res r r']: [r'] is what [r] becomes with a larger recursion
    bound: the same, unless [r] ran out. *)
Definition le_res {A : Type} (r r' : res A) : Prop := r = OutOfFuel \/ r = r'.

(** The number of tokens a parser over a lexer of the given [size] may still
    consume. *)
Definition weight {Lexer : Type} (size : Lexer -> nat)
    (p : SreParser Lexer) : nat :=
  if SreTokenType_eqb (current p) End then 0 else S (size (lexer_ p)).

(** [holds P r]: [r] did not run out of fuel, and satisfies [P] if it is a
    value. *)
Definition holds {A : Type} (P : A -> Prop) (r : res A) : Prop :=
  match r with
  | Ok a => P a
  | OutOfFuel => False
  | _ => True
  end.

(** The parser state over the trace of its lexer. *)
Definition traced (p : SreParser SreLexer) : SreParser trace :=
  {| lexer_ := trace_of (lexer_ p); currentToken_ := currentToken_ p |}.

(** [graft t rest tr]: the trace [tr] with [t], then [rest], in place of its
    [End]: what the lexer yields when more text follows. *)
Fixpoint graft (t : SreToken) (rest : trace) (tr : trace) : trace :=
  match tr with
  | TEnd => TCons t rest
  | TThrow e => TThrow e
  | TCons x tr' => TCons x (graft t rest tr')
  end.

Definition graftS (t : SreToken) (rest : trace) (p : SreParser trace)
    : SreParser trace :=
  if SreTokenType_eqb (current p) End
  then {| lexer_ := rest; currentToken_ := t |}
  else {| lexer_ := graft t rest (lexer_ p); currentToken_ := currentToken_ p |}.

(** No [End] token before the end of the trace (the lexer yields none). *)
Fixpoint noEnd (tr : trace) : bool :=
  match tr with
  | TCons x tr' => negb (SreTokenType_eqb (type x) End) && noEnd tr'
  | _ => true
  end.

(** The last token before the end of the trace [TCons c tr] is an
    identifier. *)
Fixpoint endsWithIdentifier (c : SreToken) (tr : trace) : bool :=
  match tr with
  | TEnd => SreTokenType_eqb (type c) Identifier
  | TThrow _ => false
  | TCons x tr' => endsWithIdentifier x tr'
  end.

(** What the grafting lemmas maintain of a parser state: its lexer yields no
    early [End], and [t] is not an opening parenthesis if the tokens still to
    come end with an identifier (which [t] would turn into a call). *)
Definition graftable (t : SreToken) (p : SreParser trace) : Prop :=
  noEnd (lexer_ p) = true /\
  (endsWithIdentifier (currentToken_ p) (lexer_ p) = true -> type t <> LParen).

Definition traceEndsWithIdentifier (tr : trace) : bool :=
  match tr with
  | TCons x tr' => endsWithIdentifier x tr'
  | _ => false
  end.

Definition lastIsIdentifier (ts : list SreToken) : bool :=
  SreTokenType_eqb (type (List.last ts EndToken)) Identifier.

(** [may_follow ts t]: the token [t], coming after a complete expression
    whose tokens are [ts], leaves the parser where it stopped: it is not
    [and] or [or], which would continue the expression, nor an opening
    parenthesis after a final identifier, which would make it a call. *)
Definition may_follow (ts : list SreToken) (t : SreToken) : bool :=
  negb (SreTokenType_eqb (type t) And) &&
  negb (SreTokenType_eqb (type t) Or) &&
  negb (lastIsIdentifier ts && SreTokenType_eqb (type t) LParen).

Fixpoint trace_length (tr : trace) : nat :=
  match tr with
  | TCons _ tr' => S (trace_length tr')
  | _ => 0
  end.

(** The parser state with current token [x] and the trace [tr] ahead. *)
Definition parserAt (x : SreToken) (tr : trace) : SreParser trace :=
  {| lexer_ := tr; currentToken_ := x |}.

(** The levels of the grammar as functions of the recursion bound. *)
Definition primaryLevel (F : nat) :=
  parsePrimary nextTrace (parseExpression nextTrace F) F.
Definition notLevel (F : nat) :=
  parseNot nextTrace (parseExpression nextTrace F) F.
Definition andLevel (F : nat) :=
  parseAnd nextTrace (parseExpression nextTrace F) F.
Definition orLevel (F : nat) :=
  parseOr nextTrace (parseExpression nextTrace F) F.

(** [parsesTo level p a p']: from state [p] the level yields the tree [a] and
    stops in state [p'], for every large enough recursion bound. *)
Definition parsesTo
    (level : nat -> SreParser trace -> res (SreASTNode * SreParser trace))
    (p : SreParser trace) (a : SreASTNode) (p' : SreParser trace) : Prop :=
  exists f, forall F, f <= F -> level F p = Ok (a, p').

(** [complete level ts]: the tree that the tokens [ts], on their own, parse
    to at the given level when the parser consumes them all. *)
Definition complete
    (level : nat -> SreParser trace -> res (SreASTNode * SreParser trace))
    (ts : list SreToken) : option SreASTNode :=
  match SreParser_new nextTrace (tapp ts TEnd) with
  | Ok p =>
      match level (length ts) p with
      | Ok (a, p') =>
          if SreTokenType_eqb (current p') End && noEnd (tapp ts TEnd)
          then Some a else None
      | _ => None
      end
  | _ => None
  end.

(** A subexpression that can stand as an operand of [and]/[or] (the [not]
    level of the grammar) and one that can stand after [not] (a primary). *)
Definition operand_of (ts : list SreToken) : option SreASTNode :=
  complete notLevel ts.

Definition T_or : SreToken := {| type := Or; text := "or" |}.
Definition T_and : SreToken := {| type := And; text := "and" |}.
Definition T_not : SreToken := {| type := Not; text := "not" |}.
Definition T_lparen : SreToken := {| type := LParen; text := "(" |}.
Definition T_rparen : SreToken := {| type := RParen; text := ")" |}.

(** ** Case folding

    [foldCase] lowercases, in a trace, what the engine reads without regard
    to case: the lexemes of the keywords (and of the other tokens that only
    an error message shows) and the identifiers that an opening parenthesis
    follows, which are the names of called predicates.  String literals and
    the other identifiers are kept as written. *)

Definition nextIsLParen (tr : trace) : bool :=
  match tr with
  | TCons x _ => SreTokenType_eqb (type x) LParen
  | _ => false
  end.

Definition foldToken (t : SreToken) (tr : trace) : SreToken :=
  match type t with
  | StringLiteral => t
  | Identifier =>
      if nextIsLParen tr
      then {| type := Identifier; text := lowercase (text t) |}
      else t
  | ty => {| type := ty; text := lowercase (text t) |}
  end.

Fixpoint foldCase (tr : trace) : trace :=
  match tr with
  | TEnd => TEnd
  | TThrow e => TThrow (mapExn lowercase e)
  | TCons t tr' => TCons (foldToken t tr') (foldCase tr')
  end.

Definition foldState (p : SreParser trace) : SreParser trace :=
  {| lexer_ := foldCase (lexer_ p);
     currentToken_ := foldToken (currentToken_ p) (lexer_ p) |}.

(** An outcome up to the casing of the token or function that the message
    of its exception names: booleans and all other exceptions are kept. *)
Definition foldOutcome (r : res bool) : res bool := mapRes id lowercase r.

(** ** Vocabulary of the further properties *)

(** A whole expression on its own (the tokens are all consumed). *)
Definition exprLevel (F : nat) := parseExpression nextTrace (S F).
Definition expression_of (ts : list SreToken) : option SreASTNode :=
  complete exprLevel ts.

(** [chain sep t0 [t1; ...; tn]]: the tokens of [t0 sep t1 sep ... sep tn],
    and the tree that nests its operands to the left. *)
Definition chain (sep : SreToken) (t0 : list SreToken)
    (ts : list (list SreToken)) : list SreToken :=
  t0 ++ List.concat (List.map (cons sep) ts).

Definition leftNested (op : Operator) (a0 : SreASTNode)
    (rest : list SreASTNode) : SreASTNode :=
  fold_left (fun acc a => SreLogicalNode op acc (Some a)) rest a0.

Definition remainder (sep : SreToken) (ts : list (list SreToken)) : trace :=
  tapp (List.concat (List.map (cons sep) ts)) TEnd.

(** The parser stands before [sep t1 sep ... sep tn] and the end. *)
Definition reads (sep : SreToken) (p : SreParser trace)
    (ts : list (list SreToken)) : Prop :=
  match ts with
  | [] => current p = End
  | t :: ts' => p = parserAt sep (tapp t (remainder sep ts'))
  end.

Definition parsesToLoop
    (loop : nat -> nat -> SreParser trace -> res (SreASTNode * SreParser trace))
    (p : SreParser trace) (a : SreASTNode) (p' : SreParser trace) : Prop :=
  exists f, forall F k, f <= F -> f <= k -> loop F k p = Ok (a, p').

(** The token types with which a primary can begin. *)
Definition isPrimaryStart (ty : SreTokenType) : bool :=
  match ty with
  | LParen | Identifier | StringLiteral => true
  | _ => false
  end.

(** A name without any of the three characters that [parsePrimary]
    strips from a lexeme. *)
Definition plainName (name : string) : bool :=
  negb (contains_char "#" name) && negb (contains_char "{" name) &&
  negb (contains_char "}" name).

(** The lexer state of [l] when the text [pre] stands before its input. *)
Definition shiftLexer (pre : string) (l : SreLexer) : SreLexer :=
  {| input_ := pre +:+ input_ l; pos_ := String.length pre + pos_ l |}.

(** The token types of the words: identifiers and keywords. *)
Definition isWord (ty : SreTokenType) : bool :=
  match ty with
  | Identifier | And | Or | Not => true
  | _ => false
  end.

(** A tree as the constructors of the source intend it: [and] and [or]
    with two children, [not] with one. *)
Fixpoint wellFormed (n : SreASTNode) : bool :=
  match n with
  | SreLogicalNode OpNot left_ None => wellFormed left_
  | SreLogicalNode OpNot _ (Some _) => false
  | SreLogicalNode _ left_ (Some right_) =>
      wellFormed left_ && wellFormed right_
  | SreLogicalNode _ _ None => false
  | SreValueNode _ _ => true
  | SreFunctionNode _ args_ => forallb wellFormed args_
  end.

(** A post-condition on the value a computation returns, if it returns;
    the computation dereferences no null pointer. *)
Definition ensures {A : Type} (P : A -> Prop) (r : res A) : Prop :=
  match r with
  | Ok a => P a
  | NullDeref => False
  | _ => True
  end.

(** No callable of a registry reads through a null pointer of a tree: a
    callable is handed strings only. *)
Definition callables_safe (fns : SreFunctions) : Prop :=
  forall name f args, fns !! name = Some f -> f args <> NullDeref.

(** The text of a call whose arguments are string literals:
    [name('a1','a2',...,'an')]. *)
Definition quote (s : string) : string := "'" +:+ s +:+ "'".

Fixpoint moreLiterals (args : list string) : string :=
  match args with
  | [] => ""
  | a :: args' => "," +:+ quote a +:+ moreLiterals args'
  end.

Definition literals (args : list string) : string :=
  match args with
  | [] => ""
  | a :: args' => quote a +:+ moreLiterals args'
  end.

Definition call (name : string) (args : list string) : string :=
  name +:+ "(" +:+ literals args +:+ ")".

(** A word that the lexer reads as one identifier. *)
Definition isName (w : string) : bool :=
  match w with
  | EmptyString => false
  | String c _ => isIdentStart c
  end &&
  forallb isIdentPart (list_ascii_of_string w) &&
  SreTokenType_eqb (keyword w) Identifier.

Definition quoteFree (s : string) : bool := negb (contains_char "'" s).

Definition T_comma : SreToken := {| type := Comma; text := "," |}.
Definition literalToken (s : string) : SreToken :=
  {| type := StringLiteral; text := s |}.
Definition literalNode (s : string) : SreASTNode := SreValueNode s false.

Fixpoint moreLiteralTokens (args : list string) : list SreToken :=
  match args with
  | [] => []
  | a :: args' => T_comma :: literalToken a :: moreLiteralTokens args'
  end.

Definition literalTokens (args : list string) : list SreToken :=
  match args with
  | [] => []
  | a :: args' => literalToken a :: moreLiteralTokens args'
  end.

(** ** Re-casing an expression

    [lowerLexer] is the lexer over the lowercased input, [lowerTrace] a
    trace with every lexeme lowercased.  [valuesKept tr tr'] says that
    where [tr] has a value, a string literal or an identifier that no
    opening parenthesis follows, [tr'] has the same lexeme at the same
    place. *)

Definition lowerLexer (l : SreLexer) : SreLexer :=
  {| input_ := lowercase (input_ l); pos_ := pos_ l |}.

Definition lowerToken (t : SreToken) : SreToken :=
  {| type := type t; text := lowercase (text t) |}.

Fixpoint lowerTrace (tr : trace) : trace :=
  match tr with
  | TEnd => TEnd
  | TThrow e => TThrow e
  | TCons t tr' => TCons (lowerToken t) (lowerTrace tr')
  end.

Definition isValueToken (t : SreToken) (tr : trace) : bool :=
  match type t with
  | StringLiteral => true
  | Identifier => negb (nextIsLParen tr)
  | _ => false
  end.

Fixpoint valuesKept (tr tr' : trace) : bool :=
  match tr, tr' with
  | TCons t r, TCons t' r' =>
      (if isValueToken t r then String.eqb (text t) (text t') else true) &&
      valuesKept r r'
  | _, _ => true
  end.

(** A subexpression that can stand as an operand of [or]: the [and] level
    of the grammar, a chain of [and] included. *)
Definition conjunction_of (ts : list SreToken) : option SreASTNode :=
  complete andLevel ts.

(** ** Basic facts about outcomes and strings *)

Lemma bind_Ok {A B : Type} (a : A) (k : A -> res B) : bind (Ok a) k = k a.
Proof. reflexivity. Qed.

Lemma bind_inv_Ok {A B : Type} (r : res A) (k : A -> res B) (b : B) :
  bind r k = Ok b -> exists a, r = Ok a /\ k a = Ok b.
Proof. destruct r; simpl; intros H; try discriminate. eauto. Qed.

Lemma prefix_empty (s : string) : String.prefix "" s = true.
Proof. destruct s; reflexivity. Qed.

Lemma prefix_refl (s : string) : String.prefix s s = true.
Proof.
  induction s as [|c s IH]; simpl; [reflexivity|].
  destruct (ascii_dec c c); [assumption | congruence].
Qed.

Lemma prefix_of_empty (y : string) : String.prefix y "" = empty y.
Proof. destruct y; reflexivity. Qed.

Lemma find_empty (x : string) : find x "" = Some 0.
Proof. destruct x; reflexivity. Qed.

Lemma find_self (x : string) : find x x = Some 0.
Proof. destruct x as [|c x]; [reflexivity|]. unfold find; fold find. now rewrite prefix_refl. Qed.

Lemma find_in_empty (y : string) : isSome (find "" y) = empty y.
Proof. destruct y; reflexivity. Qed.

(** ** Evaluation of call arguments *)

Lemma evalArgs_app ctx pre rest acc :
  evalArgs ctx (pre ++ rest) acc =
  let* vs := evalArgs ctx pre acc in evalArgs ctx rest vs.
Proof.
  revert acc. induction pre as [|a pre IH]; intros acc; simpl; [reflexivity|].
  destruct (evalString ctx a); simpl; auto.
Qed.

Lemma evalArgs_length ctx args acc vs :
  evalArgs ctx args acc = Ok vs -> length vs = length acc + length args.
Proof.
  revert acc. induction args as [|a args IH]; intros acc; simpl.
  - intros [= <-]. lia.
  - destruct (evalString ctx a); simpl; try discriminate.
    intros H. apply IH in H. rewrite length_app in H. simpl in H. lia.
Qed.

Lemma evalArgs_stops ctx pre a post acc vs r :
  evalArgs ctx pre acc = Ok vs ->
  evalString ctx a = r -> (forall s, r <> Ok s) ->
  evalArgs ctx (pre ++ a :: post) acc = bind r (fun _ => Ok []).
Proof.
  intros Hpre Ha Hr. rewrite evalArgs_app, Hpre. simpl. rewrite Ha.
  destruct r; simpl; try reflexivity. now destruct (Hr a0).
Qed.

Lemma builtins_contains :
  functions_ SreRuleEngine_new !! "contains" = Some builtin_contains.
Proof. reflexivity. Qed.

Lemma builtins_containsAny :
  functions_ SreRuleEngine_new !! lowercase "containsAny" = Some builtin_containsAny.
Proof. reflexivity. Qed.

(** ** The scanning loops of the lexer *)

Lemma get_Some_lt (s : string) (n : nat) (c : ascii) :
  String.get n s = Some c -> n < String.length s.
Proof.
  revert n. induction s as [|d s IH]; intros [|n]; simpl; try discriminate.
  - lia.
  - intros H. apply IH in H. lia.
Qed.

Lemma get_None_ge (s : string) (n : nat) :
  String.length s <= n -> String.get n s = None.
Proof.
  revert n. induction s as [|d s IH]; intros [|n]; simpl; auto; try lia.
  intros H. apply IH. lia.
Qed.

Lemma get_None_le (s : string) (n : nat) :
  String.get n s = None -> String.length s <= n.
Proof.
  revert n. induction s as [|d s IH]; intros [|n]; simpl; try discriminate;
    try lia.
  intros H. apply IH in H. lia.
Qed.

Lemma get_app_r (pre s : string) (n : nat) :
  String.get (String.length pre + n) (pre +:+ s) = String.get n s.
Proof. induction pre as [|d pre IH]; simpl; auto. Qed.

Lemma length_app_string (s t : string) :
  String.length (s +:+ t) = String.length s + String.length t.
Proof. induction s as [|d s IH]; simpl; auto. Qed.

Lemma app_string_assoc (s t u : string) : (s +:+ t) +:+ u = s +:+ (t +:+ u).
Proof. induction s as [|d s IH]; simpl; congruence. Qed.

Lemma app_string_empty_r (s : string) : s +:+ "" = s.
Proof. induction s as [|d s IH]; simpl; congruence. Qed.

Lemma advanceWhile_ge keep input n pos :
  pos <= advanceWhile keep input n pos.
Proof.
  revert pos. induction n as [|n IH]; intros pos; simpl; [lia|].
  destruct (String.get pos input) as [c|]; [|lia].
  destruct (keep c); [|lia]. specialize (IH (S pos)). lia.
Qed.

Lemma pushWhile_pos keep input n s pos :
  snd (pushWhile keep input n s pos) = advanceWhile keep input n pos.
Proof.
  revert s pos. induction n as [|n IH]; intros s pos; simpl; [reflexivity|].
  destruct (String.get pos input) as [c|]; [|reflexivity].
  destruct (keep c); [apply IH | reflexivity].
Qed.

Lemma advanceWhile_first keep input n pos c :
  String.get pos input = Some c -> keep c = true ->
  S pos <= advanceWhile keep input (S n) pos.
Proof.
  intros Hc Hk. simpl. rewrite Hc, Hk. apply advanceWhile_ge.
Qed.

(** A run of characters that all satisfy [keep] and reaches the end of the
    input is pushed whole. *)
Lemma pushWhile_to_end keep pre s acc :
  forallb keep (list_ascii_of_string s) = true ->
  pushWhile keep (pre +:+ s) (String.length s) acc (String.length pre) =
  (acc +:+ s, String.length pre + String.length s).
Proof.
  revert pre acc. induction s as [|c s IH]; intros pre acc Hall; simpl.
  - now rewrite app_string_empty_r, Nat.add_0_r.
  - simpl in Hall. apply andb_true_iff in Hall as [Hc Hs].
    replace (String.length pre) with (String.length pre + 0) at 1 by lia.
    rewrite get_app_r. simpl. rewrite Hc.
    specialize (IH (pre +:+ String c "") (push_back acc c) Hs).
    rewrite app_string_assoc, length_app_string in IH. simpl in IH.
    replace (String.length pre + 1) with (S (String.length pre)) in IH by lia.
    rewrite IH. unfold push_back. rewrite app_string_assoc. simpl.
    f_equal. lia.
Qed.

Lemma isIdentStart_Part c : isIdentStart c = true -> isIdentPart c = true.
Proof.
  unfold isIdentStart, isIdentPart, isalnum.
  destruct (isalpha c), (isdigit c), (Ascii.eqb c "#"), (Ascii.eqb c "{"),
    (Ascii.eqb c "}"); simpl; auto.
Qed.

Lemma keyword_not_End s : keyword s <> End.
Proof.
  unfold keyword.
  repeat match goal with |- context [if ?b then _ else _] => destruct b end;
    discriminate.
Qed.

Lemma nextToken_input l t l' :
  nextToken l = Ok (t, l') -> input_ l' = input_ l.
Proof.
  unfold nextToken. simpl.
  destruct (String.get _ _) as [c|]; [|now intros [= <- <-]].
  destruct (isIdentStart c).
  { destruct (pushWhile _ _ _ _ _). now intros [= <- <-]. }
  destruct (Ascii.eqb c "'").
  { destruct (pushWhile _ _ _ _ _). now intros [= <- <-]. }
  repeat match goal with
         | |- context [if ?b then _ else _] => destruct b
         end; try discriminate; now intros [= <- <-].
Qed.

(** Every token other than [End] moves the lexer strictly forward. *)
Lemma nextToken_progress l t l' :
  nextToken l = Ok (t, l') -> type t <> End -> lexer_size l' < lexer_size l.
Proof.
  unfold nextToken, lexer_size. simpl.
  pose proof (advanceWhile_ge isspace (input_ l)
                (String.length (input_ l) - pos_ l) (pos_ l)) as Hge.
  set (pos := advanceWhile _ _ _ _) in *.
  destruct (String.get pos (input_ l)) as [c|] eqn:Hc.
  2:{ intros [= <- <-] Hne. now destruct Hne. }
  pose proof (get_Some_lt _ _ _ Hc) as Hlt.
  destruct (isIdentStart c) eqn:Hstart.
  { destruct (pushWhile _ _ _ _ _) as [s pos'] eqn:Hp.
    intros [= <- <-] _. simpl.
    pose proof (pushWhile_pos isIdentPart (input_ l)
                  (String.length (input_ l) - pos) "" pos) as Hs.
    rewrite Hp in Hs. simpl in Hs. subst pos'.
    destruct (String.length (input_ l) - pos) as [|n] eqn:Hn; [lia|].
    pose proof (advanceWhile_first isIdentPart _ n _ _ Hc
                  (isIdentStart_Part _ Hstart)). lia. }
  destruct (Ascii.eqb c "'").
  { destruct (pushWhile _ _ _ _ _) as [s pos'] eqn:Hp.
    intros [= <- <-] _. simpl.
    pose proof (pushWhile_pos notQuote (input_ l)
                  (String.length (input_ l) - S pos) "" (S pos)) as Hs.
    rewrite Hp in Hs. simpl in Hs. subst pos'.
    pose proof (advanceWhile_ge notQuote (input_ l)
                  (String.length (input_ l) - S pos) (S pos)). lia. }
  repeat match goal with
         | |- context [if ?b then _ else _] => destruct b
         end; try discriminate; intros [= <- <-] _; simpl; lia.
Qed.

(** Once the end is reached the lexer keeps answering [End] and stays. *)
Lemma nextToken_at_end l :
  lexer_size l = 0 -> nextToken l = Ok ({| type := End; text := "" |}, l).
Proof.
  unfold nextToken, lexer_size, skipWhitespace. intros H. rewrite H. simpl.
  rewrite get_None_ge by lia. destruct l; reflexivity.
Qed.

Lemma nextToken_End l t l' :
  nextToken l = Ok (t, l') -> type t = End ->
  t = {| type := End; text := "" |} /\ lexer_size l' = 0.
Proof.
  unfold nextToken, lexer_size. simpl.
  set (pos := advanceWhile _ _ _ _) in *.
  destruct (String.get pos (input_ l)) as [c|] eqn:Hc.
  2:{ intros [= <- <-] _. simpl. split; [reflexivity|].
      apply get_None_le in Hc. lia. }
  destruct (isIdentStart c).
  { destruct (pushWhile _ _ _ _ _). intros [= <- <-]. simpl.
    intros H. now apply keyword_not_End in H. }
  destruct (Ascii.eqb c "'").
  { destruct (pushWhile _ _ _ _ _). intros [= <- <-]. discriminate. }
  repeat match goal with
         | |- context [if ?b then _ else _] => destruct b
         end; try discriminate; intros [= <- <-]; discriminate.
Qed.

Lemma nextToken_definite l :
  nextToken l <> OutOfFuel /\ nextToken l <> NullDeref.
Proof.
  unfold nextToken. simpl.
  destruct (String.get _ _) as [c|]; [|split; discriminate].
  destruct (isIdentStart c).
  { destruct (pushWhile _ _ _ _ _). split; discriminate. }
  destruct (Ascii.eqb c "'").
  { destruct (pushWhile _ _ _ _ _). split; discriminate. }
  repeat match goal with
         | |- context [if ?b then _ else _] => destruct b
         end; split; discriminate.
Qed.

(** ** The recursion bound of the parser

    A larger bound never changes a result that a smaller one produced. *)

Lemma le_res_refl {A : Type} (r : res A) : le_res r r.
Proof. now right. Qed.

Lemma le_res_bind {A B : Type} (r r' : res A) (k k' : A -> res B) :
  le_res r r' -> (forall a, le_res (k a) (k' a)) ->
  le_res (bind r k) (bind r' k').
Proof.
  intros [-> | ->] Hk; [now left|].
  destruct r'; simpl; auto using le_res_refl.
Qed.

Lemma SreTokenType_eqb_eq a b : SreTokenType_eqb a b = true <-> a = b.
Proof. destruct a, b; simpl; split; congruence. Qed.

Lemma SreTokenType_eqb_neq a b : SreTokenType_eqb a b = false <-> a <> b.
Proof. destruct a, b; simpl; split; congruence. Qed.

Section LoopEquations.
Context {Lexer : Type} (next : Lexer -> res (SreToken * Lexer)).
Variable pe : SreParser Lexer -> res (SreASTNode * SreParser Lexer).

Lemma parseArgs_loop_eq n args p :
  parseArgs_loop next pe n args p =
  if SreTokenType_eqb (current p) Comma then
    match n with
    | 0 => OutOfFuel
    | S n' =>
        let* p := consume next Comma p in
        let* (a, p) := pe p in
        parseArgs_loop next pe n' (args ++ [a]) p
    end
  else Ok (args, p).
Proof. destruct n; reflexivity. Qed.

Lemma parseAnd_loop_eq n k node p :
  parseAnd_loop next pe n k node p =
  if SreTokenType_eqb (current p) And then
    match k with
    | 0 => OutOfFuel
    | S k' =>
        let* p := consume next And p in
        let* (rhs, p) := parseNot next pe n p in
        parseAnd_loop next pe n k' (SreLogicalNode OpAnd node (Some rhs)) p
    end
  else Ok (node, p).
Proof. destruct k; reflexivity. Qed.

Lemma parseOr_loop_eq n k node p :
  parseOr_loop next pe n k node p =
  if SreTokenType_eqb (current p) Or then
    match k with
    | 0 => OutOfFuel
    | S k' =>
        let* p := consume next Or p in
        let* (rhs, p) := parseAnd next pe n p in
        parseOr_loop next pe n k' (SreLogicalNode OpOr node (Some rhs)) p
    end
  else Ok (node, p).
Proof. destruct k; reflexivity. Qed.
End LoopEquations.

Ltac le_res_step :=
  first
    [ apply le_res_refl
    | apply le_res_bind; [| intros ?]
    | match goal with
      | |- le_res (let (_, _) := ?x in _) _ => destruct x
      | |- le_res (if ?b then _ else _) _ => destruct b
      | |- le_res (match current ?p with _ => _ end) _ => destruct (current p)
      end ].

Section Monotone.
Context {Lexer : Type} (next : Lexer -> res (SreToken * Lexer)).
Variables pe pe' : SreParser Lexer -> res (SreASTNode * SreParser Lexer).
Hypothesis Hpe : forall p, le_res (pe p) (pe' p).

Lemma parseArgs_loop_mono n n' args p :
  n <= n' ->
  le_res (parseArgs_loop next pe n args p) (parseArgs_loop next pe' n' args p).
Proof.
  revert n' args p. induction n as [|n IH]; intros n' args p Hle;
    rewrite !parseArgs_loop_eq.
  - destruct (SreTokenType_eqb _ _); [now left | apply le_res_refl].
  - destruct n' as [|n']; [lia|].
    repeat first [solve [auto] | le_res_step]. apply IH. lia.
Qed.

Lemma parsePrimary_mono n n' p :
  n <= n' ->
  le_res (parsePrimary next pe n p) (parsePrimary next pe' n' p).
Proof.
  intros Hle. unfold parsePrimary.
  repeat first [solve [auto using parseArgs_loop_mono] | le_res_step].
Qed.

Lemma parseNot_mono n n' p :
  n <= n' -> le_res (parseNot next pe n p) (parseNot next pe' n' p).
Proof.
  intros Hle. unfold parseNot.
  repeat first [solve [auto using parsePrimary_mono] | le_res_step].
Qed.

Lemma parseAnd_loop_mono n n' k k' node p :
  n <= n' -> k <= k' ->
  le_res (parseAnd_loop next pe n k node p)
         (parseAnd_loop next pe' n' k' node p).
Proof.
  intros Hn. revert k' node p. induction k as [|k IH]; intros k' node p Hk;
    rewrite !parseAnd_loop_eq.
  - destruct (SreTokenType_eqb _ _); [now left | apply le_res_refl].
  - destruct k' as [|k']; [lia|].
    repeat first [solve [auto using parseNot_mono] | le_res_step]. apply IH. lia.
Qed.

Lemma parseAnd_mono n n' p :
  n <= n' -> le_res (parseAnd next pe n p) (parseAnd next pe' n' p).
Proof.
  intros Hle. unfold parseAnd.
  repeat first [solve [auto using parseNot_mono, parseAnd_loop_mono] | le_res_step].
Qed.

Lemma parseOr_loop_mono n n' k k' node p :
  n <= n' -> k <= k' ->
  le_res (parseOr_loop next pe n k node p)
         (parseOr_loop next pe' n' k' node p).
Proof.
  intros Hn. revert k' node p. induction k as [|k IH]; intros k' node p Hk;
    rewrite !parseOr_loop_eq.
  - destruct (SreTokenType_eqb _ _); [now left | apply le_res_refl].
  - destruct k' as [|k']; [lia|].
    repeat first [solve [auto using parseAnd_mono] | le_res_step]. apply IH. lia.
Qed.

Lemma parseOr_mono n n' p :
  n <= n' -> le_res (parseOr next pe n p) (parseOr next pe' n' p).
Proof.
  intros Hle. unfold parseOr.
  repeat first [solve [auto using parseAnd_mono, parseOr_loop_mono] | le_res_step].
Qed.
End Monotone.

Lemma parseExpression_mono {Lexer : Type}
    (next : Lexer -> res (SreToken * Lexer)) fuel fuel' p :
  fuel <= fuel' ->
  le_res (parseExpression next fuel p) (parseExpression next fuel' p).
Proof.
  revert fuel' p. induction fuel as [|fuel IH]; intros fuel' p Hle.
  - now left.
  - destruct fuel' as [|fuel']; [lia|]. simpl.
    apply parseOr_mono; [|lia]. intros q. apply IH. lia.
Qed.

Lemma parseExpression_more {Lexer : Type}
    (next : Lexer -> res (SreToken * Lexer)) fuel fuel' p :
  fuel <= fuel' -> parseExpression next fuel p <> OutOfFuel ->
  parseExpression next fuel' p = parseExpression next fuel p.
Proof.
  intros Hle Hne. destruct (parseExpression_mono next fuel fuel' p Hle); congruence.
Qed.

(** ** Totality of the parser

    Over a lexer that moves forward with every token other than [End], a
    bound above the weight of the parser state is never exhausted. *)

Lemma holds_bind {A B : Type} (P : A -> Prop) (Q : B -> Prop)
    (r : res A) (k : A -> res B) :
  holds P r -> (forall a, P a -> holds Q (k a)) -> holds Q (bind r k).
Proof. destruct r; simpl; auto. Qed.

Lemma holds_impl {A : Type} (P Q : A -> Prop) (r : res A) :
  holds P r -> (forall a, P a -> Q a) -> holds Q r.
Proof. destruct r; simpl; auto. Qed.

Section Total.
Context {Lexer : Type} (next : Lexer -> res (SreToken * Lexer)).
Variable size : Lexer -> nat.
Hypothesis next_progress : forall l t l',
  next l = Ok (t, l') -> type t <> End -> size l' < size l.
Hypothesis next_definite : forall l, next l <> OutOfFuel.

Let W := weight size.
Let below (b : nat) (x : SreASTNode * SreParser Lexer) : Prop := W (snd x) <= b.
Let belowL (b : nat) (x : list SreASTNode * SreParser Lexer) : Prop :=
  W (snd x) <= b.

Lemma consume_weight ty p :
  ty <> End -> holds (fun p' => W p' < W p) (consume next ty p).
Proof.
  intros Hty. unfold consume.
  destruct (SreTokenType_eqb (current p) ty) eqn:E; [|exact I].
  apply SreTokenType_eqb_eq in E. unfold advance.
  destruct (next (lexer_ p)) as [[t l']| | |] eqn:En; simpl; auto.
  - unfold W, weight. simpl. rewrite E.
    apply SreTokenType_eqb_neq in Hty. rewrite Hty.
    change (current {| lexer_ := l'; currentToken_ := t |}) with (type t).
    destruct (SreTokenType_eqb (type t) End) eqn:Et; [lia|].
    apply SreTokenType_eqb_neq in Et.
    pose proof (next_progress _ _ _ En Et). simpl. lia.
  - now apply next_definite in En.
Qed.

Variable pe : SreParser Lexer -> res (SreASTNode * SreParser Lexer).
Variable n : nat.
Hypothesis Hpe : forall q, W q < n -> holds (below (W q)) (pe q).

Lemma parseArgs_loop_total k args p :
  W p <= k -> W p <= n ->
  holds (belowL (W p)) (parseArgs_loop next pe k args p).
Proof.
  revert args p. induction k as [|k IH]; intros args p Hk Hn;
    rewrite parseArgs_loop_eq;
    destruct (SreTokenType_eqb (current p) Comma) eqn:E;
    try (unfold holds, belowL; simpl; lia).
  - exfalso. apply SreTokenType_eqb_eq in E.
    unfold W, weight in Hk. rewrite E in Hk. simpl in Hk. lia.
  - eapply holds_bind; [apply consume_weight; discriminate|].
    intros p1 H1. simpl in H1.
    eapply holds_bind; [apply Hpe; lia|].
    intros [a p2] H2. unfold below in H2. simpl in H2.
    eapply holds_impl; [apply IH; lia|].
    intros [args' p3]. unfold belowL. simpl. lia.
Qed.

Lemma parsePrimary_total p :
  W p <= n -> holds (below (W p)) (parsePrimary next pe n p).
Proof.
  intros Hn. unfold parsePrimary.
  destruct (current p) eqn:Ec; try exact I.
  - (* identifier *)
    eapply holds_bind; [apply consume_weight; discriminate|].
    intros p1 H1. simpl in H1.
    destruct (SreTokenType_eqb (current p1) LParen).
    + eapply holds_bind; [apply consume_weight; discriminate|].
      intros p2 H2. simpl in H2.
      eapply holds_bind with (P := belowL (W p2)).
      * destruct (negb _).
        -- eapply holds_bind; [apply Hpe; lia|].
           intros [a p3] H3. unfold below in H3. simpl in H3.
           eapply holds_impl; [apply parseArgs_loop_total; lia|].
           intros [args' p4]. unfold belowL. simpl. lia.
        -- unfold holds, belowL. simpl. lia.
      * intros [args p3] H3. unfold belowL in H3. simpl in H3.
        eapply holds_bind; [apply consume_weight; discriminate|].
        intros p4 H4. simpl in H4. unfold holds, below. simpl. lia.
    + unfold holds, below. simpl. lia.
  - (* string literal *)
    eapply holds_bind; [apply consume_weight; discriminate|].
    intros p1 H1. simpl in H1. unfold holds, below. simpl. lia.
  - (* parenthesis *)
    eapply holds_bind; [apply consume_weight; discriminate|].
    intros p1 H1. simpl in H1.
    eapply holds_bind; [apply Hpe; lia|].
    intros [a p2] H2. unfold below in H2. simpl in H2.
    eapply holds_bind; [apply consume_weight; discriminate|].
    intros p3 H3. simpl in H3. unfold holds, below. simpl. lia.
Qed.

Lemma parseNot_total p :
  W p <= n -> holds (below (W p)) (parseNot next pe n p).
Proof.
  intros Hn. unfold parseNot.
  destruct (SreTokenType_eqb (current p) Not); [|now apply parsePrimary_total].
  eapply holds_bind; [apply consume_weight; discriminate|].
  intros p1 H1. simpl in H1.
  eapply holds_bind; [apply parsePrimary_total; lia|].
  intros [a p2] H2. unfold below in H2. simpl in H2.
  unfold holds, below. simpl. lia.
Qed.

Lemma parseAnd_loop_total k node p :
  W p <= k -> W p <= n ->
  holds (below (W p)) (parseAnd_loop next pe n k node p).
Proof.
  revert node p. induction k as [|k IH]; intros node p Hk Hn;
    rewrite parseAnd_loop_eq;
    destruct (SreTokenType_eqb (current p) And) eqn:E;
    try (unfold holds, below; simpl; lia).
  - exfalso. apply SreTokenType_eqb_eq in E.
    unfold W, weight in Hk. rewrite E in Hk. simpl in Hk. lia.
  - eapply holds_bind; [apply consume_weight; discriminate|].
    intros p1 H1. simpl in H1.
    eapply holds_bind; [apply parseNot_total; lia|].
    intros [a p2] H2. unfold below in H2. simpl in H2.
    eapply holds_impl; [apply IH; lia|].
    intros [node' p3]. unfold below. simpl. lia.
Qed.

Lemma parseAnd_total p :
  W p <= n -> holds (below (W p)) (parseAnd next pe n p).
Proof.
  intros Hn. unfold parseAnd.
  eapply holds_bind; [apply parseNot_total; lia|].
  intros [a p1] H1. unfold below in H1. simpl in H1.
  eapply holds_impl; [apply parseAnd_loop_total; lia|].
  intros [node' p2]. unfold below. simpl. lia.
Qed.

Lemma parseOr_loop_total k node p :
  W p <= k -> W p <= n ->
  holds (below (W p)) (parseOr_loop next pe n k node p).
Proof.
  revert node p. induction k as [|k IH]; intros node p Hk Hn;
    rewrite parseOr_loop_eq;
    destruct (SreTokenType_eqb (current p) Or) eqn:E;
    try (unfold holds, below; simpl; lia).
  - exfalso. apply SreTokenType_eqb_eq in E.
    unfold W, weight in Hk. rewrite E in Hk. simpl in Hk. lia.
  - eapply holds_bind; [apply consume_weight; discriminate|].
    intros p1 H1. simpl in H1.
    eapply holds_bind; [apply parseAnd_total; lia|].
    intros [a p2] H2. unfold below in H2. simpl in H2.
    eapply holds_impl; [apply IH; lia|].
    intros [node' p3]. unfold below. simpl. lia.
Qed.

Lemma parseOr_total p :
  W p <= n -> holds (below (W p)) (parseOr next pe n p).
Proof.
  intros Hn. unfold parseOr.
  eapply holds_bind; [apply parseAnd_total; lia|].
  intros [a p1] H1. unfold below in H1. simpl in H1.
  eapply holds_impl; [apply parseOr_loop_total; lia|].
  intros [node' p2]. unfold below. simpl. lia.
Qed.
End Total.

Lemma parseExpression_total {Lexer : Type}
    (next : Lexer -> res (SreToken * Lexer)) (size : Lexer -> nat) :
  (forall l t l', next l = Ok (t, l') -> type t <> End -> size l' < size l) ->
  (forall l, next l <> OutOfFuel) ->
  forall fuel p, weight size p < fuel ->
  holds (fun x => weight size (snd x) <= weight size p)
        (parseExpression next fuel p).
Proof.
  intros Hprog Hdef. induction fuel as [|fuel IH]; intros p Hw; [lia|].
  simpl. apply parseOr_total; auto. lia.
Qed.

(** ** Transporting the parser along a map of parser states

    [H] maps the states of a parser over one token source to those of a
    parser over another, keeping token types and renaming with [g] the
    function names and the tokens that only error messages show.  The two
    parsers then run in lockstep. *)

Lemma transport_bind {A A' B B' : Type} (f : A -> A') (F : B -> B')
    (g : string -> string) (r1 : res A) (r2 : res A')
    (k1 : A -> res B) (k2 : A' -> res B') :
  r2 = mapRes f g r1 ->
  (forall a, r1 = Ok a -> k2 (f a) = mapRes F g (k1 a)) ->
  bind r2 k2 = mapRes F g (bind r1 k1).
Proof. intros -> Hk. destruct r1; simpl; auto. Qed.

Section Transport.
Context {L1 L2 : Type}.
Variable next1 : L1 -> res (SreToken * L1).
Variable next2 : L2 -> res (SreToken * L2).
Variable H : SreParser L1 -> SreParser L2.
Variable g : string -> string.

Hypothesis H_current : forall p, current (H p) = current p.
Hypothesis H_advance : forall p,
  advance next2 (lexer_ (H p)) = mapRes H g (advance next1 (lexer_ p)).
Hypothesis H_string : forall p,
  current p = StringLiteral ->
  text (currentToken_ (H p)) = text (currentToken_ p).
Hypothesis H_ident : forall p p1,
  current p = Identifier -> advance next1 (lexer_ p) = Ok p1 ->
  text (currentToken_ (H p)) =
  if SreTokenType_eqb (current p1) LParen then g (text (currentToken_ p))
  else text (currentToken_ p).
Hypothesis H_other : forall p,
  current p <> LParen -> current p <> Identifier ->
  current p <> StringLiteral ->
  text (currentToken_ (H p)) = g (text (currentToken_ p)).

Let HN (x : SreASTNode * SreParser L1) : SreASTNode * SreParser L2 :=
  (mapNode g (fst x), H (snd x)).
Let HL (x : list SreASTNode * SreParser L1) : list SreASTNode * SreParser L2 :=
  (List.map (mapNode g) (fst x), H (snd x)).

Lemma consume_transport ty p :
  consume next2 ty (H p) = mapRes H g (consume next1 ty p).
Proof.
  unfold consume. rewrite H_current.
  destruct (SreTokenType_eqb (current p) ty); [apply H_advance | reflexivity].
Qed.

Lemma consume_advance ty p p1 :
  consume next1 ty p = Ok p1 -> advance next1 (lexer_ p) = Ok p1.
Proof.
  unfold consume. destruct (SreTokenType_eqb _ _); [auto | discriminate].
Qed.

Variable pe1 : SreParser L1 -> res (SreASTNode * SreParser L1).
Variable pe2 : SreParser L2 -> res (SreASTNode * SreParser L2).
Hypothesis Hpe : forall p, pe2 (H p) = mapRes HN g (pe1 p).

Lemma parseArgs_loop_transport n args p :
  parseArgs_loop next2 pe2 n (List.map (mapNode g) args) (H p) =
  mapRes HL g (parseArgs_loop next1 pe1 n args p).
Proof.
  revert args p. induction n as [|n IH]; intros args p;
    rewrite !parseArgs_loop_eq, H_current;
    destruct (SreTokenType_eqb (current p) Comma); try reflexivity.
  eapply transport_bind; [apply consume_transport|]. intros p1 _.
  eapply transport_bind; [apply Hpe|]. intros [a p2] _. simpl.
  rewrite <- IH. now rewrite List.map_app.
Qed.

Lemma parsePrimary_transport n p :
  parsePrimary next2 pe2 n (H p) = mapRes HN g (parsePrimary next1 pe1 n p).
Proof.
  unfold parsePrimary. rewrite H_current.
  destruct (current p) eqn:Ec.
  - (* identifier *)
    eapply transport_bind; [apply consume_transport|]. intros p1 Hc.
    apply consume_advance in Hc.
    rewrite (H_ident p p1 Ec Hc), H_current.
    destruct (SreTokenType_eqb (current p1) LParen); [|reflexivity].
    eapply transport_bind; [apply consume_transport|]. intros p2 _.
    eapply transport_bind with (f := HL).
    + rewrite H_current. destruct (negb _); [|reflexivity].
      eapply transport_bind; [apply Hpe|]. intros [a p3] _.
      apply (parseArgs_loop_transport n [a] p3).
    + intros [args p3] _. simpl.
      eapply transport_bind; [apply consume_transport|]. now intros p4 _.
  - (* string literal *)
    rewrite (H_string p Ec).
    eapply transport_bind; [apply consume_transport|]. now intros p1 _.
  - simpl. now rewrite H_other; congruence.
  - (* parenthesis *)
    eapply transport_bind; [apply consume_transport|]. intros p1 _.
    eapply transport_bind; [apply Hpe|]. intros [a p2] _. simpl.
    eapply transport_bind; [apply consume_transport|]. now intros p3 _.
  - simpl. now rewrite H_other; congruence.
  - simpl. now rewrite H_other; congruence.
  - simpl. now rewrite H_other; congruence.
  - simpl. now rewrite H_other; congruence.
  - simpl. now rewrite H_other; congruence.
Qed.

Lemma parseNot_transport n p :
  parseNot next2 pe2 n (H p) = mapRes HN g (parseNot next1 pe1 n p).
Proof.
  unfold parseNot. rewrite H_current.
  destruct (SreTokenType_eqb (current p) Not);
    [|apply parsePrimary_transport].
  eapply transport_bind; [apply consume_transport|]. intros p1 _.
  eapply transport_bind; [apply parsePrimary_transport|]. now intros [a p2] _.
Qed.

Lemma parseAnd_loop_transport n k node p :
  parseAnd_loop next2 pe2 n k (mapNode g node) (H p) =
  mapRes HN g (parseAnd_loop next1 pe1 n k node p).
Proof.
  revert node p. induction k as [|k IH]; intros node p;
    rewrite !parseAnd_loop_eq, H_current;
    destruct (SreTokenType_eqb (current p) And); try reflexivity.
  eapply transport_bind; [apply consume_transport|]. intros p1 _.
  eapply transport_bind; [apply parseNot_transport|]. intros [a p2] _.
  simpl. now rewrite <- IH.
Qed.

Lemma parseAnd_transport n p :
  parseAnd next2 pe2 n (H p) = mapRes HN g (parseAnd next1 pe1 n p).
Proof.
  unfold parseAnd.
  eapply transport_bind; [apply parseNot_transport|]. intros [a p1] _.
  apply parseAnd_loop_transport.
Qed.

Lemma parseOr_loop_transport n k node p :
  parseOr_loop next2 pe2 n k (mapNode g node) (H p) =
  mapRes HN g (parseOr_loop next1 pe1 n k node p).
Proof.
  revert node p. induction k as [|k IH]; intros node p;
    rewrite !parseOr_loop_eq, H_current;
    destruct (SreTokenType_eqb (current p) Or); try reflexivity.
  eapply transport_bind; [apply consume_transport|]. intros p1 _.
  eapply transport_bind; [apply parseAnd_transport|]. intros [a p2] _.
  simpl. now rewrite <- IH.
Qed.

Lemma parseOr_transport n p :
  parseOr next2 pe2 n (H p) = mapRes HN g (parseOr next1 pe1 n p).
Proof.
  unfold parseOr.
  eapply transport_bind; [apply parseAnd_transport|]. intros [a p1] _.
  apply parseOr_loop_transport.
Qed.
End Transport.

Lemma parseExpression_transport {L1 L2 : Type}
    (next1 : L1 -> res (SreToken * L1)) (next2 : L2 -> res (SreToken * L2))
    (H : SreParser L1 -> SreParser L2) (g : string -> string) :
  (forall p, current (H p) = current p) ->
  (forall p, advance next2 (lexer_ (H p)) = mapRes H g (advance next1 (lexer_ p))) ->
  (forall p, current p = StringLiteral ->
             text (currentToken_ (H p)) = text (currentToken_ p)) ->
  (forall p p1, current p = Identifier -> advance next1 (lexer_ p) = Ok p1 ->
     text (currentToken_ (H p)) =
     if SreTokenType_eqb (current p1) LParen then g (text (currentToken_ p))
     else text (currentToken_ p)) ->
  (forall p, current p <> LParen -> current p <> Identifier ->
             current p <> StringLiteral ->
             text (currentToken_ (H p)) = g (text (currentToken_ p))) ->
  forall fuel p,
    parseExpression next2 fuel (H p) =
    mapRes (fun x => (mapNode g (fst x), H (snd x))) g
           (parseExpression next1 fuel p).
Proof.
  intros H1 H2 H3 H4 H5. induction fuel as [|fuel IH]; intros p;
    [reflexivity|].
  simpl. now apply parseOr_transport.
Qed.

(** ** Induction on trees *)

Section NodeInduction.
Variable P : SreASTNode -> Prop.
Hypothesis P_logical : forall op_ left_ right_,
  P left_ -> (forall r, right_ = Some r -> P r) ->
  P (SreLogicalNode op_ left_ right_).
Hypothesis P_value : forall val_ isVariable_, P (SreValueNode val_ isVariable_).
Hypothesis P_function : forall name_ args_,
  Forall P args_ -> P (SreFunctionNode name_ args_).

Lemma SreASTNode_induction : forall n, P n.
Proof.
  fix IH 1. intros [op_ left_ right_ | val_ isVariable_ | name_ args_].
  - apply P_logical; [apply IH|].
    destruct right_ as [r|]; intros r' [= <-]. apply IH.
  - apply P_value.
  - apply P_function. induction args_ as [|a args_ IHargs]; constructor;
      [apply IH | exact IHargs].
Qed.
End NodeInduction.

Lemma mapNode_id n : mapNode id n = n.
Proof.
  induction n as [op_ left_ right_ IHl IHr | | name_ args_ IHargs]
    using SreASTNode_induction; simpl.
  - rewrite IHl. destruct right_ as [r|]; simpl; [|reflexivity].
    now rewrite (IHr r eq_refl).
  - reflexivity.
  - f_equal. induction IHargs as [|a args_ Ha _ IH]; simpl; congruence.
Qed.

Lemma mapExn_id e : mapExn id e = e.
Proof. now destruct e. Qed.

(** ** The trace of the lexer *)

Lemma trace_from_any n m l :
  lexer_size l < n -> lexer_size l < m -> trace_from n l = trace_from m l.
Proof.
  revert m l. induction n as [|n IH]; intros m l Hn Hm; [lia|].
  destruct m as [|m]; [lia|]. simpl.
  destruct (nextToken l) as [[t l']| | |] eqn:E; try reflexivity.
  destruct (SreTokenType_eqb (type t) End) eqn:Et; [reflexivity|].
  apply SreTokenType_eqb_neq in Et.
  pose proof (nextToken_progress _ _ _ E Et).
  f_equal. apply IH; lia.
Qed.

Lemma trace_of_unfold l :
  trace_of l =
  match nextToken l with
  | Ok (t, l') =>
      if SreTokenType_eqb (type t) End then TEnd else TCons t (trace_of l')
  | Throw e => TThrow e
  | _ => TEnd
  end.
Proof.
  unfold trace_of at 1. simpl.
  destruct (nextToken l) as [[t l']| | |] eqn:E; try reflexivity.
  destruct (SreTokenType_eqb (type t) End) eqn:Et; [reflexivity|].
  apply SreTokenType_eqb_neq in Et.
  pose proof (nextToken_progress _ _ _ E Et).
  f_equal. apply trace_from_any; lia.
Qed.

Lemma trace_of_at_end l : lexer_size l = 0 -> trace_of l = TEnd.
Proof.
  intros H. rewrite trace_of_unfold, (nextToken_at_end l H). reflexivity.
Qed.

Lemma advance_traced l :
  advance nextTrace (trace_of l) = mapRes traced id (advance nextToken l).
Proof.
  unfold advance. rewrite trace_of_unfold.
  destruct (nextToken l) as [[t l']|e| |] eqn:E; simpl.
  - destruct (SreTokenType_eqb (type t) End) eqn:Et; simpl; [|reflexivity].
    apply SreTokenType_eqb_eq in Et.
    destruct (nextToken_End _ _ _ E Et) as [-> Hsize].
    unfold traced. simpl. now rewrite (trace_of_at_end _ Hsize).
  - now rewrite mapExn_id.
  - now destruct (nextToken_definite l).
  - now destruct (nextToken_definite l).
Qed.

(** The parser over the lexer and the parser over its trace agree. *)
Lemma parseExpression_traced fuel p :
  parseExpression nextTrace fuel (traced p) =
  mapRes (fun x => (fst x, traced (snd x))) id
         (parseExpression nextToken fuel p).
Proof.
  rewrite (parseExpression_transport nextToken nextTrace traced id); auto.
  - destruct (parseExpression nextToken fuel p) as [[n p']| | |]; simpl;
      try reflexivity. now rewrite mapNode_id.
  - intros q. apply advance_traced.
  - intros q p1 _ _. simpl. now destruct (SreTokenType_eqb _ _).
Qed.

Lemma parseExpression_nextToken_total expression p fuel :
  SreParser_new nextToken (SreLexer_new expression) = Ok p ->
  fuel_of expression <= fuel ->
  parseExpression nextToken fuel p <> OutOfFuel.
Proof.
  intros Hp Hfuel Hout.
  assert (Hw : weight lexer_size p < fuel).
  { unfold SreParser_new, advance in Hp.
    destruct (nextToken (SreLexer_new expression)) as [[t l']| | |] eqn:E;
      try discriminate.
    injection Hp as <-. unfold weight, current. simpl.
    destruct (SreTokenType_eqb (type t) End) eqn:Et; [unfold fuel_of in *; lia|].
    apply SreTokenType_eqb_neq in Et.
    pose proof (nextToken_progress _ _ _ E Et) as Hlt.
    unfold lexer_size in Hlt at 2. simpl in Hlt. unfold fuel_of in *. lia. }
  pose proof (parseExpression_total nextToken lexer_size nextToken_progress
                (fun l => proj1 (nextToken_definite l)) fuel p Hw) as Ht.
  rewrite Hout in Ht. exact Ht.
Qed.

(** [evaluate] is [parse] on the tokens of the expression followed by
    [evalBool], and [parse] needs no more fuel than [evaluate] gives it. *)
Lemma evaluate_parse e expression ctx fuel :
  fuel_of expression <= fuel ->
  evaluate e expression ctx =
  let* root := parse fuel (tokens expression) in
  evalBool ctx (functions_ e) root.
Proof.
  intros Hfuel. unfold evaluate, parse, SreParser_new, tokens.
  rewrite advance_traced.
  remember (fuel_of expression) as f0 eqn:Ef0.
  destruct (advance nextToken (SreLexer_new expression)) as [p|e'| |] eqn:Ep;
    simpl; try reflexivity; [|now rewrite mapExn_id].
  rewrite parseExpression_traced.
  assert (Hdef : parseExpression nextToken f0 p <> OutOfFuel).
  { apply parseExpression_nextToken_total with expression; [exact Ep | lia]. }
  rewrite (parseExpression_more nextToken f0 fuel p Hfuel Hdef).
  destruct (parseExpression nextToken f0 p) as [[n p']|e'| |];
    simpl; try reflexivity. now destruct e'.
Qed.

Lemma parse_definite expression fuel :
  fuel_of expression <= fuel -> parse fuel (tokens expression) <> OutOfFuel.
Proof.
  intros Hfuel. unfold parse, SreParser_new, tokens.
  rewrite advance_traced.
  destruct (advance nextToken (SreLexer_new expression)) as [p|e'| |] eqn:Ep;
    simpl; try discriminate.
  - rewrite parseExpression_traced.
    pose proof (parseExpression_nextToken_total expression p fuel Ep Hfuel).
    destruct (parseExpression nextToken fuel p) as [[n p']|e'| |]; simpl;
      congruence.
  - unfold advance in Ep. destruct (nextToken_definite (SreLexer_new expression)).
    destruct (nextToken (SreLexer_new expression)) as [[t l']| | |]; simpl in Ep;
      congruence.
Qed.

(** ** Evaluation of particular expressions *)

Lemma evaluate_parseRoot e expression ctx :
  evaluate e expression ctx =
  let* root := parseRoot expression in evalBool ctx (functions_ e) root.
Proof.
  unfold evaluate, parseRoot. simpl.
  destruct (SreParser_new nextToken _) as [p| | |]; simpl; try reflexivity.
  destruct (parseOr nextToken _ _ p) as [[n p']| | |]; reflexivity.
Qed.

(** Rewrites [evaluate e s ctx], for a literal [s], to [evalBool] of the
    tree that [s] parses to. *)
Ltac evaluate_literal :=
  rewrite evaluate_parseRoot;
  match goal with
  | |- context [parseRoot ?s] =>
      let r := eval vm_compute in (parseRoot s) in
      replace (parseRoot s) with r by (vm_compute; reflexivity)
  end;
  cbn [bind].

Lemma notQuote_all s :
  contains_char "'" s = false ->
  forallb notQuote (list_ascii_of_string s) = true.
Proof.
  unfold contains_char. induction s as [|c s IH]; [reflexivity|].
  cbn [list_ascii_of_string existsb forallb].
  intros H. apply orb_false_iff in H as [Hc Hs].
  rewrite (IH Hs), andb_true_r. unfold notQuote.
  rewrite Ascii.eqb_sym, Hc. reflexivity.
Qed.

(** A literal whose closing quote is missing is lexed as if it were closed
    at the end of the input; [pos_] ends one past the end. *)
Lemma nextToken_unterminated s :
  contains_char "'" s = false ->
  nextToken (SreLexer_new (String "'" s)) =
  Ok ({| type := StringLiteral; text := s |},
      {| input_ := String "'" s; pos_ := S (S (String.length s)) |}).
Proof.
  intros Hq. unfold nextToken, skipWhitespace, SreLexer_new. simpl.
  rewrite Nat.sub_0_r.
  pose proof (pushWhile_to_end notQuote "'" s "" (notQuote_all s Hq)) as Hp.
  simpl in Hp. rewrite Hp. reflexivity.
Qed.

(** The four expressions of the demonstration driver, under the context of
    the scenarios. *)
Example scenario_1 :
  evaluate SreRuleEngine_new
    "(contains(#{a}, 'ell') or contains(#{a}, 'zzz')) and containsAny(#{b}, 'xxx', '22')"
    ctx_ab = Ok true.
Proof. vm_compute. reflexivity. Qed.

Example scenario_2 :
  evaluate SreRuleEngine_new
    "(contains(#{a}, 'xxx')) and containsAny(#{b}, 'xxx', '22')" ctx_ab =
  Ok false.
Proof. vm_compute. reflexivity. Qed.

Example scenario_3 :
  evaluate SreRuleEngine_new
    "(not contains(#{a}, 'xxx')) and containsAny(#{b}, 'xxxx', '22')" ctx_ab =
  Ok true.
Proof. vm_compute. reflexivity. Qed.

Example scenario_4 :
  evaluate SreRuleEngine_new
    "(contains(#{a}, 'contains')) and containsAny(#{b}, 'xxxx', '22')" ctx_ab =
  Ok false.
Proof. vm_compute. reflexivity. Qed.

(** ** Properties of the engine *)

(** C1 (as the code behaves): a string literal whose opening quote is never
    closed raises nothing.  For every text [s] without a quote, the
    expression made of a quote followed by [s] evaluates like the closed
    literal: true exactly when [s] is not empty. *)
Theorem unterminated_literal_accepted (e : SreRuleEngine) (ctx : SreContext)
    (s : string) :
  contains_char "'" s = false ->
  evaluate e (String "'" s) ctx = Ok (negb (empty s)).
Proof.
  intros Hq. unfold evaluate, SreParser_new, advance.
  rewrite (nextToken_unterminated s Hq). cbn [bind].
  unfold fuel_of. cbn [String.length parseExpression].
  unfold parseOr, parseAnd, parseNot, parsePrimary, consume, advance.
  cbn [current currentToken_ lexer_ type text SreTokenType_eqb].
  rewrite nextToken_at_end by (unfold lexer_size; simpl; lia).
  cbn [bind]. rewrite parseAnd_loop_eq. cbn [current currentToken_ type SreTokenType_eqb bind].
  rewrite parseOr_loop_eq. cbn [current currentToken_ type SreTokenType_eqb bind].
  simpl. reflexivity.
Qed.

Lemma evalArgs_Forall2 ctx args acc vs :
  evalArgs ctx args acc = Ok vs ->
  exists vs', vs = acc ++ vs' /\
              Forall2 (fun a v => evalString ctx a = Ok v) args vs'.
Proof.
  revert acc vs. induction args as [|a args IH]; intros acc vs; simpl.
  - intros [= <-]. exists []. split; [now rewrite app_nil_r | constructor].
  - destruct (evalString ctx a) as [v| | |] eqn:Ea; simpl; try discriminate.
    intros H. destruct (IH _ _ H) as (vs' & -> & Hall).
    exists (v :: vs'). split; [now rewrite <- app_assoc | now constructor].
Qed.

Lemma evalBool_call ctx fns name args vs :
  evalArgs ctx args [] = Ok vs ->
  evalBool ctx fns (SreFunctionNode name args) =
  match fns !! lowercase name with
  | Some f => f vs
  | None => Throw (FunctionNotFound name)
  end.
Proof. intros H. simpl. now rewrite H. Qed.

Lemma evalBool_call_stops ctx fns name pre a post vs r :
  evalArgs ctx pre [] = Ok vs ->
  evalString ctx a = r -> (forall s, r <> Ok s) ->
  evalBool ctx fns (SreFunctionNode name (pre ++ a :: post)) =
  bind r (fun _ => Ok true).
Proof.
  intros Hpre Ha Hr. simpl.
  rewrite (evalArgs_stops ctx pre a post [] vs r Hpre Ha Hr).
  destruct r; try reflexivity. now destruct (Hr a0).
Qed.

(** C3: a variable reference (an identifier whose lexeme contains [#], not
    followed by an opening parenthesis) becomes a value node flagged as
    variable and named by the lexeme without [#], [{], [}]; when the context
    has no such key, evaluating the node, as a string, as a boolean or as a
    call argument reached by the evaluation, raises "Variable not found"
    with that name.  In particular [contains(#{missing}, 'x')] raises it
    out of [evaluate] under any context without the key [missing]. *)
Theorem unknown_variable_raises :
  (forall (ctx : SreContext) (fns : SreFunctions) (lexeme : string),
      contains_char "#" lexeme = true ->
      ctx !! variableName lexeme = None ->
      let node := SreValueNode (variableName lexeme) true in
      let failure := VariableNotFound (variableName lexeme) in
      (forall (Lexer : Type) (next : Lexer -> res (SreToken * Lexer))
              pe n (p p1 : SreParser Lexer),
          current p = Identifier -> text (currentToken_ p) = lexeme ->
          advance next (lexer_ p) = Ok p1 -> current p1 <> LParen ->
          parsePrimary next pe n p = Ok (node, p1)) /\
      evalString ctx node = Throw failure /\
      evalBool ctx fns node = Throw failure /\
      (forall name pre post vs,
          evalArgs ctx pre [] = Ok vs ->
          evalBool ctx fns (SreFunctionNode name (pre ++ node :: post)) =
          Throw failure) /\
      what failure = "Variable not found: " +:+ variableName lexeme) /\
  (forall (e : SreRuleEngine) (ctx : SreContext),
      ctx !! "missing" = None ->
      evaluate e "contains(#{missing}, 'x')" ctx =
      Throw (VariableNotFound "missing")).
Proof.
  split.
  - intros ctx fns lexeme Hvar Hctx node failure.
    assert (Hs : evalString ctx node = Throw failure).
    { unfold node, failure. simpl. now rewrite Hctx. }
    repeat split.
    + intros Lexer next pe n p p1 Hcur Htext Hadv Hnp.
      unfold parsePrimary, consume. rewrite Hcur. cbn [SreTokenType_eqb].
      rewrite Hadv. cbn [bind].
      apply SreTokenType_eqb_neq in Hnp. rewrite Hnp, Htext, Hvar.
      reflexivity.
    + exact Hs.
    + unfold node in *. cbn [evalBool]. now rewrite Hs.
    + intros name pre post vs Hpre.
      rewrite (evalBool_call_stops ctx fns name pre node post vs _ Hpre Hs);
        [reflexivity | discriminate].
  - intros e ctx Hctx. evaluate_literal.
    cbn [evalBool evalArgs evalString bind]. now rewrite Hctx.
Qed.

Lemma unknown_variable_raises_witness :
  evalBool ctx_ab ∅ (SreValueNode "missing" true) =
    Throw (VariableNotFound "missing") /\
  evaluate SreRuleEngine_new "contains(#{missing}, 'x')" ctx_ab =
    Throw (VariableNotFound "missing").
Proof.
  split.
  - apply (proj1 unknown_variable_raises ctx_ab ∅ "#{missing}");
      vm_compute; reflexivity.
  - apply (proj2 unknown_variable_raises). vm_compute; reflexivity.
Defined.

(** C4: a call whose arguments all evaluate to strings and whose lowercased
    name is not a key of the registry raises "Function not found" with the
    name as written.  In particular [frobnicate(#{a})], with [a] bound and
    only the built-ins registered, raises it out of [evaluate]. *)
Theorem unknown_function_raises :
  (forall (ctx : SreContext) (fns : SreFunctions) name args vs,
      evalArgs ctx args [] = Ok vs ->
      fns !! lowercase name = None ->
      evalBool ctx fns (SreFunctionNode name args) =
      Throw (FunctionNotFound name) /\
      what (FunctionNotFound name) = "Function not found: " +:+ name) /\
  (forall (ctx : SreContext) (v : string),
      ctx !! "a" = Some v ->
      evaluate SreRuleEngine_new "frobnicate(#{a})" ctx =
      Throw (FunctionNotFound "frobnicate")).
Proof.
  split.
  - intros ctx fns name args vs Hargs Hfn. split; [|reflexivity].
    rewrite (evalBool_call _ _ _ _ _ Hargs). now rewrite Hfn.
  - intros ctx v Hctx. evaluate_literal.
    cbn [evalBool evalArgs evalString bind]. rewrite Hctx. reflexivity.
Qed.

Lemma unknown_function_raises_witness :
  evalBool ctx_ab (functions_ SreRuleEngine_new)
    (SreFunctionNode "Frobnicate" [SreValueNode "a" true]) =
    Throw (FunctionNotFound "Frobnicate") /\
  evaluate SreRuleEngine_new "frobnicate(#{a})" ctx_ab =
    Throw (FunctionNotFound "frobnicate").
Proof.
  split.
  - apply (proj1 unknown_function_raises ctx_ab _ "Frobnicate"
             [SreValueNode "a" true] ["hello"]); vm_compute; reflexivity.
  - apply (proj2 unknown_function_raises ctx_ab "hello").
    vm_compute; reflexivity.
Defined.

(** C6: the built-in [contains], found in the registry of a new engine under
    its lowercased name, satisfies on two arguments: [contains(x, '')] is
    true, [contains(x, x)] is true, and [contains('', y)] is true exactly
    when [y] is empty. *)
Theorem contains_substring_laws (x y : string) :
  functions_ SreRuleEngine_new !! lowercase "contains" = Some builtin_contains /\
  builtin_contains [x; ""] = Ok true /\
  builtin_contains [x; x] = Ok true /\
  builtin_contains [""; y] = Ok (empty y).
Proof.
  split; [reflexivity|]. unfold builtin_contains.
  rewrite find_empty, find_self, find_in_empty. auto.
Qed.

(** C7: called with argument values [vs] (all arguments having evaluated to
    strings), [contains] throws its own arity error unless there are
    exactly two values and then returns a boolean; [containsAny] throws its
    own unless there are at least two and then returns a boolean; a call
    node returns or raises exactly what the predicate does. *)
Theorem builtin_arity_contract (ctx : SreContext) (args : list SreASTNode)
    (vs : list string) :
  evalArgs ctx args [] = Ok vs ->
  builtin_contains vs =
    (if length vs =? 2 then Ok (isSome (find (nth 0 vs "") (nth 1 vs "")))
     else Throw (PredicateError "contains requires 2 arguments")) /\
  builtin_containsAny vs =
    (if 2 <=? length vs then Ok (containsAny_loop (hd "" vs) (tl vs))
     else Throw (PredicateError "containsAny requires at least 2 arguments")) /\
  evalBool ctx (functions_ SreRuleEngine_new) (SreFunctionNode "contains" args) =
    builtin_contains vs /\
  evalBool ctx (functions_ SreRuleEngine_new) (SreFunctionNode "containsAny" args) =
    builtin_containsAny vs /\
  length vs = length args /\
  evaluate SreRuleEngine_new "not contains('a', 'b', 'c')" ctx =
    Throw (PredicateError "contains requires 2 arguments") /\
  evaluate SreRuleEngine_new "'x' and containsAny('a')" ctx =
    Throw (PredicateError "containsAny requires at least 2 arguments").
Proof.
  intros Hargs.
  split; [destruct vs as [|a [|b [|c vs]]]; reflexivity|].
  split; [destruct vs as [|a [|b vs]]; reflexivity|].
  split; [now rewrite (evalBool_call _ _ _ _ _ Hargs)|].
  split; [now rewrite (evalBool_call _ _ _ _ _ Hargs)|].
  split; [apply evalArgs_length in Hargs; simpl in Hargs; exact Hargs|].
  split; evaluate_literal; reflexivity.
Qed.

Lemma builtin_arity_contract_witness :
  evalBool ctx_ab (functions_ SreRuleEngine_new)
    (SreFunctionNode "contains" [SreValueNode "a" true]) =
    Throw (PredicateError "contains requires 2 arguments") /\
  evalBool ctx_ab (functions_ SreRuleEngine_new)
    (SreFunctionNode "containsAny" [SreValueNode "a" true]) =
    Throw (PredicateError "containsAny requires at least 2 arguments").
Proof.
  pose proof (builtin_arity_contract ctx_ab [SreValueNode "a" true] ["hello"]
                eq_refl) as (Hc & Ha & Ec & Ea & _ & _ & _).
  split; [rewrite Ec, Hc | rewrite Ea, Ha]; reflexivity.
Defined.

(** C8: [evalString] of a logical node or of a call node raises "Not a
    string expression node"; hence a call one of whose arguments is such a
    node raises it as soon as the arguments before it have evaluated to
    strings.  The parser accepts such arguments: [contains(not 'x', 'y')]
    and [contains(contains('a','b'), 'c')] parse to calls with a logical,
    respectively a call, first argument, and [evaluate] raises the error. *)
Theorem string_of_non_value_node :
  (forall (ctx : SreContext) (fns : SreFunctions) name pre a post vs,
      evalArgs ctx pre [] = Ok vs ->
      isValueNode a = false ->
      evalString ctx a = Throw NotStringNode /\
      evalBool ctx fns (SreFunctionNode name (pre ++ a :: post)) =
      Throw NotStringNode) /\
  (forall (e : SreRuleEngine) (ctx : SreContext),
      parseRoot "contains(not 'x', 'y')" =
        Ok (SreFunctionNode "contains"
              [SreLogicalNode OpNot (SreValueNode "x" false) None;
               SreValueNode "y" false]) /\
      evaluate e "contains(not 'x', 'y')" ctx = Throw NotStringNode /\
      parseRoot "contains(contains('a','b'), 'c')" =
        Ok (SreFunctionNode "contains"
              [SreFunctionNode "contains"
                 [SreValueNode "a" false; SreValueNode "b" false];
               SreValueNode "c" false]) /\
      evaluate e "contains(contains('a','b'), 'c')" ctx = Throw NotStringNode).
Proof.
  split.
  - intros ctx fns name pre a post vs Hpre Ha.
    assert (Hs : evalString ctx a = Throw NotStringNode)
      by (destruct a; [reflexivity | discriminate | reflexivity]).
    split; [exact Hs|].
    rewrite (evalBool_call_stops ctx fns name pre a post vs _ Hpre Hs);
      [reflexivity | discriminate].
  - intros e ctx. repeat split; try (vm_compute; reflexivity);
      evaluate_literal; reflexivity.
Qed.

Lemma string_of_non_value_node_witness :
  evalBool ctx_ab (functions_ SreRuleEngine_new)
    (SreFunctionNode "contains"
       [SreValueNode "a" true;
        SreLogicalNode OpNot (SreValueNode "x" false) None]) =
  Throw NotStringNode.
Proof.
  apply (proj1 string_of_non_value_node ctx_ab (functions_ SreRuleEngine_new)
           "contains" [SreValueNode "a" true]
           (SreLogicalNode OpNot (SreValueNode "x" false) None) [] ["hello"]);
    reflexivity.
Defined.

(** C10: a call node evaluates its arguments to strings from left to right
    and only then lowercases its name and looks it up: when every argument
    yields a string the result is that of the lookup, and when an argument
    raises after those before it yielded strings, the call raises that
    error whatever the registry holds.  In particular
    [frobnicate(#{missing})] raises "Variable not found", not "Function not
    found", when [missing] is absent from the context. *)
Theorem argument_error_preempts_lookup :
  (forall (ctx : SreContext) (fns : SreFunctions) name args vs,
      evalArgs ctx args [] = Ok vs ->
      Forall2 (fun a v => evalString ctx a = Ok v) args vs /\
      evalBool ctx fns (SreFunctionNode name args) =
      match fns !! lowercase name with
      | Some f => f vs
      | None => Throw (FunctionNotFound name)
      end) /\
  (forall (ctx : SreContext) (fns : SreFunctions) name pre a post vs err,
      evalArgs ctx pre [] = Ok vs ->
      evalString ctx a = Throw err ->
      evalBool ctx fns (SreFunctionNode name (pre ++ a :: post)) = Throw err) /\
  (forall (e : SreRuleEngine) (ctx : SreContext),
      ctx !! "missing" = None ->
      evaluate e "frobnicate(#{missing})" ctx =
      Throw (VariableNotFound "missing")).
Proof.
  repeat split.
  - destruct (evalArgs_Forall2 _ _ _ _ H) as (vs' & -> & Hall). exact Hall.
  - now apply evalBool_call.
  - intros ctx fns name pre a post vs err Hpre Ha.
    rewrite (evalBool_call_stops ctx fns name pre a post vs _ Hpre Ha);
      [reflexivity | discriminate].
  - intros e ctx Hctx. evaluate_literal.
    cbn [evalBool evalArgs evalString bind]. now rewrite Hctx.
Qed.

Lemma argument_error_preempts_lookup_witness :
  evalBool ctx_ab (functions_ SreRuleEngine_new)
    (SreFunctionNode "frobnicate"
       [SreValueNode "a" true; SreValueNode "missing" true;
        SreValueNode "b" true]) =
    Throw (VariableNotFound "missing") /\
  evaluate SreRuleEngine_new "frobnicate(#{missing})" ctx_ab =
    Throw (VariableNotFound "missing").
Proof.
  split.
  - apply (proj1 (proj2 argument_error_preempts_lookup) ctx_ab _ "frobnicate"
             [SreValueNode "a" true] (SreValueNode "missing" true)
             [SreValueNode "b" true] ["hello"]); vm_compute; reflexivity.
  - apply (proj2 (proj2 argument_error_preempts_lookup)).
    vm_compute; reflexivity.
Defined.

Lemma unterminated_literal_accepted_witness :
  evaluate SreRuleEngine_new "'abc" ctx_ab = Ok true.
Proof.
  apply (unterminated_literal_accepted SreRuleEngine_new ctx_ab "abc").
  reflexivity.
Defined.

(** ** Grafting: what follows a complete expression

    If the parser succeeds on a trace, it succeeds with the same tree on the
    trace continued by [t] and [rest], as long as [t] cannot extend what was
    parsed last. *)

Ltac graft_done :=
  split; [reflexivity | split; [assumption | congruence]].

Section Graft.
Variable t : SreToken.
Variable rest : trace.

Let G := graftS t rest.
Let ok := graftable t.

Lemma current_graftS p :
  current p <> End -> current (G p) = current p.
Proof.
  intros H. apply SreTokenType_eqb_neq in H. unfold G, graftS. now rewrite H.
Qed.

Lemma text_graftS p :
  current p <> End -> text (currentToken_ (G p)) = text (currentToken_ p).
Proof.
  intros H. apply SreTokenType_eqb_neq in H. unfold G, graftS. now rewrite H.
Qed.

Lemma current_graftS_End p :
  current p = End -> current (G p) = type t.
Proof.
  intros H. apply SreTokenType_eqb_eq in H. unfold G, graftS. now rewrite H.
Qed.

Lemma consume_graft ty p p1 :
  ty <> End -> ok p -> consume nextTrace ty p = Ok p1 ->
  consume nextTrace ty (G p) = Ok (G p1) /\ ok p1 /\ current p = ty /\
  (current p1 = End -> type t <> LParen \/ ty <> Identifier).
Proof.
  intros Hty [Hno Hid]. unfold consume.
  destruct (SreTokenType_eqb (current p) ty) eqn:E; [|discriminate].
  apply SreTokenType_eqb_eq in E. subst ty.
  rewrite (current_graftS p Hty), (proj2 (SreTokenType_eqb_eq _ _) eq_refl).
  unfold G, graftS at 1. rewrite (proj2 (SreTokenType_eqb_neq _ _) Hty).
  unfold advance. cbn [lexer_].
  destruct (lexer_ p) as [|e|x tr'] eqn:El; simpl; try discriminate.
  - intros [= <-]. split; [reflexivity|].
    split; [split; [reflexivity | simpl; discriminate]|].
    split; [reflexivity|].
    intros _. destruct (SreTokenType_eqb (current p) Identifier) eqn:Ei.
    + left. apply Hid. exact Ei.
    + right. now apply SreTokenType_eqb_neq.
  - intros [= <-]. simpl in Hno. apply andb_true_iff in Hno as [Hx Hno].
    unfold graftS, current. simpl.
    destruct (SreTokenType_eqb (type x) End) eqn:Ex; [discriminate|].
    split; [reflexivity|]. split; [split; [exact Hno | exact Hid]|].
    split; [reflexivity|]. intros Hx'. rewrite Hx' in Ex. discriminate.
Qed.

(** What a level of the parser owes to grafting: success carries over, the
    final state is grafted, and the parser did not start at the end. *)
Let carries (f : SreParser trace -> res (SreASTNode * SreParser trace))
    (cond : SreParser trace -> Prop) : Prop :=
  forall p a p', ok p -> f p = Ok (a, p') -> cond p' ->
    f (G p) = Ok (a, G p') /\ ok p' /\ current p <> End.

Let atEnd (P : Prop) (p' : SreParser trace) : Prop := current p' = End -> P.

Variable pe : SreParser trace -> res (SreASTNode * SreParser trace).
Variable n : nat.
Hypothesis Hpe : carries pe (atEnd (type t <> And /\ type t <> Or)).

Lemma parseArgs_loop_graft k args p args' p' :
  ok p -> parseArgs_loop nextTrace pe k args p = Ok (args', p') ->
  current p' <> End ->
  parseArgs_loop nextTrace pe k args (G p) = Ok (args', G p') /\ ok p'.
Proof.
  revert args p. induction k as [|k IH]; intros args p Hok;
    rewrite !parseArgs_loop_eq;
    destruct (SreTokenType_eqb (current p) Comma) eqn:E.
  - discriminate.
  - intros [= <- <-] Hne. rewrite (current_graftS p Hne), E. auto.
  - apply SreTokenType_eqb_eq in E.
    rewrite (current_graftS p) by congruence. rewrite E. cbn [SreTokenType_eqb].
    intros Hrun Hne.
    apply bind_inv_Ok in Hrun as (p1 & Hc & Hrun).
    destruct (consume_graft Comma p p1 ltac:(discriminate) Hok Hc)
      as (-> & Hok1 & _). cbn [bind].
    apply bind_inv_Ok in Hrun as ([a p2] & Hp & Hrun).
    assert (Hne2 : atEnd (type t <> And /\ type t <> Or) p2).
    { intros Hend. exfalso. rewrite parseArgs_loop_eq in Hrun.
      rewrite Hend in Hrun. simpl in Hrun. injection Hrun as _ <-. auto. }
    destruct (Hpe p1 a p2 Hok1 Hp Hne2) as (-> & Hok2 & _). cbn [bind].
    now apply IH.
  - intros [= <- <-] Hne. rewrite (current_graftS p Hne), E. auto.
Qed.

Lemma parsePrimary_graft : carries (parsePrimary nextTrace pe n) (fun _ => True).
Proof.
  intros p a p' Hok Hrun _. unfold parsePrimary in *.
  destruct (current p) eqn:Ec; try discriminate;
    rewrite (current_graftS p) by congruence; rewrite Ec;
    rewrite ?(text_graftS p) by congruence.
  - (* identifier *)
    apply bind_inv_Ok in Hrun as (p1 & Hc & Hrun).
    destruct (consume_graft Identifier p p1 ltac:(discriminate) Hok Hc)
      as (-> & Hok1 & _ & Hlast). cbn [bind].
    destruct (SreTokenType_eqb (current p1) LParen) eqn:E1.
    + apply SreTokenType_eqb_eq in E1.
      rewrite (current_graftS p1) by congruence. rewrite E1.
      cbn [SreTokenType_eqb].
      apply bind_inv_Ok in Hrun as (p2 & Hc2 & Hrun).
      destruct (consume_graft LParen p1 p2 ltac:(discriminate) Hok1 Hc2)
        as (-> & Hok2 & _). cbn [bind].
      apply bind_inv_Ok in Hrun as ([args p3] & Hargs & Hrun).
      apply bind_inv_Ok in Hrun as (p4 & Hc4 & Hrun).
      injection Hrun as <- <-.
      assert (Ec3 : current p3 = RParen).
      { unfold consume in Hc4.
        destruct (SreTokenType_eqb (current p3) RParen) eqn:E3;
          [now apply SreTokenType_eqb_eq | discriminate]. }
      assert (Hargs' :
        (if negb (SreTokenType_eqb (current (G p2)) RParen)
         then let* (a, p) := pe (G p2) in parseArgs_loop nextTrace pe n [a] p
         else Ok ([], G p2)) = Ok (args, G p3) /\ ok p3).
      { destruct (SreTokenType_eqb (current p2) RParen) eqn:E2; simpl in Hargs.
        - injection Hargs as <- <-.
          rewrite (current_graftS p2) by congruence. rewrite Ec3. auto.
        - apply bind_inv_Ok in Hargs as ([a p2'] & Hp & Hloop).
          assert (Hne : atEnd (type t <> And /\ type t <> Or) p2').
          { intros Hend. exfalso. rewrite parseArgs_loop_eq in Hloop.
            rewrite Hend in Hloop. simpl in Hloop. injection Hloop as _ <-.
            congruence. }
          destruct (Hpe p2 a p2' Hok2 Hp Hne) as (Hg & Hok2' & Hne2).
          rewrite (current_graftS p2 Hne2), E2. cbn [negb]. rewrite Hg.
          cbn [bind]. apply parseArgs_loop_graft; auto.
          rewrite Ec3. discriminate. }
      destruct Hargs' as [-> Hok3]. cbn [bind].
      destruct (consume_graft RParen p3 p4 ltac:(discriminate) Hok3 Hc4)
        as (-> & Hok4 & _). cbn [bind]. graft_done.
    + injection Hrun as <- <-.
      assert (El : SreTokenType_eqb (current (G p1)) LParen = false).
      { destruct (SreTokenType_eqb (current p1) End) eqn:Ee.
        - apply SreTokenType_eqb_eq in Ee.
          rewrite (current_graftS_End p1 Ee). apply SreTokenType_eqb_neq.
          destruct (Hlast Ee); congruence.
        - apply SreTokenType_eqb_neq in Ee. now rewrite (current_graftS p1 Ee). }
      rewrite El. graft_done.
  - (* string literal *)
    apply bind_inv_Ok in Hrun as (p1 & Hc & Hrun).
    destruct (consume_graft StringLiteral p p1 ltac:(discriminate) Hok Hc)
      as (-> & Hok1 & _). cbn [bind]. injection Hrun as <- <-.
    graft_done.
  - (* parenthesis *)
    apply bind_inv_Ok in Hrun as (p1 & Hc & Hrun).
    destruct (consume_graft LParen p p1 ltac:(discriminate) Hok Hc)
      as (-> & Hok1 & _). cbn [bind].
    apply bind_inv_Ok in Hrun as ([a' p2] & Hp & Hrun).
    apply bind_inv_Ok in Hrun as (p3 & Hc3 & Hrun).
    injection Hrun as <- <-.
    assert (Hne : atEnd (type t <> And /\ type t <> Or) p2).
    { intros Hend. exfalso. unfold consume in Hc3. rewrite Hend in Hc3.
      discriminate. }
    destruct (Hpe p1 a' p2 Hok1 Hp Hne) as (-> & Hok2 & _). cbn [bind].
    destruct (consume_graft RParen p2 p3 ltac:(discriminate) Hok2 Hc3)
      as (-> & Hok3 & _). cbn [bind]. graft_done.
Qed.

Lemma parseNot_graft : carries (parseNot nextTrace pe n) (fun _ => True).
Proof.
  intros p a p' Hok Hrun _. unfold parseNot in *.
  destruct (SreTokenType_eqb (current p) Not) eqn:E.
  - apply SreTokenType_eqb_eq in E.
    rewrite (current_graftS p) by congruence. rewrite E.
    cbn [SreTokenType_eqb].
    apply bind_inv_Ok in Hrun as (p1 & Hc & Hrun).
    destruct (consume_graft Not p p1 ltac:(discriminate) Hok Hc)
      as (-> & Hok1 & _). cbn [bind].
    apply bind_inv_Ok in Hrun as ([a' p2] & Hp & Hrun).
    injection Hrun as <- <-.
    destruct (parsePrimary_graft p1 a' p2 Hok1 Hp I) as (-> & Hok2 & _).
    cbn [bind]. graft_done.
  - destruct (parsePrimary_graft p a p' Hok Hrun I) as (Hg & Hok' & Hne).
    rewrite (current_graftS p Hne), E. auto.
Qed.

Lemma parseAnd_loop_graft k node p a p' :
  ok p -> parseAnd_loop nextTrace pe n k node p = Ok (a, p') ->
  atEnd (type t <> And) p' ->
  parseAnd_loop nextTrace pe n k node (G p) = Ok (a, G p') /\ ok p'.
Proof.
  revert node p. induction k as [|k IH]; intros node p Hok;
    rewrite !parseAnd_loop_eq;
    destruct (SreTokenType_eqb (current p) And) eqn:E; try discriminate.
  - intros [= <- <-] Hend. split; [|exact Hok].
    destruct (SreTokenType_eqb (current p) End) eqn:Ee.
    + apply SreTokenType_eqb_eq in Ee. rewrite (current_graftS_End p Ee).
      now rewrite (proj2 (SreTokenType_eqb_neq _ _) (Hend Ee)).
    + apply SreTokenType_eqb_neq in Ee. now rewrite (current_graftS p Ee), E.
  - apply SreTokenType_eqb_eq in E.
    rewrite (current_graftS p) by congruence. rewrite E. cbn [SreTokenType_eqb].
    intros Hrun Hend.
    apply bind_inv_Ok in Hrun as (p1 & Hc & Hrun).
    destruct (consume_graft And p p1 ltac:(discriminate) Hok Hc)
      as (-> & Hok1 & _). cbn [bind].
    apply bind_inv_Ok in Hrun as ([rhs p2] & Hp & Hrun).
    destruct (parseNot_graft p1 rhs p2 Hok1 Hp I) as (-> & Hok2 & _).
    cbn [bind]. now apply IH.
  - intros [= <- <-] Hend. split; [|exact Hok].
    destruct (SreTokenType_eqb (current p) End) eqn:Ee.
    + apply SreTokenType_eqb_eq in Ee. rewrite (current_graftS_End p Ee).
      now rewrite (proj2 (SreTokenType_eqb_neq _ _) (Hend Ee)).
    + apply SreTokenType_eqb_neq in Ee. now rewrite (current_graftS p Ee), E.
Qed.

Lemma parseAnd_graft :
  carries (parseAnd nextTrace pe n) (atEnd (type t <> And)).
Proof.
  intros p a p' Hok Hrun Hend. unfold parseAnd in *.
  apply bind_inv_Ok in Hrun as ([node p1] & Hp & Hrun).
  destruct (parseNot_graft p node p1 Hok Hp I) as (-> & Hok1 & Hne).
  cbn [bind].
  destruct (parseAnd_loop_graft n node p1 a p' Hok1 Hrun Hend) as [-> Hok'].
  auto.
Qed.

Lemma parseOr_loop_graft k node p a p' :
  ok p -> parseOr_loop nextTrace pe n k node p = Ok (a, p') ->
  atEnd (type t <> And /\ type t <> Or) p' ->
  parseOr_loop nextTrace pe n k node (G p) = Ok (a, G p') /\ ok p'.
Proof.
  revert node p. induction k as [|k IH]; intros node p Hok;
    rewrite !parseOr_loop_eq;
    destruct (SreTokenType_eqb (current p) Or) eqn:E; try discriminate.
  - intros [= <- <-] Hend. split; [|exact Hok].
    destruct (SreTokenType_eqb (current p) End) eqn:Ee.
    + apply SreTokenType_eqb_eq in Ee. rewrite (current_graftS_End p Ee).
      now rewrite (proj2 (SreTokenType_eqb_neq _ _) (proj2 (Hend Ee))).
    + apply SreTokenType_eqb_neq in Ee. now rewrite (current_graftS p Ee), E.
  - apply SreTokenType_eqb_eq in E.
    rewrite (current_graftS p) by congruence. rewrite E. cbn [SreTokenType_eqb].
    intros Hrun Hend.
    apply bind_inv_Ok in Hrun as (p1 & Hc & Hrun).
    destruct (consume_graft Or p p1 ltac:(discriminate) Hok Hc)
      as (-> & Hok1 & _). cbn [bind].
    apply bind_inv_Ok in Hrun as ([rhs p2] & Hp & Hrun).
    assert (Hend2 : atEnd (type t <> And) p2).
    { intros Hp2. rewrite parseOr_loop_eq, Hp2 in Hrun. simpl in Hrun.
      injection Hrun as _ <-. now apply Hend. }
    destruct (parseAnd_graft p1 rhs p2 Hok1 Hp Hend2) as (-> & Hok2 & _).
    cbn [bind]. now apply IH.
  - intros [= <- <-] Hend. split; [|exact Hok].
    destruct (SreTokenType_eqb (current p) End) eqn:Ee.
    + apply SreTokenType_eqb_eq in Ee. rewrite (current_graftS_End p Ee).
      now rewrite (proj2 (SreTokenType_eqb_neq _ _) (proj2 (Hend Ee))).
    + apply SreTokenType_eqb_neq in Ee. now rewrite (current_graftS p Ee), E.
Qed.

Lemma parseOr_graft :
  carries (parseOr nextTrace pe n) (atEnd (type t <> And /\ type t <> Or)).
Proof.
  intros p a p' Hok Hrun Hend. unfold parseOr in *.
  apply bind_inv_Ok in Hrun as ([node p1] & Hp & Hrun).
  assert (Hend1 : atEnd (type t <> And) p1).
  { intros Hp1. rewrite parseOr_loop_eq, Hp1 in Hrun. simpl in Hrun.
    injection Hrun as _ <-. now apply Hend. }
  destruct (parseAnd_graft p node p1 Hok Hp Hend1) as (-> & Hok1 & Hne).
  cbn [bind].
  destruct (parseOr_loop_graft n node p1 a p' Hok1 Hrun Hend) as [-> Hok'].
  auto.
Qed.
End Graft.

Lemma parseExpression_graft t rest fuel p a p' :
  graftable t p ->
  parseExpression nextTrace fuel p = Ok (a, p') ->
  (current p' = End -> type t <> And /\ type t <> Or) ->
  parseExpression nextTrace fuel (graftS t rest p) = Ok (a, graftS t rest p') /\
  graftable t p' /\ current p <> End.
Proof.
  revert p a p'. induction fuel as [|fuel IH]; intros p a p' Hok Hrun Hend;
    [discriminate|].
  simpl in *. eapply parseOr_graft; eauto.
Qed.

Lemma graft_tapp t rest ts :
  graft t rest (tapp ts TEnd) = tapp ts (TCons t rest).
Proof. induction ts as [|x ts IH]; simpl; congruence. Qed.

Lemma endsWithIdentifier_tapp x ts :
  endsWithIdentifier x (tapp ts TEnd) = lastIsIdentifier (x :: ts).
Proof.
  revert x. induction ts as [|y ts IH]; intros x; [reflexivity|].
  simpl. rewrite IH. reflexivity.
Qed.

Lemma noEnd_trace_from n l : noEnd (trace_from n l) = true.
Proof.
  revert l. induction n as [|n IH]; intros l; [reflexivity|]. simpl.
  destruct (nextToken l) as [[x l']| | |]; try reflexivity.
  destruct (SreTokenType_eqb (type x) End) eqn:E; [reflexivity|].
  simpl. now rewrite E, IH.
Qed.

Lemma noEnd_tokens expression : noEnd (tokens expression) = true.
Proof. apply noEnd_trace_from. Qed.

(** A trace that parses still parses, to the same tree, when a token that
    may follow and anything else come in place of its end. *)
Lemma parse_graft t rest fuel tr root :
  noEnd tr = true ->
  (traceEndsWithIdentifier tr = true -> type t <> LParen) ->
  type t <> And -> type t <> Or ->
  parse fuel tr = Ok root ->
  parse fuel (graft t rest tr) = Ok root.
Proof.
  intros Hno Hid Hand Hor. unfold parse, SreParser_new, advance.
  destruct tr as [|e|x tr]; simpl.
  - destruct fuel as [|fuel]; [discriminate|]. simpl.
    unfold parseOr, parseAnd, parseNot, parsePrimary. simpl. discriminate.
  - discriminate.
  - intros Hrun. apply bind_inv_Ok in Hrun as ([a p'] & Hp & [= <-]).
    simpl in Hno. apply andb_true_iff in Hno as [Hx Hno].
    apply negb_true_iff in Hx.
    assert (Hok : graftable t {| lexer_ := tr; currentToken_ := x |})
      by (split; [exact Hno | exact Hid]).
    destruct (parseExpression_graft t rest fuel _ _ _ Hok Hp)
      as (Hg & _); [auto|].
    unfold graftS at 1 in Hg. unfold current at 1 in Hg.
    cbn [currentToken_ lexer_] in Hg. rewrite Hx in Hg.
    now rewrite Hg.
Qed.

Lemma parseRoot_parse expression fuel :
  fuel_of expression <= fuel ->
  parseRoot expression = parse fuel (tokens expression).
Proof.
  intros Hfuel. unfold parseRoot, parse, SreParser_new, tokens.
  rewrite advance_traced.
  remember (fuel_of expression) as f0 eqn:Ef0.
  destruct (advance nextToken (SreLexer_new expression)) as [p|e'| |] eqn:Ep;
    simpl; try reflexivity; [|now rewrite mapExn_id].
  rewrite parseExpression_traced.
  assert (Hdef : parseExpression nextToken f0 p <> OutOfFuel).
  { apply parseExpression_nextToken_total with expression; [exact Ep | lia]. }
  rewrite (parseExpression_more nextToken f0 fuel p Hfuel Hdef).
  destruct (parseExpression nextToken f0 p) as [[n p']|e'| |];
    simpl; try reflexivity. now destruct e'.
Qed.

Lemma parseRoot_definite expression : parseRoot expression <> OutOfFuel.
Proof.
  rewrite (parseRoot_parse expression (fuel_of expression)) by lia.
  now apply parse_definite.
Qed.

Lemma may_follow_spec ts t :
  may_follow ts t = true ->
  type t <> And /\ type t <> Or /\
  (lastIsIdentifier ts = true -> type t <> LParen).
Proof.
  unfold may_follow. rewrite !andb_true_iff, !negb_true_iff.
  intros [[Ha Ho] Hl]. repeat split; try now apply SreTokenType_eqb_neq.
  intros Hlast. rewrite Hlast in Hl. simpl in Hl.
  now apply SreTokenType_eqb_neq.
Qed.

(** C9 (amended): when the tokens of the input are those of an expression
    that parses on its own, followed by a token that lexes and is neither
    [and] nor [or], nor an opening parenthesis after a final identifier,
    [evaluate] returns on the input what it returns on the expression
    alone; whatever comes after that token is never looked at (it may even
    fail to lex). *)
Theorem trailing_tokens_ignored (e : SreRuleEngine) (ctx : SreContext)
    (expression input : string) (ts : list SreToken) (t : SreToken)
    (rest : trace) (root : SreASTNode) :
  tokens expression = tapp ts TEnd ->
  parseRoot expression = Ok root ->
  tokens input = tapp ts (TCons t rest) ->
  may_follow ts t = true ->
  parseRoot input = Ok root /\
  evaluate e input ctx = evalBool ctx (functions_ e) root /\
  evaluate e input ctx = evaluate e expression ctx.
Proof.
  intros Hexp Hroot Hinput Hfollow.
  apply may_follow_spec in Hfollow as (Hand & Hor & Hid).
  set (fuel := Nat.max (fuel_of expression) (fuel_of input)).
  assert (Hp : parseRoot input = Ok root).
  { rewrite (parseRoot_parse input fuel) by lia.
    rewrite Hinput, <- graft_tapp, <- Hexp.
    apply parse_graft; auto using noEnd_tokens.
    - rewrite Hexp. destruct ts as [|x ts]; [discriminate|]. simpl.
      rewrite endsWithIdentifier_tapp. exact Hid.
    - rewrite <- (parseRoot_parse expression fuel) by lia. exact Hroot. }
  rewrite !evaluate_parseRoot, Hp, Hroot. auto.
Qed.

Lemma trailing_tokens_ignored_witness :
  evaluate SreRuleEngine_new "'x' ) @" ctx_ab =
  evaluate SreRuleEngine_new "'x'" ctx_ab.
Proof.
  apply (trailing_tokens_ignored SreRuleEngine_new ctx_ab "'x'" "'x' ) @"
           [{| type := StringLiteral; text := "x" |}] T_rparen
           (TThrow (UnexpectedCharacter "@")) (SreValueNode "x" false));
    vm_compute; reflexivity.
Defined.

(** C9 (as stated) fails: an opening parenthesis is a token that lexes and
    is neither [and] nor [or], yet after the complete expression [a] it is
    not ignored; the parser takes [a (] for the start of a call and
    raises. *)
Lemma trailing_parenthesis_not_ignored :
  ~ (forall (e : SreRuleEngine) (ctx : SreContext) (expression input : string)
       (ts : list SreToken) (t : SreToken) (rest : trace) (root : SreASTNode),
        tokens expression = tapp ts TEnd ->
        parseRoot expression = Ok root ->
        tokens input = tapp ts (TCons t rest) ->
        type t <> And -> type t <> Or ->
        evaluate e input ctx = evalBool ctx (functions_ e) root).
Proof.
  intros H.
  specialize (H SreRuleEngine_new ctx_ab "a" "a ("
                [{| type := Identifier; text := "a" |}] T_lparen TEnd
                (SreValueNode "a" false) eq_refl eq_refl eq_refl
                ltac:(discriminate) ltac:(discriminate)).
  vm_compute in H. discriminate.
Qed.

(** ** Composing parses *)

Lemma tapp_app l1 l2 tr : tapp (l1 ++ l2) tr = tapp l1 (tapp l2 tr).
Proof. induction l1 as [|x l1 IH]; simpl; congruence. Qed.


Lemma notLevel_mono F F' p :
  F <= F' -> le_res (notLevel F p) (notLevel F' p).
Proof.
  intros H. apply parseNot_mono; [|exact H].
  intros q. now apply parseExpression_mono.
Qed.

Lemma parsesTo_run level F p a p' :
  (forall F F' p, F <= F' -> le_res (level F p) (level F' p)) ->
  level F p = Ok (a, p') -> parsesTo level p a p'.
Proof.
  intros Hmono Hrun. exists F. intros F' HF.
  destruct (Hmono F F' p HF) as [H|H]; congruence.
Qed.


Lemma notLevel_graft t rest F p a p' :
  graftable t p -> notLevel F p = Ok (a, p') ->
  notLevel F (graftS t rest p) = Ok (a, graftS t rest p') /\
  graftable t p' /\ current p <> End.
Proof.
  intros Hok Hrun.
  apply (parseNot_graft t rest (parseExpression nextTrace F) F); auto.
  intros q b q'. apply parseExpression_graft.
Qed.

Section Complete.
Variable level :
  nat -> SreParser trace -> res (SreASTNode * SreParser trace).
Hypothesis level_mono :
  forall F F' p, F <= F' -> le_res (level F p) (level F' p).
Hypothesis level_graft : forall t rest F p a p',
  graftable t p -> level F p = Ok (a, p') ->
  level F (graftS t rest p) = Ok (a, graftS t rest p') /\
  graftable t p' /\ current p <> End.

Lemma complete_inv ts a :
  complete level ts = Some a ->
  exists x ts' p',
    ts = x :: ts' /\ type x <> End /\ noEnd (tapp ts' TEnd) = true /\
    level (length ts) (parserAt x (tapp ts' TEnd)) = Ok (a, p') /\
    current p' = End.
Proof.
  unfold complete, SreParser_new, advance.
  destruct ts as [|x ts']; simpl.
  - destruct (level 0 _) as [[b p']| | |] eqn:E; try discriminate.
    assert (Hok : graftable T_rparen (parserAt EndToken TEnd))
      by (split; [reflexivity | discriminate]).
    now destruct (level_graft T_rparen TEnd 0 _ _ _ Hok E) as (_ & _ & Hne).
  - destruct (level _ _) as [[b p']| | |] eqn:E; try discriminate.
    destruct (SreTokenType_eqb (current p') End) eqn:Ec; [|discriminate].
    destruct (SreTokenType_eqb (type x) End) eqn:Ex; [discriminate|].
    simpl. destruct (noEnd (tapp ts' TEnd)) eqn:En; [|discriminate].
    intros [= <-]. exists x, ts', p'.
    repeat split; auto; now apply SreTokenType_eqb_neq || apply SreTokenType_eqb_eq.
Qed.

(** A complete subexpression parses to its tree wherever it stands, and the
    parser stops right behind it, provided the next token is not an opening
    parenthesis. *)
Lemma complete_followed ts a t rest :
  complete level ts = Some a -> type t <> LParen ->
  exists x ts',
    ts = x :: ts' /\
    parsesTo level (parserAt x (tapp ts' (TCons t rest))) a (parserAt t rest).
Proof.
  intros Hc Ht.
  destruct (complete_inv ts a Hc) as (x & ts' & p' & -> & Hx & Hno & Hrun & Hend).
  exists x, ts'. split; [reflexivity|].
  assert (Hok : graftable t (parserAt x (tapp ts' TEnd)))
    by (split; [exact Hno | intros _; exact Ht]).
  destruct (level_graft t rest _ _ _ _ Hok Hrun) as (Hg & _).
  unfold graftS in Hg. unfold current at 1 in Hg. cbn [parserAt currentToken_ lexer_] in Hg.
  rewrite (proj2 (SreTokenType_eqb_neq _ _) Hx) in Hg.
  rewrite (proj2 (SreTokenType_eqb_eq _ _) Hend), graft_tapp in Hg.
  eapply parsesTo_run; eauto.
Qed.

Lemma complete_last ts a :
  complete level ts = Some a ->
  exists x ts' p',
    ts = x :: ts' /\ current p' = End /\
    parsesTo level (parserAt x (tapp ts' TEnd)) a p'.
Proof.
  intros Hc.
  destruct (complete_inv ts a Hc) as (x & ts' & p' & -> & Hx & Hno & Hrun & Hend).
  exists x, ts', p'. repeat split; auto. eapply parsesTo_run; eauto.
Qed.
End Complete.

Lemma parsesTo_not_of_primary p a p' :
  parsesTo primaryLevel p a p' -> current p <> Not ->
  parsesTo notLevel p a p'.
Proof.
  intros [f Hf] Hc. exists f. intros F HF. unfold notLevel, parseNot.
  rewrite (proj2 (SreTokenType_eqb_neq _ _) Hc). now apply Hf.
Qed.


Lemma parsesTo_and_one p a p' :
  parsesTo notLevel p a p' -> current p' <> And -> parsesTo andLevel p a p'.
Proof.
  intros [f Hf] Hc. exists f. intros F HF. unfold andLevel, parseAnd.
  fold (notLevel F). rewrite (Hf F HF). cbn [bind].
  rewrite parseAnd_loop_eq. now rewrite (proj2 (SreTokenType_eqb_neq _ _) Hc).
Qed.


Lemma parsesTo_or_one p a p' :
  parsesTo andLevel p a p' -> current p' <> Or -> parsesTo orLevel p a p'.
Proof.
  intros [f Hf] Hc. exists f. intros F HF. unfold orLevel, parseOr.
  fold (andLevel F). rewrite (Hf F HF). cbn [bind].
  rewrite parseOr_loop_eq. now rewrite (proj2 (SreTokenType_eqb_neq _ _) Hc).
Qed.


Lemma parsesTo_expression p a p' :
  parsesTo orLevel p a p' -> parsesTo (parseExpression nextTrace) p a p'.
Proof.
  intros [f Hf]. exists (S f). intros F HF. destruct F as [|F]; [lia|].
  simpl. apply (Hf F). lia.
Qed.

Lemma parsesTo_paren p p1 a p2 p3 :
  current p = LParen -> advance nextTrace (lexer_ p) = Ok p1 ->
  parsesTo (parseExpression nextTrace) p1 a p2 ->
  current p2 = RParen -> advance nextTrace (lexer_ p2) = Ok p3 ->
  parsesTo primaryLevel p a p3.
Proof.
  intros Hc Hadv [f Hf] Hc2 Hadv2. exists f. intros F HF.
  unfold primaryLevel, parsePrimary, consume. rewrite Hc.
  cbn [SreTokenType_eqb]. rewrite Hadv. cbn [bind].
  rewrite (Hf F HF). cbn [bind]. rewrite Hc2. cbn [SreTokenType_eqb].
  rewrite Hadv2. reflexivity.
Qed.

(** From a parse of the tokens to the tree [evaluate] walks. *)
Lemma parseRoot_parsesTo expression x tr a p' :
  tokens expression = TCons x tr ->
  parsesTo (parseExpression nextTrace) (parserAt x tr) a p' ->
  parseRoot expression = Ok a.
Proof.
  intros Htok [f Hf].
  rewrite (parseRoot_parse expression (Nat.max f (fuel_of expression))) by lia.
  rewrite Htok. unfold parse, SreParser_new, advance. simpl.
  fold (parserAt x tr). rewrite Hf by lia. reflexivity.
Qed.

(** The recursion bound that [complete] uses, the number of tokens, is
    never exhausted. *)
Lemma nextTrace_progress tr t tr' :
  nextTrace tr = Ok (t, tr') -> type t <> End ->
  trace_length tr' < trace_length tr.
Proof.
  destruct tr as [|e|x tr0]; simpl; try discriminate.
  - intros [= <- <-] H. now destruct H.
  - intros [= <- <-] _. lia.
Qed.

Lemma nextTrace_definite tr : nextTrace tr <> OutOfFuel.
Proof. destruct tr; discriminate. Qed.

Lemma trace_length_tapp ts : trace_length (tapp ts TEnd) = length ts.
Proof. induction ts as [|x ts IH]; simpl; congruence. Qed.

Lemma complete_fuel x ts :
  primaryLevel (length (x :: ts)) (parserAt x (tapp ts TEnd)) <> OutOfFuel /\
  notLevel (length (x :: ts)) (parserAt x (tapp ts TEnd)) <> OutOfFuel.
Proof.
  assert (Hw : weight trace_length (parserAt x (tapp ts TEnd)) <=
               length (x :: ts)).
  { unfold weight, current. simpl. rewrite trace_length_tapp.
    destruct (SreTokenType_eqb (type x) End); lia. }
  assert (Hpe : forall q, weight trace_length q < length (x :: ts) ->
            holds (fun y => weight trace_length (snd y) <= weight trace_length q)
                  (parseExpression nextTrace (length (x :: ts)) q)).
  { intros q Hq. apply parseExpression_total;
      [exact nextTrace_progress | exact nextTrace_definite | exact Hq]. }
  split; intros Hout.
  - pose proof (parsePrimary_total nextTrace trace_length nextTrace_progress
                  nextTrace_definite _ _ Hpe _ Hw) as H.
    unfold primaryLevel in Hout. rewrite Hout in H. exact H.
  - pose proof (parseNot_total nextTrace trace_length nextTrace_progress
                  nextTrace_definite _ _ Hpe _ Hw) as H.
    unfold notLevel in Hout. rewrite Hout in H. exact H.
Qed.

Lemma operand_followed ts a t rest :
  operand_of ts = Some a -> type t <> LParen ->
  exists x ts',
    ts = x :: ts' /\
    parsesTo notLevel (parserAt x (tapp ts' (TCons t rest))) a (parserAt t rest).
Proof. apply complete_followed; auto using notLevel_mono, notLevel_graft. Qed.

Lemma operand_last ts a :
  operand_of ts = Some a ->
  exists x ts' p',
    ts = x :: ts' /\ current p' = End /\
    parsesTo notLevel (parserAt x (tapp ts' TEnd)) a p'.
Proof. apply complete_last; auto using notLevel_mono, notLevel_graft. Qed.






(** ** Case-insensitivity *)

Lemma tolower_idempotent c : tolower (tolower c) = tolower c.
Proof.
  destruct c as [b0 b1 b2 b3 b4 b5 b6 b7].
  destruct b0, b1, b2, b3, b4, b5, b6, b7; reflexivity.
Qed.

Lemma lowercase_idempotent s : lowercase (lowercase s) = lowercase s.
Proof.
  induction s as [|c s IH]; simpl; [reflexivity|].
  now rewrite tolower_idempotent, IH.
Qed.

Lemma mapExn_lowercase_idempotent e :
  mapExn lowercase (mapExn lowercase e) = mapExn lowercase e.
Proof. destruct e; simpl; now rewrite ?lowercase_idempotent. Qed.

Lemma type_foldToken t tr : type (foldToken t tr) = type t.
Proof.
  unfold foldToken. destruct (type t) eqn:E; try reflexivity; try exact E.
  destruct (nextIsLParen tr); [reflexivity | exact E].
Qed.

Lemma advance_foldCase tr :
  advance nextTrace (foldCase tr) =
  mapRes foldState lowercase (advance nextTrace tr).
Proof. destruct tr; reflexivity. Qed.

Lemma parseExpression_foldState fuel p :
  parseExpression nextTrace fuel (foldState p) =
  mapRes (fun x => (mapNode lowercase (fst x), foldState (snd x))) lowercase
         (parseExpression nextTrace fuel p).
Proof.
  apply parseExpression_transport.
  - intros q. apply type_foldToken.
  - intros q. apply advance_foldCase.
  - intros q Hq. unfold foldState, foldToken. simpl.
    unfold current in Hq. now rewrite Hq.
  - intros q q1 Hq Hadv. unfold foldState, foldToken. simpl.
    unfold current in Hq. rewrite Hq. unfold advance in Hadv.
    destruct (lexer_ q) as [|e|x tr']; simpl in *; try discriminate;
      injection Hadv as <-; simpl; [reflexivity|].
    unfold current. simpl. now destruct (SreTokenType_eqb (type x) LParen).
  - intros q H1 H2 H3. unfold foldState, foldToken. simpl.
    unfold current in *.
    destruct (type (currentToken_ q)); try congruence; reflexivity.
Qed.

Lemma parse_foldCase fuel tr :
  parse fuel (foldCase tr) = mapRes (mapNode lowercase) lowercase (parse fuel tr).
Proof.
  unfold parse, SreParser_new. rewrite advance_foldCase.
  destruct (advance nextTrace tr) as [p| | |]; simpl; try reflexivity.
  rewrite parseExpression_foldState.
  destruct (parseExpression nextTrace fuel p) as [[n p']| | |]; reflexivity.
Qed.

Lemma evalString_mapNode ctx g a : evalString ctx (mapNode g a) = evalString ctx a.
Proof. destruct a; reflexivity. Qed.

Lemma evalArgs_mapNode ctx g args acc :
  evalArgs ctx (List.map (mapNode g) args) acc = evalArgs ctx args acc.
Proof.
  revert acc. induction args as [|a args IH]; intros acc; simpl;
    [reflexivity|].
  rewrite evalString_mapNode. destruct (evalString ctx a); simpl; auto.
Qed.

Lemma foldOutcome_bind (r r' : res bool) (k k' : bool -> res bool) :
  foldOutcome r = foldOutcome r' ->
  (forall b, foldOutcome (k b) = foldOutcome (k' b)) ->
  foldOutcome (bind r k) = foldOutcome (bind r' k').
Proof.
  intros Hr Hk. destruct r, r'; simpl in *; try discriminate; auto.
  injection Hr as ->. apply Hk.
Qed.

(** Lowercasing the function names of a tree changes its value at most in
    the casing of the name a "Function not found" carries. *)
Lemma evalBool_mapNode_lowercase ctx fns n :
  foldOutcome (evalBool ctx fns (mapNode lowercase n)) =
  foldOutcome (evalBool ctx fns n).
Proof.
  induction n as [op_ left_ right_ IHl IHr | | name_ args_ _]
    using SreASTNode_induction.
  - assert (Hr : foldOutcome (deref (option_map (mapNode lowercase) right_)
                                     (evalBool ctx fns)) =
                 foldOutcome (deref right_ (evalBool ctx fns))).
    { destruct right_ as [r|]; simpl; [|reflexivity]. now apply IHr. }
    destruct op_; cbn [mapNode evalBool]; apply foldOutcome_bind; auto;
      intros [|]; auto.
  - reflexivity.
  - cbn [mapNode evalBool]. rewrite evalArgs_mapNode.
    destruct (evalArgs ctx args_ []) as [vs| | |]; simpl; try reflexivity.
    rewrite lowercase_idempotent.
    destruct (fns !! lowercase name_); simpl; [reflexivity|].
    now rewrite lowercase_idempotent.
Qed.

Lemma registerFunction_lowercase name name' f e :
  lowercase name = lowercase name' ->
  registerFunction name f e = registerFunction name' f e.
Proof. unfold registerFunction. now intros ->. Qed.

(** Two expressions with the same tokens up to the casing of their keywords
    and of the names of the predicates they call evaluate alike, whichever
    casing a predicate was registered under. *)
Lemma evaluate_foldCase (e : SreRuleEngine) (ctx : SreContext)
    (s s' name name' : string) (f : SreFunction) :
  foldCase (tokens s) = foldCase (tokens s') ->
  lowercase name = lowercase name' ->
  foldOutcome (evaluate (registerFunction name f e) s ctx) =
  foldOutcome (evaluate (registerFunction name' f e) s' ctx).
Proof.
  intros Htok Hname.
  rewrite (registerFunction_lowercase name name' f e Hname).
  set (e' := registerFunction name' f e).
  set (F := Nat.max (fuel_of s) (fuel_of s')).
  rewrite (evaluate_parse e' s ctx F), (evaluate_parse e' s' ctx F) by lia.
  pose proof (parse_foldCase F (tokens s)) as H1.
  pose proof (parse_foldCase F (tokens s')) as H2.
  rewrite Htok, H2 in H1.
  destruct (parse F (tokens s)) as [n| e1 | |],
           (parse F (tokens s')) as [n'| e2 | |];
    simpl in H1; try discriminate; try reflexivity.
  - injection H1 as H1. simpl.
    rewrite <- (evalBool_mapNode_lowercase ctx _ n),
            <- (evalBool_mapNode_lowercase ctx _ n').
    now rewrite H1.
  - injection H1 as H1. unfold foldOutcome. simpl. now rewrite H1.
Qed.

(** * Further properties of the code *)

(** ** The built-in predicates *)

Lemma prefix_app (t post : string) : String.prefix t (t +:+ post) = true.
Proof.
  induction t as [|c t IH]; simpl; [apply prefix_empty|].
  destruct (ascii_dec c c); [exact IH | congruence].
Qed.

Lemma prefix_split (t s : string) :
  String.prefix t s = true -> exists post, s = t +:+ post.
Proof.
  revert s. induction t as [|c t IH]; intros s H.
  - exists s. reflexivity.
  - destruct s as [|d s]; simpl in H; [discriminate|].
    destruct (ascii_dec c d) as [->|]; [|discriminate].
    destruct (IH s H) as [post ->]. now exists post.
Qed.

Lemma find_found (s t : string) :
  isSome (find s t) = true <-> exists pre post, s = pre +:+ (t +:+ post).
Proof.
  split.
  - induction s as [|c s IH]; unfold find; fold find;
      destruct (String.prefix t _) eqn:Ep.
    + intros _. apply prefix_split in Ep as [post ->]. now exists "", post.
    + discriminate.
    + intros _. apply prefix_split in Ep as [post Hp]. exists "", post.
      exact Hp.
    + intros H. destruct (find s t); [|discriminate].
      destruct (IH eq_refl) as (pre & post & ->).
      now exists (String c pre), post.
  - intros (pre & post & ->). induction pre as [|c pre IH].
    + simpl. destruct (t +:+ post) eqn:E; unfold find; fold find;
        rewrite <- E, prefix_app; reflexivity.
    + change (String c pre +:+ (t +:+ post))
        with (String c (pre +:+ (t +:+ post))).
      unfold find; fold find.
      destruct (String.prefix t _); [reflexivity|].
      now destruct (find (pre +:+ (t +:+ post)) t).
Qed.

(** X1: the built-in [contains] answers true exactly when its second
    argument occurs in its first as a contiguous run of bytes. *)
Theorem contains_iff_substring (x y : string) :
  builtin_contains [x; y] = Ok true <->
  exists pre post, x = pre +:+ (y +:+ post).
Proof.
  rewrite <- find_found. unfold builtin_contains.
  split; [now intros [= ->] | now intros ->].
Qed.

(** X2: with a haystack and at least one needle, the built-in [containsAny]
    never throws; it answers true exactly when [contains] does for one of
    the needles, and with a single needle it is [contains]. *)
Theorem containsAny_iff_some_needle (x y : string) (ys : list string) :
  (exists b, builtin_containsAny (x :: y :: ys) = Ok b) /\
  (builtin_containsAny (x :: y :: ys) = Ok true <->
   exists n, In n (y :: ys) /\ builtin_contains [x; n] = Ok true) /\
  builtin_containsAny [x; y] = builtin_contains [x; y].
Proof.
  assert (Hloop : forall l, containsAny_loop x l = true <->
                            exists n, In n l /\ isSome (find x n) = true).
  { induction l as [|n l IH]; simpl.
    - split; [discriminate | now intros (n & [] & _)].
    - destruct (isSome (find x n)) eqn:E.
      + split; [|reflexivity]. intros _. exists n. auto.
      + rewrite IH. split.
        * intros (m & Hm & Hf). exists m. auto.
        * intros (m & [<-|Hm] & Hf); [congruence | now exists m]. }
  split; [eexists; reflexivity|]. split.
  - unfold builtin_containsAny. split.
    + intros [= H]. apply (proj1 (Hloop (y :: ys))) in H as (n & Hn & Hf).
      exists n. split; [exact Hn|]. unfold builtin_contains. now rewrite Hf.
    + intros (n & Hn & Hf). f_equal. apply (proj2 (Hloop (y :: ys))).
      exists n.
      split; [exact Hn|]. unfold builtin_contains in Hf. now injection Hf.
  - unfold builtin_containsAny, builtin_contains. simpl.
    now destruct (isSome (find x y)).
Qed.

(** ** The registry *)

(** X3: after [registerFunction name f], a call written in any casing of
    [name] whose arguments evaluate to the strings [vs] is answered by
    [f vs]: a registration replaces whatever was registered under that name,
    the built-ins included. *)
Theorem registered_function_is_called (e : SreRuleEngine) (ctx : SreContext)
    (name name' : string) (f : SreFunction) (args : list SreASTNode)
    (vs : list string) :
  lowercase name' = lowercase name ->
  evalArgs ctx args [] = Ok vs ->
  evalBool ctx (functions_ (registerFunction name f e))
           (SreFunctionNode name' args) = f vs.
Proof.
  intros Hname Hargs. rewrite (evalBool_call _ _ _ _ _ Hargs), Hname.
  unfold registerFunction. simpl. now rewrite lookup_insert_eq.
Qed.

Lemma registered_function_is_called_witness :
  evalBool ctx_ab
    (functions_ (registerFunction "CONTAINS" (fun _ => Ok false)
                   SreRuleEngine_new))
    (SreFunctionNode "Contains" [SreValueNode "a" true; SreValueNode "" false]) =
  Ok false.
Proof.
  apply (registered_function_is_called SreRuleEngine_new ctx_ab "CONTAINS"
           "Contains" (fun _ => Ok false) _ ["hello"; ""]); reflexivity.
Defined.

(** X4: registrations under names that differ beyond casing do not
    interfere: the later one leaves the lookup of the other name as it was,
    and the two registrations commute. *)
Theorem registrations_are_independent (e : SreRuleEngine)
    (name name' : string) (f g : SreFunction) :
  lowercase name <> lowercase name' ->
  functions_ (registerFunction name f e) !! lowercase name' =
    functions_ e !! lowercase name' /\
  registerFunction name f (registerFunction name' g e) =
    registerFunction name' g (registerFunction name f e).
Proof.
  intros Hne. unfold registerFunction. simpl. split.
  - now rewrite lookup_insert_ne.
  - f_equal. now apply insert_insert_ne.
Qed.

Lemma registrations_are_independent_witness :
  functions_ (registerFunction "startsWith" (fun _ => Ok true)
                SreRuleEngine_new) !! lowercase "Contains" =
  Some builtin_contains.
Proof.
  rewrite (proj1 (registrations_are_independent SreRuleEngine_new
                    "startsWith" "Contains" (fun _ => Ok true)
                    (fun _ => Ok true) ltac:(discriminate))).
  reflexivity.
Defined.

(** X5: of two registrations under names equal up to casing only the later
    one remains. *)
Theorem later_registration_wins (e : SreRuleEngine)
    (name name' : string) (f g : SreFunction) :
  lowercase name = lowercase name' ->
  registerFunction name' g (registerFunction name f e) =
  registerFunction name' g e.
Proof.
  intros Hname. unfold registerFunction. simpl. f_equal.
  rewrite Hname. apply insert_insert_eq.
Qed.

Lemma later_registration_wins_witness :
  registerFunction "ISOK" (fun _ => Ok true)
    (registerFunction "isOk" (fun _ => Ok false) SreRuleEngine_new) =
  registerFunction "ISOK" (fun _ => Ok true) SreRuleEngine_new.
Proof.
  apply (later_registration_wins SreRuleEngine_new "isOk" "ISOK"). reflexivity.
Defined.

(** ** Laws of the logical nodes

    They hold as equalities of outcomes: the two sides return the same
    boolean or throw the same exception, the operands being evaluated in
    the same order and skipped in the same cases. *)

(** X6: [and] and [or] are associative. *)
Theorem logical_operators_associative (ctx : SreContext) (fns : SreFunctions)
    (a b c : SreASTNode) :
  evalBool ctx fns
    (SreLogicalNode OpAnd a (Some (SreLogicalNode OpAnd b (Some c)))) =
  evalBool ctx fns
    (SreLogicalNode OpAnd (SreLogicalNode OpAnd a (Some b)) (Some c)) /\
  evalBool ctx fns
    (SreLogicalNode OpOr a (Some (SreLogicalNode OpOr b (Some c)))) =
  evalBool ctx fns
    (SreLogicalNode OpOr (SreLogicalNode OpOr a (Some b)) (Some c)).
Proof.
  split; cbn [evalBool deref];
    destruct (evalBool ctx fns a) as [[|]| | |]; cbn [bind]; try reflexivity;
    destruct (evalBool ctx fns b) as [[|]| | |]; reflexivity.
Qed.

(** X7: De Morgan's laws and double negation. *)
Theorem negation_laws (ctx : SreContext) (fns : SreFunctions)
    (p q : SreASTNode) :
  evalBool ctx fns
    (SreLogicalNode OpNot (SreLogicalNode OpAnd p (Some q)) None) =
  evalBool ctx fns
    (SreLogicalNode OpOr (SreLogicalNode OpNot p None)
       (Some (SreLogicalNode OpNot q None))) /\
  evalBool ctx fns
    (SreLogicalNode OpNot (SreLogicalNode OpOr p (Some q)) None) =
  evalBool ctx fns
    (SreLogicalNode OpAnd (SreLogicalNode OpNot p None)
       (Some (SreLogicalNode OpNot q None))) /\
  evalBool ctx fns
    (SreLogicalNode OpNot (SreLogicalNode OpNot p None) None) =
  evalBool ctx fns p.
Proof.
  repeat split; cbn [evalBool deref];
    destruct (evalBool ctx fns p) as [[|]| | |]; cbn [bind negb];
    try reflexivity;
    destruct (evalBool ctx fns q) as [[|]| | |]; reflexivity.
Qed.

(** ** Chains of [and] and of [or] *)

Lemma remainder_cons sep t ts :
  remainder sep (t :: ts) = TCons sep (tapp t (remainder sep ts)).
Proof. unfold remainder. simpl. now rewrite tapp_app. Qed.

Section Chain.
Variable sep : SreToken.
Variable op : Operator.
Variable operand : list SreToken -> option SreASTNode.
Variable level :
  nat -> SreParser trace -> res (SreASTNode * SreParser trace).
Variable loop :
  nat -> nat -> SreASTNode -> SreParser trace ->
  res (SreASTNode * SreParser trace).
Hypothesis sep_not_End : type sep <> End.
Hypothesis loop_eq : forall F k node p,
  loop F k node p =
  if SreTokenType_eqb (current p) (type sep) then
    match k with
    | 0 => OutOfFuel
    | S k' =>
        let* p := consume nextTrace (type sep) p in
        let* (rhs, p) := level F p in
        loop F k' (SreLogicalNode op node (Some rhs)) p
    end
  else Ok (node, p).
Hypothesis operand_then : forall t a ts,
  operand t = Some a ->
  exists x t' p1,
    t = x :: t' /\
    parsesTo level (parserAt x (tapp t' (remainder sep ts))) a p1 /\
    reads sep p1 ts.

Lemma chain_loop ts : forall asts acc p,
  List.map operand ts = List.map Some asts -> reads sep p ts ->
  exists p', current p' = End /\
    parsesToLoop (fun F k => loop F k acc) p (leftNested op acc asts) p'.
Proof.
  induction ts as [|t ts IH]; intros asts acc p Hmap Hreads.
  - destruct asts; [|discriminate]. exists p. split; [exact Hreads|].
    exists 0. intros F k _ _. rewrite loop_eq. simpl in Hreads.
    rewrite Hreads.
    destruct (SreTokenType_eqb End (type sep)) eqn:E; [|reflexivity].
    apply SreTokenType_eqb_eq in E. congruence.
  - destruct asts as [|a asts]; [discriminate|]. simpl in Hmap.
    injection Hmap as Ha Hmap.
    destruct (operand_then t a ts Ha) as (x & t' & p1 & -> & [f1 Hf1] & R1).
    destruct (IH asts (SreLogicalNode op acc (Some a)) p1 Hmap R1)
      as (p' & Hend & [f2 Hf2]).
    exists p'. split; [exact Hend|]. exists (S (f1 + f2)).
    intros F k HF Hk. rewrite loop_eq. simpl in Hreads. subst p.
    unfold consume, advance.
    cbn [current parserAt currentToken_ lexer_ tapp fold_right nextTrace bind].
    rewrite (proj2 (SreTokenType_eqb_eq _ _) eq_refl).
    destruct k as [|k]; [lia|]. cbn [bind].
    fold (tapp t' (remainder sep ts)). fold (parserAt x (tapp t' (remainder sep ts))).
    rewrite Hf1 by lia. cbn [bind]. apply Hf2; lia.
Qed.
End Chain.

Lemma operand_then_and t a ts :
  operand_of t = Some a ->
  exists x t' p1,
    t = x :: t' /\
    parsesTo notLevel (parserAt x (tapp t' (remainder T_and ts))) a p1 /\
    reads T_and p1 ts.
Proof.
  intros Ha. destruct ts as [|t2 ts].
  - destruct (operand_last t a Ha) as (x & t' & p' & -> & Hend & P).
    exists x, t', p'. auto.
  - rewrite remainder_cons.
    destruct (operand_followed t a T_and (tapp t2 (remainder T_and ts)) Ha)
      as (x & t' & -> & P); [discriminate|].
    exists x, t', (parserAt T_and (tapp t2 (remainder T_and ts))).
    repeat split; auto.
Qed.

Lemma operand_then_or t a ts :
  operand_of t = Some a ->
  exists x t' p1,
    t = x :: t' /\
    parsesTo andLevel (parserAt x (tapp t' (remainder T_or ts))) a p1 /\
    reads T_or p1 ts.
Proof.
  intros Ha. destruct ts as [|t2 ts].
  - destruct (operand_last t a Ha) as (x & t' & p' & -> & Hend & P).
    exists x, t', p'. repeat split; auto.
    apply parsesTo_and_one; [exact P | rewrite Hend; discriminate].
  - rewrite remainder_cons.
    destruct (operand_followed t a T_or (tapp t2 (remainder T_or ts)) Ha)
      as (x & t' & -> & P); [discriminate|].
    exists x, t', (parserAt T_or (tapp t2 (remainder T_or ts))).
    repeat split; auto.
    apply parsesTo_and_one; [exact P | discriminate].
Qed.

Lemma tokens_chain s sep t0 ts x t0' :
  tokens s = tapp (chain sep t0 ts) TEnd -> t0 = x :: t0' ->
  tokens s = TCons x (tapp t0' (remainder sep ts)).
Proof.
  intros Hs ->. rewrite Hs. unfold chain, remainder. simpl.
  now rewrite tapp_app.
Qed.

Lemma and_chain_parses s t0 ts a0 asts :
  operand_of t0 = Some a0 ->
  List.map operand_of ts = List.map Some asts ->
  tokens s = tapp (chain T_and t0 ts) TEnd ->
  parseRoot s = Ok (leftNested OpAnd a0 asts).
Proof.
  intros H0 Hmap Hs.
  destruct (operand_then_and t0 a0 ts H0) as (x & t0' & p1 & E & [f1 Hf1] & R1).
  destruct (chain_loop T_and OpAnd operand_of notLevel
              (fun F k => parseAnd_loop nextTrace (parseExpression nextTrace F) F k)
              ltac:(discriminate)
              ltac:(intros; apply parseAnd_loop_eq)
              operand_then_and ts asts a0 p1 Hmap R1)
    as (p' & Hend & [f2 Hf2]).
  eapply parseRoot_parsesTo; [exact (tokens_chain _ _ _ _ _ _ Hs E)|].
  apply parsesTo_expression.
  apply parsesTo_or_one; [|rewrite Hend; discriminate].
  exists (f1 + f2). intros F HF. unfold andLevel, parseAnd.
  fold (notLevel F). rewrite Hf1 by lia. cbn [bind]. apply Hf2; lia.
Qed.

Lemma or_chain_parses s t0 ts a0 asts :
  operand_of t0 = Some a0 ->
  List.map operand_of ts = List.map Some asts ->
  tokens s = tapp (chain T_or t0 ts) TEnd ->
  parseRoot s = Ok (leftNested OpOr a0 asts).
Proof.
  intros H0 Hmap Hs.
  destruct (operand_then_or t0 a0 ts H0) as (x & t0' & p1 & E & [f1 Hf1] & R1).
  destruct (chain_loop T_or OpOr operand_of andLevel
              (fun F k => parseOr_loop nextTrace (parseExpression nextTrace F) F k)
              ltac:(discriminate)
              ltac:(intros; apply parseOr_loop_eq)
              operand_then_or ts asts a0 p1 Hmap R1)
    as (p' & Hend & [f2 Hf2]).
  eapply parseRoot_parsesTo; [exact (tokens_chain _ _ _ _ _ _ Hs E)|].
  apply parsesTo_expression.
  exists (f1 + f2). intros F HF. unfold orLevel, parseOr.
  fold (andLevel F). rewrite Hf1 by lia. cbn [bind]. apply Hf2; lia.
Qed.

(** X8: a chain [A0 and A1 and ... and An] of operands parses to the tree
    nested to the left, [((A0 and A1) and ...) and An]. *)
Theorem and_is_left_associative (s : string) (t0 : list SreToken)
    (ts : list (list SreToken)) (a0 : SreASTNode) (asts : list SreASTNode) :
  operand_of t0 = Some a0 ->
  List.map operand_of ts = List.map Some asts ->
  tokens s = tapp (chain T_and t0 ts) TEnd ->
  parseRoot s = Ok (leftNested OpAnd a0 asts).
Proof. apply and_chain_parses. Qed.

Lemma and_is_left_associative_witness :
  parseRoot "a and 'b' and not c" =
  Ok (SreLogicalNode OpAnd
        (SreLogicalNode OpAnd (SreValueNode "a" false)
           (Some (SreValueNode "b" false)))
        (Some (SreLogicalNode OpNot (SreValueNode "c" false) None))).
Proof.
  apply (and_is_left_associative "a and 'b' and not c"
           [{| type := Identifier; text := "a" |}]
           [[{| type := StringLiteral; text := "b" |}];
            [T_not; {| type := Identifier; text := "c" |}]]
           (SreValueNode "a" false)
           [SreValueNode "b" false;
            SreLogicalNode OpNot (SreValueNode "c" false) None]);
    vm_compute; reflexivity.
Defined.

Lemma andLevel_mono F F' p :
  F <= F' -> le_res (andLevel F p) (andLevel F' p).
Proof.
  intros H. apply parseAnd_mono; [|exact H].
  intros q. now apply parseExpression_mono.
Qed.

Lemma andLevel_graft t rest F p a p' :
  type t <> And -> graftable t p -> andLevel F p = Ok (a, p') ->
  andLevel F (graftS t rest p) = Ok (a, graftS t rest p') /\
  graftable t p' /\ current p <> End.
Proof.
  intros Ht Hok Hrun.
  apply (parseAnd_graft t rest (parseExpression nextTrace F) F); auto.
  intros q b q'. apply parseExpression_graft.
Qed.

Lemma conjunction_inv ts a :
  conjunction_of ts = Some a ->
  exists x ts' p',
    ts = x :: ts' /\ type x <> End /\ noEnd (tapp ts' TEnd) = true /\
    andLevel (length ts) (parserAt x (tapp ts' TEnd)) = Ok (a, p') /\
    current p' = End.
Proof.
  unfold conjunction_of, complete, SreParser_new, advance.
  destruct ts as [|x ts']; [discriminate|].
  cbn [tapp fold_right nextTrace bind noEnd].
  fold (tapp ts' TEnd). fold (parserAt x (tapp ts' TEnd)).
  destruct (andLevel _ _) as [[b p']| | |] eqn:E; try discriminate.
  destruct (SreTokenType_eqb (current p') End) eqn:Ec; [|discriminate].
  destruct (SreTokenType_eqb (type x) End) eqn:Ex; [discriminate|].
  cbn [negb andb]. destruct (noEnd (tapp ts' TEnd)) eqn:En; [|discriminate].
  intros [= <-]. exists x, ts', p'.
  repeat split; auto;
    now apply SreTokenType_eqb_neq || apply SreTokenType_eqb_eq.
Qed.

Lemma conjunction_followed ts a t rest :
  conjunction_of ts = Some a -> type t <> LParen -> type t <> And ->
  exists x ts',
    ts = x :: ts' /\
    parsesTo andLevel (parserAt x (tapp ts' (TCons t rest))) a (parserAt t rest).
Proof.
  intros Hc Ht Hand.
  destruct (conjunction_inv ts a Hc)
    as (x & ts' & p' & -> & Hx & Hno & Hrun & Hend).
  exists x, ts'. split; [reflexivity|].
  assert (Hok : graftable t (parserAt x (tapp ts' TEnd)))
    by (split; [exact Hno | intros _; exact Ht]).
  destruct (andLevel_graft t rest _ _ _ _ Hand Hok Hrun) as (Hg & _).
  unfold graftS in Hg. unfold current at 1 in Hg.
  cbn [parserAt currentToken_ lexer_] in Hg.
  rewrite (proj2 (SreTokenType_eqb_neq _ _) Hx) in Hg.
  rewrite (proj2 (SreTokenType_eqb_eq _ _) Hend), graft_tapp in Hg.
  eapply parsesTo_run; [exact andLevel_mono | exact Hg].
Qed.

Lemma conjunction_last ts a :
  conjunction_of ts = Some a ->
  exists x ts' p',
    ts = x :: ts' /\ current p' = End /\
    parsesTo andLevel (parserAt x (tapp ts' TEnd)) a p'.
Proof.
  intros Hc.
  destruct (conjunction_inv ts a Hc)
    as (x & ts' & p' & -> & Hx & Hno & Hrun & Hend).
  exists x, ts', p'. repeat split; auto.
  eapply parsesTo_run; [exact andLevel_mono | exact Hrun].
Qed.

Lemma conjunction_then_or t a ts :
  conjunction_of t = Some a ->
  exists x t' p1,
    t = x :: t' /\
    parsesTo andLevel (parserAt x (tapp t' (remainder T_or ts))) a p1 /\
    reads T_or p1 ts.
Proof.
  intros Ha. destruct ts as [|t2 ts].
  - destruct (conjunction_last t a Ha) as (x & t' & p' & -> & Hend & P).
    exists x, t', p'. repeat split; auto.
  - rewrite remainder_cons.
    destruct (conjunction_followed t a T_or (tapp t2 (remainder T_or ts)) Ha)
      as (x & t' & -> & P); [discriminate | discriminate |].
    exists x, t', (parserAt T_or (tapp t2 (remainder T_or ts))).
    repeat split; auto.
Qed.

(** Every operand of [and] is, on its own, an operand of [or]. *)
Lemma operand_is_conjunction ts a :
  operand_of ts = Some a -> conjunction_of ts = Some a.
Proof.
  unfold operand_of, conjunction_of, complete.
  destruct (SreParser_new nextTrace (tapp ts TEnd)) as [p| | |];
    try discriminate.
  unfold andLevel, parseAnd. fold (notLevel (length ts)).
  destruct (notLevel (length ts) p) as [[b p']| | |]; try discriminate.
  destruct (SreTokenType_eqb (current p') End) eqn:E; [|discriminate].
  apply SreTokenType_eqb_eq in E. cbn [bind].
  rewrite parseAnd_loop_eq, E. cbn [SreTokenType_eqb].
  now rewrite E.
Qed.

Lemma or_chain_of_conjunctions s t0 ts a0 asts :
  conjunction_of t0 = Some a0 ->
  List.map conjunction_of ts = List.map Some asts ->
  tokens s = tapp (chain T_or t0 ts) TEnd ->
  parseRoot s = Ok (leftNested OpOr a0 asts).
Proof.
  intros H0 Hmap Hs.
  destruct (conjunction_then_or t0 a0 ts H0)
    as (x & t0' & p1 & E & [f1 Hf1] & R1).
  destruct (chain_loop T_or OpOr conjunction_of andLevel
              (fun F k => parseOr_loop nextTrace (parseExpression nextTrace F) F k)
              ltac:(discriminate)
              ltac:(intros; apply parseOr_loop_eq)
              conjunction_then_or ts asts a0 p1 Hmap R1)
    as (p' & Hend & [f2 Hf2]).
  eapply parseRoot_parsesTo; [exact (tokens_chain _ _ _ _ _ _ Hs E)|].
  apply parsesTo_expression.
  exists (f1 + f2). intros F HF. unfold orLevel, parseOr.
  fold (andLevel F). rewrite Hf1 by lia. cbn [bind]. apply Hf2; lia.
Qed.

(** X9: a chain [A0 or A1 or ... or An] parses to the tree nested to the
    left, [((A0 or A1) or ...) or An], where each [Ai] is an operand of
    [or]: anything the [and] level of the grammar accepts, a chain of
    [and] included. *)
Theorem or_is_left_associative (s : string) (t0 : list SreToken)
    (ts : list (list SreToken)) (a0 : SreASTNode) (asts : list SreASTNode) :
  conjunction_of t0 = Some a0 ->
  List.map conjunction_of ts = List.map Some asts ->
  tokens s = tapp (chain T_or t0 ts) TEnd ->
  parseRoot s = Ok (leftNested OpOr a0 asts).
Proof. apply or_chain_of_conjunctions. Qed.

Lemma or_is_left_associative_witness :
  parseRoot "a and b or c and not d or 'e'" =
  Ok (SreLogicalNode OpOr
        (SreLogicalNode OpOr
           (SreLogicalNode OpAnd (SreValueNode "a" false)
              (Some (SreValueNode "b" false)))
           (Some (SreLogicalNode OpAnd (SreValueNode "c" false)
                    (Some (SreLogicalNode OpNot (SreValueNode "d" false)
                             None)))))
        (Some (SreValueNode "e" false))).
Proof.
  apply (or_is_left_associative "a and b or c and not d or 'e'"
           [{| type := Identifier; text := "a" |}; T_and;
            {| type := Identifier; text := "b" |}]
           [[{| type := Identifier; text := "c" |}; T_and; T_not;
             {| type := Identifier; text := "d" |}];
            [{| type := StringLiteral; text := "e" |}]]
           (SreLogicalNode OpAnd (SreValueNode "a" false)
              (Some (SreValueNode "b" false)))
           [SreLogicalNode OpAnd (SreValueNode "c" false)
              (Some (SreLogicalNode OpNot (SreValueNode "d" false) None));
            SreValueNode "e" false]);
    vm_compute; reflexivity.
Defined.

(** X10: [and] skips its right operand when the left one is false: the
    expression [A and B] is false whenever [A] evaluates to false, even
    when evaluating [B] would raise an error. *)
Theorem and_short_circuits (e : SreRuleEngine) (ctx : SreContext)
    (s : string) (tA tB : list SreToken) (a b : SreASTNode) :
  operand_of tA = Some a -> operand_of tB = Some b ->
  tokens s = tapp (tA ++ T_and :: tB) TEnd ->
  evalBool ctx (functions_ e) a = Ok false ->
  evaluate e s ctx = Ok false.
Proof.
  intros HA HB Hs Ha.
  assert (Hp : parseRoot s = Ok (SreLogicalNode OpAnd a (Some b))).
  { apply (and_chain_parses s tA [tB] a [b] HA); [simpl; now rewrite HB|].
    unfold chain. simpl. now rewrite app_nil_r. }
  rewrite evaluate_parseRoot, Hp. cbn [bind evalBool]. now rewrite Ha.
Qed.

Lemma and_short_circuits_witness :
  evaluate SreRuleEngine_new "'' and frobnicate(#{missing})" ctx_ab = Ok false.
Proof.
  apply (and_short_circuits SreRuleEngine_new ctx_ab
           "'' and frobnicate(#{missing})"
           [{| type := StringLiteral; text := "" |}]
           [{| type := Identifier; text := "frobnicate" |}; T_lparen;
            {| type := Identifier; text := "#{missing}" |}; T_rparen]
           (SreValueNode "" false)
           (SreFunctionNode "frobnicate" [SreValueNode "missing" true]));
    vm_compute; reflexivity.
Defined.

(** X11: [or] skips its right operand when the left one is true: the
    expression [A or B] is true whenever [A] evaluates to true, even when
    evaluating [B] would raise an error. *)
Theorem or_short_circuits (e : SreRuleEngine) (ctx : SreContext)
    (s : string) (tA tB : list SreToken) (a b : SreASTNode) :
  operand_of tA = Some a -> operand_of tB = Some b ->
  tokens s = tapp (tA ++ T_or :: tB) TEnd ->
  evalBool ctx (functions_ e) a = Ok true ->
  evaluate e s ctx = Ok true.
Proof.
  intros HA HB Hs Ha.
  assert (Hp : parseRoot s = Ok (SreLogicalNode OpOr a (Some b))).
  { apply (or_chain_parses s tA [tB] a [b] HA); [simpl; now rewrite HB|].
    unfold chain. simpl. now rewrite app_nil_r. }
  rewrite evaluate_parseRoot, Hp. cbn [bind evalBool]. now rewrite Ha.
Qed.

Lemma or_short_circuits_witness :
  evaluate SreRuleEngine_new "'x' or frobnicate(#{missing})" ctx_ab = Ok true.
Proof.
  apply (or_short_circuits SreRuleEngine_new ctx_ab
           "'x' or frobnicate(#{missing})"
           [{| type := StringLiteral; text := "x" |}]
           [{| type := Identifier; text := "frobnicate" |}; T_lparen;
            {| type := Identifier; text := "#{missing}" |}; T_rparen]
           (SreValueNode "x" false)
           (SreFunctionNode "frobnicate" [SreValueNode "missing" true]));
    vm_compute; reflexivity.
Defined.

(** ** Whole expressions and parentheses *)

Lemma expression_inv ts a :
  expression_of ts = Some a ->
  exists x ts' p',
    ts = x :: ts' /\ type x <> End /\ noEnd (tapp ts' TEnd) = true /\
    parseExpression nextTrace (S (length ts)) (parserAt x (tapp ts' TEnd)) =
      Ok (a, p') /\
    current p' = End.
Proof.
  unfold expression_of, complete, exprLevel, SreParser_new, advance.
  destruct ts as [|x ts']; [discriminate|].
  cbn [tapp fold_right nextTrace bind noEnd].
  fold (tapp ts' TEnd). fold (parserAt x (tapp ts' TEnd)).
  destruct (parseExpression _ _ _) as [[b p']| | |] eqn:E; try discriminate.
  destruct (SreTokenType_eqb (current p') End) eqn:Ec; [|discriminate].
  destruct (SreTokenType_eqb (type x) End) eqn:Ex; [discriminate|].
  cbn [negb andb]. destruct (noEnd (tapp ts' TEnd)) eqn:En; [|discriminate].
  intros [= <-]. exists x, ts', p'.
  repeat split; auto; now apply SreTokenType_eqb_neq || apply SreTokenType_eqb_eq.
Qed.

Lemma expression_last ts a :
  expression_of ts = Some a ->
  exists x ts' p',
    ts = x :: ts' /\ current p' = End /\
    parsesTo (parseExpression nextTrace) (parserAt x (tapp ts' TEnd)) a p'.
Proof.
  intros Hc.
  destruct (expression_inv ts a Hc) as (x & ts' & p' & -> & Hx & Hno & Hrun & Hend).
  exists x, ts', p'. repeat split; auto.
  eapply parsesTo_run; [|exact Hrun].
  intros F F' p HF. now apply parseExpression_mono.
Qed.

Lemma expression_followed ts a t rest :
  expression_of ts = Some a ->
  type t <> LParen -> type t <> And -> type t <> Or ->
  exists x ts',
    ts = x :: ts' /\
    parsesTo (parseExpression nextTrace)
             (parserAt x (tapp ts' (TCons t rest))) a (parserAt t rest).
Proof.
  intros Hc Ht Hand Hor.
  destruct (expression_inv ts a Hc) as (x & ts' & p' & -> & Hx & Hno & Hrun & Hend).
  exists x, ts'. split; [reflexivity|].
  assert (Hok : graftable t (parserAt x (tapp ts' TEnd)))
    by (split; [exact Hno | intros _; exact Ht]).
  destruct (parseExpression_graft t rest _ _ _ _ Hok Hrun) as (Hg & _);
    [auto|].
  unfold graftS in Hg. unfold current at 1 in Hg.
  cbn [parserAt currentToken_ lexer_] in Hg.
  rewrite (proj2 (SreTokenType_eqb_neq _ _) Hx) in Hg.
  rewrite (proj2 (SreTokenType_eqb_eq _ _) Hend), graft_tapp in Hg.
  eapply parsesTo_run; [|exact Hg].
  intros F F' p HF. now apply parseExpression_mono.
Qed.

(** X12: parentheses leave no trace: a complete expression and the same
    expression between parentheses parse to the same tree, so [evaluate]
    does not tell them apart. *)
Theorem parentheses_are_transparent (s0 s : string) (ts : list SreToken)
    (a : SreASTNode) :
  expression_of ts = Some a ->
  tokens s0 = tapp ts TEnd ->
  tokens s = tapp (T_lparen :: ts ++ [T_rparen]) TEnd ->
  parseRoot s0 = Ok a /\ parseRoot s = Ok a /\
  forall (e : SreRuleEngine) (ctx : SreContext),
    evaluate e s ctx = evaluate e s0 ctx.
Proof.
  intros Hc Hs0 Hs.
  assert (H0 : parseRoot s0 = Ok a).
  { destruct (expression_last ts a Hc) as (x & ts' & p' & -> & Hend & P).
    eapply parseRoot_parsesTo; [exact Hs0 | exact P]. }
  assert (H1 : parseRoot s = Ok a).
  { destruct (expression_followed ts a T_rparen TEnd Hc)
      as (x & ts' & -> & P); try discriminate.
    simpl in Hs. rewrite tapp_app in Hs. simpl in Hs.
    eapply parseRoot_parsesTo; [exact Hs|].
    assert (PP : parsesTo primaryLevel
                   (parserAt T_lparen (TCons x (tapp ts' (TCons T_rparen TEnd))))
                   a (parserAt EndToken TEnd)).
    { eapply parsesTo_paren; [reflexivity | reflexivity | exact P
                              | reflexivity | reflexivity]. }
    apply parsesTo_expression.
    assert (PN := parsesTo_not_of_primary _ _ _ PP ltac:(discriminate)).
    assert (PA := parsesTo_and_one _ _ _ PN ltac:(discriminate)).
    exact (parsesTo_or_one _ _ _ PA ltac:(discriminate)). }
  repeat split; auto.
  intros e ctx. now rewrite !evaluate_parseRoot, H0, H1.
Qed.

Lemma parentheses_are_transparent_witness :
  evaluate SreRuleEngine_new "(contains(#{a}, 'ell') or not 'x')" ctx_ab =
  evaluate SreRuleEngine_new "contains(#{a}, 'ell') or not 'x'" ctx_ab.
Proof.
  apply (parentheses_are_transparent
           "contains(#{a}, 'ell') or not 'x'"
           "(contains(#{a}, 'ell') or not 'x')"
           [{| type := Identifier; text := "contains" |}; T_lparen;
            {| type := Identifier; text := "#{a}" |};
            {| type := Comma; text := "," |};
            {| type := StringLiteral; text := "ell" |}; T_rparen; T_or; T_not;
            {| type := StringLiteral; text := "x" |}]
           (SreLogicalNode OpOr
              (SreFunctionNode "contains"
                 [SreValueNode "a" true; SreValueNode "ell" false])
              (Some (SreLogicalNode OpNot (SreValueNode "x" false) None))));
    vm_compute; reflexivity.
Defined.

Lemma parseExpression_unclosed F p p1 a p' :
  current p = LParen -> advance nextTrace (lexer_ p) = Ok p1 ->
  parseExpression nextTrace F p1 = Ok (a, p') -> current p' = End ->
  parseExpression nextTrace (S F) p = Throw TokenTypeMismatch.
Proof.
  intros Hc Hadv Hrun Hend. cbn [parseExpression].
  unfold parseOr, parseAnd, parseNot. rewrite Hc. cbn [SreTokenType_eqb].
  unfold parsePrimary, consume. rewrite Hc. cbn [SreTokenType_eqb].
  rewrite Hadv. cbn [bind]. rewrite Hrun. cbn [bind]. rewrite Hend.
  reflexivity.
Qed.

(** X13: a parenthesis that is never closed is an error: an opening
    parenthesis followed by a complete expression and the end of the input
    raises "Expected token type mismatch". *)
Theorem unclosed_parenthesis_raises (e : SreRuleEngine) (ctx : SreContext)
    (s : string) (ts : list SreToken) (a : SreASTNode) :
  expression_of ts = Some a ->
  tokens s = tapp (T_lparen :: ts) TEnd ->
  evaluate e s ctx = Throw TokenTypeMismatch.
Proof.
  intros Hc Hs.
  destruct (expression_last ts a Hc) as (x & ts' & p' & -> & Hend & [f Hf]).
  rewrite (evaluate_parse e s ctx (S (Nat.max f (fuel_of s)))) by lia.
  rewrite Hs. unfold parse, SreParser_new, advance.
  cbn [tapp fold_right nextTrace bind].
  rewrite (parseExpression_unclosed _ _ (parserAt x (tapp ts' TEnd)) a p');
    [reflexivity | reflexivity | reflexivity | apply Hf; lia | exact Hend].
Qed.

Lemma unclosed_parenthesis_raises_witness :
  evaluate SreRuleEngine_new "(contains(#{a}, 'ell') or 'x'" ctx_ab =
  Throw TokenTypeMismatch.
Proof.
  apply (unclosed_parenthesis_raises SreRuleEngine_new ctx_ab
           "(contains(#{a}, 'ell') or 'x'"
           [{| type := Identifier; text := "contains" |}; T_lparen;
            {| type := Identifier; text := "#{a}" |};
            {| type := Comma; text := "," |};
            {| type := StringLiteral; text := "ell" |}; T_rparen; T_or;
            {| type := StringLiteral; text := "x" |}]
           (SreLogicalNode OpOr
              (SreFunctionNode "contains"
                 [SreValueNode "a" true; SreValueNode "ell" false])
              (Some (SreValueNode "x" false))));
    vm_compute; reflexivity.
Defined.

(** ** Where a primary is required *)

Lemma parsePrimary_no_start {Lexer : Type}
    (next : Lexer -> res (SreToken * Lexer)) pe n (p : SreParser Lexer) :
  isPrimaryStart (current p) = false ->
  parsePrimary next pe n p = Throw (UnexpectedToken (text (currentToken_ p))).
Proof.
  unfold parsePrimary. destruct (current p); try discriminate; reflexivity.
Qed.

Lemma parseExpression_no_start F (p : SreParser trace) :
  current p <> Not -> isPrimaryStart (current p) = false ->
  parseExpression nextTrace (S F) p =
  Throw (UnexpectedToken (text (currentToken_ p))).
Proof.
  intros Hnot Hstart. cbn [parseExpression].
  unfold parseOr, parseAnd, parseNot.
  rewrite (proj2 (SreTokenType_eqb_neq _ _) Hnot).
  now rewrite parsePrimary_no_start.
Qed.

Lemma parseExpression_not_no_start F (p p1 : SreParser trace) :
  current p = Not -> advance nextTrace (lexer_ p) = Ok p1 ->
  isPrimaryStart (current p1) = false ->
  parseExpression nextTrace (S F) p =
  Throw (UnexpectedToken (text (currentToken_ p1))).
Proof.
  intros Hnot Hadv Hstart. cbn [parseExpression].
  unfold parseOr, parseAnd, parseNot, consume. rewrite Hnot.
  cbn [SreTokenType_eqb]. rewrite Hadv. cbn [bind].
  now rewrite parsePrimary_no_start.
Qed.

Lemma parseExpression_lone_identifier F (p p1 : SreParser trace) :
  current p = Identifier -> advance nextTrace (lexer_ p) = Ok p1 ->
  current p1 = End ->
  parseExpression nextTrace (S F) p =
  Ok (SreValueNode (variableName (text (currentToken_ p)))
        (contains_char "#" (text (currentToken_ p))), p1).
Proof.
  intros Hid Hadv Hend. cbn [parseExpression].
  unfold parseOr, parseAnd, parseNot, parsePrimary, consume. rewrite Hid.
  cbn [SreTokenType_eqb]. rewrite Hadv. cbn [bind]. rewrite Hend.
  cbn [SreTokenType_eqb bind].
  rewrite parseAnd_loop_eq, Hend. cbn [SreTokenType_eqb bind].
  rewrite parseOr_loop_eq, Hend. reflexivity.
Qed.

(** X14: an expression cannot begin with a token other than [not], an
    opening parenthesis, an identifier or a string literal: the engine
    raises "Unexpected token" with the lexeme of that token; on an input
    without any token the lexeme is empty. *)
Theorem expression_needs_a_primary (e : SreRuleEngine) (ctx : SreContext)
    (s : string) (t : SreToken) (rest : trace) :
  nextTrace (tokens s) = Ok (t, rest) ->
  type t <> Not -> isPrimaryStart (type t) = false ->
  evaluate e s ctx = Throw (UnexpectedToken (text t)).
Proof.
  intros Hs Hnot Hstart.
  rewrite (evaluate_parse e s ctx (fuel_of s)) by lia.
  unfold parse, SreParser_new, advance. rewrite Hs.
  unfold fuel_of. cbn [bind].
  now rewrite parseExpression_no_start.
Qed.

Lemma expression_needs_a_primary_witness :
  evaluate SreRuleEngine_new "" ctx_ab = Throw (UnexpectedToken "") /\
  evaluate SreRuleEngine_new "AND 'x'" ctx_ab = Throw (UnexpectedToken "AND").
Proof.
  split.
  - apply (expression_needs_a_primary SreRuleEngine_new ctx_ab "" EndToken
             TEnd); [reflexivity | discriminate | reflexivity].
  - apply (expression_needs_a_primary SreRuleEngine_new ctx_ab "AND 'x'"
             {| type := And; text := "AND" |}
             (TCons {| type := StringLiteral; text := "x" |} TEnd));
      [reflexivity | discriminate | reflexivity].
Defined.

(** X15: [not] takes a primary, not another [not]-expression: when the
    token after a [not] is not an opening parenthesis, an identifier or a
    string literal (as in [not not x]), the engine raises "Unexpected
    token" with the lexeme of that token. *)
Theorem not_needs_a_primary (e : SreRuleEngine) (ctx : SreContext)
    (s : string) (t1 t2 : SreToken) (tr rest : trace) :
  tokens s = TCons t1 tr -> type t1 = Not ->
  nextTrace tr = Ok (t2, rest) ->
  isPrimaryStart (type t2) = false ->
  evaluate e s ctx = Throw (UnexpectedToken (text t2)).
Proof.
  intros Hs Hnot Htr Hstart.
  rewrite (evaluate_parse e s ctx (fuel_of s)) by lia.
  unfold parse, SreParser_new, advance. rewrite Hs.
  unfold fuel_of. cbn [nextTrace bind].
  rewrite (parseExpression_not_no_start _ _ (parserAt t2 rest));
    [reflexivity | exact Hnot | | exact Hstart].
  unfold advance. cbn [lexer_]. now rewrite Htr.
Qed.

Lemma not_needs_a_primary_witness :
  evaluate SreRuleEngine_new "not not 'x'" ctx_ab =
  Throw (UnexpectedToken "not").
Proof.
  apply (not_needs_a_primary SreRuleEngine_new ctx_ab "not not 'x'"
           T_not T_not
           (TCons T_not (TCons {| type := StringLiteral; text := "x" |} TEnd))
           (TCons {| type := StringLiteral; text := "x" |} TEnd));
    reflexivity.
Defined.

(** X16: an input made of one identifier is a value: a variable looked up
    in the context when the lexeme contains [#], otherwise the lexeme
    itself without its braces; it is true exactly when that string is not
    empty. *)
Theorem lone_identifier_value (e : SreRuleEngine) (ctx : SreContext)
    (s : string) (t : SreToken) :
  tokens s = TCons t TEnd -> type t = Identifier ->
  parseRoot s =
    Ok (SreValueNode (variableName (text t)) (contains_char "#" (text t))) /\
  evaluate e s ctx =
    (if contains_char "#" (text t) then
       match ctx !! variableName (text t) with
       | Some v => Ok (negb (empty v))
       | None => Throw (VariableNotFound (variableName (text t)))
       end
     else Ok (negb (empty (variableName (text t))))).
Proof.
  intros Hs Ht.
  assert (Hp : parseRoot s =
    Ok (SreValueNode (variableName (text t)) (contains_char "#" (text t)))).
  { rewrite (parseRoot_parse s (fuel_of s)) by lia.
    unfold parse, SreParser_new, advance. rewrite Hs.
    unfold fuel_of. cbn [nextTrace bind].
    rewrite (parseExpression_lone_identifier _ _ (parserAt EndToken TEnd));
      [reflexivity | exact Ht | reflexivity | reflexivity]. }
  split; [exact Hp|]. rewrite evaluate_parseRoot, Hp.
  cbn [bind evalBool evalString].
  destruct (contains_char "#" (text t)); [|reflexivity].
  now destruct (ctx !! variableName (text t)).
Qed.

Lemma lone_identifier_value_witness :
  evaluate SreRuleEngine_new "{}" ctx_ab = Ok false /\
  evaluate SreRuleEngine_new "#a" ctx_ab = Ok true.
Proof.
  split.
  - apply (proj2 (lone_identifier_value SreRuleEngine_new ctx_ab "{}"
                    {| type := Identifier; text := "{}" |} eq_refl eq_refl)).
  - apply (proj2 (lone_identifier_value SreRuleEngine_new ctx_ab "#a"
                    {| type := Identifier; text := "#a" |} eq_refl eq_refl)).
Defined.

(** ** The name of a variable *)

Lemma contains_char_cons c d s :
  contains_char c (String d s) = Ascii.eqb c d || contains_char c s.
Proof. reflexivity. Qed.

Lemma remove_char_cons c d s :
  remove_char c (String d s) =
  if Ascii.eqb d c then remove_char c s else String d (remove_char c s).
Proof. reflexivity. Qed.

Lemma remove_char_absent c s :
  contains_char c s = false -> remove_char c s = s.
Proof.
  induction s as [|d s IH]; [reflexivity|].
  rewrite contains_char_cons, remove_char_cons. intros H.
  apply orb_false_iff in H as [Hd Hs].
  rewrite Ascii.eqb_sym, Hd. now rewrite IH.
Qed.

Lemma contains_remove_char c d s :
  contains_char d (remove_char c s) =
  if Ascii.eqb d c then false else contains_char d s.
Proof.
  induction s as [|x s IH].
  - now destruct (Ascii.eqb d c).
  - rewrite remove_char_cons, contains_char_cons.
    destruct (Ascii.eqb x c) eqn:Exc.
    + rewrite IH. destruct (Ascii.eqb d c) eqn:Edc; [reflexivity|].
      apply Ascii.eqb_eq in Exc. subst x. now rewrite Edc.
    + rewrite contains_char_cons, IH.
      destruct (Ascii.eqb d c) eqn:Edc; [|reflexivity].
      apply Ascii.eqb_eq in Edc. subst d.
      rewrite Ascii.eqb_sym, Exc. reflexivity.
Qed.

Lemma remove_char_app c s t :
  remove_char c (s +:+ t) = remove_char c s +:+ remove_char c t.
Proof.
  induction s as [|d s IH]; [reflexivity|].
  change (String d s +:+ t) with (String d (s +:+ t)).
  rewrite !remove_char_cons, IH. now destruct (Ascii.eqb d c).
Qed.

(** X17: the spelling [#{name}] denotes [name]: for every name free of
    [#], [{] and [}], the lexeme [#{name}] is a variable reference and
    stripping gives back the name. *)
Theorem variable_spelling_round_trip (name : string) :
  plainName name = true ->
  contains_char "#" ("#{" +:+ name +:+ "}") = true /\
  variableName ("#{" +:+ name +:+ "}") = name.
Proof.
  unfold plainName. rewrite !andb_true_iff, !negb_true_iff.
  intros [[Hh Ho] Hc]. split; [reflexivity|].
  unfold variableName.
  change ("#{" +:+ name +:+ "}")
    with (String "#" (String "{" (name +:+ "}"))).
  rewrite remove_char_cons. cbn [Ascii.eqb Bool.eqb].
  rewrite remove_char_cons. cbn [Ascii.eqb Bool.eqb].
  rewrite remove_char_app, (remove_char_absent _ _ Hh).
  change (remove_char "#" "}") with "}".
  rewrite remove_char_cons. cbn [Ascii.eqb Bool.eqb].
  rewrite remove_char_app, (remove_char_absent _ _ Ho).
  change (remove_char "{" "}") with "}".
  rewrite remove_char_app, (remove_char_absent _ _ Hc).
  change (remove_char "}" "}") with "". apply app_string_empty_r.
Qed.

Lemma variable_spelling_round_trip_witness :
  variableName ("#{" +:+ "subject" +:+ "}") = "subject".
Proof.
  apply (proj2 (variable_spelling_round_trip "subject" eq_refl)).
Defined.

(** X18: stripping is thorough and lossy: the name obtained from any
    lexeme holds none of [#], [{], [}], wherever they stood, so stripping
    again changes nothing and lexemes such as [a#b] and [#{ab}] name the
    same variable. *)
Theorem variable_name_is_plain (lexeme : string) :
  plainName (variableName lexeme) = true /\
  variableName (variableName lexeme) = variableName lexeme.
Proof.
  assert (Hplain : plainName (variableName lexeme) = true).
  { unfold plainName, variableName. rewrite !contains_remove_char.
    reflexivity. }
  split; [exact Hplain|].
  unfold plainName in Hplain.
  rewrite !andb_true_iff, !negb_true_iff in Hplain.
  destruct Hplain as [[Hh Ho] Hc].
  unfold variableName at 1.
  now rewrite (remove_char_absent _ _ Hh), (remove_char_absent _ _ Ho),
    (remove_char_absent _ _ Hc).
Qed.

(** ** More on the lexer *)

Lemma advanceWhile_stops keep input n pos c :
  String.length input - pos <= n ->
  String.get (advanceWhile keep input n pos) input = Some c ->
  keep c = false.
Proof.
  revert pos. induction n as [|n IH]; intros pos Hn; simpl.
  - intros H. rewrite get_None_ge in H by lia. discriminate.
  - destruct (String.get pos input) as [d|] eqn:Ed.
    + destruct (keep d) eqn:Ek.
      * apply IH. lia.
      * intros H. congruence.
    + intros H. congruence.
Qed.

Lemma substring_zero n s : substring n 0 s = "".
Proof.
  revert n. induction s as [|c s IH]; intros [|n]; simpl; auto.
Qed.

Lemma substring_get n m s c :
  String.get n s = Some c ->
  substring n (S m) s = String c (substring (S n) m s).
Proof.
  revert n. induction s as [|d s IH]; intros [|n]; simpl; try discriminate.
  - intros [= ->]. destruct s; reflexivity.
  - intros H. rewrite (IH n H). reflexivity.
Qed.

(** The loop pushes exactly the characters it passes over, and they all
    satisfy [keep]. *)
Lemma pushWhile_spec keep input n s pos :
  let pos' := advanceWhile keep input n pos in
  pushWhile keep input n s pos =
    (s +:+ substring pos (pos' - pos) input, pos') /\
  forallb keep (list_ascii_of_string (substring pos (pos' - pos) input)) = true.
Proof.
  revert s pos. induction n as [|n IH]; intros s pos; simpl.
  - rewrite Nat.sub_diag, substring_zero, app_string_empty_r. auto.
  - destruct (String.get pos input) as [c|] eqn:Ec.
    + destruct (keep c) eqn:Ek.
      * destruct (IH (push_back s c) (S pos)) as [Hp Hall].
        pose proof (advanceWhile_ge keep input n (S pos)) as Hge.
        replace (advanceWhile keep input n (S pos) - pos)
          with (S (advanceWhile keep input n (S pos) - S pos)) by lia.
        rewrite (substring_get _ _ _ _ Ec). split.
        -- rewrite Hp. unfold push_back. now rewrite app_string_assoc.
        -- simpl. now rewrite Ek, Hall.
      * rewrite Nat.sub_diag, substring_zero, app_string_empty_r. auto.
    + rewrite Nat.sub_diag, substring_zero, app_string_empty_r. auto.
Qed.

Lemma length_substring_run keep input n pos :
  String.length
    (substring pos (advanceWhile keep input n pos - pos) input) =
  advanceWhile keep input n pos - pos.
Proof.
  revert pos. induction n as [|n IH]; intros pos; simpl.
  - now rewrite Nat.sub_diag, substring_zero.
  - destruct (String.get pos input) as [c|] eqn:Ec.
    + destruct (keep c).
      * pose proof (advanceWhile_ge keep input n (S pos)) as Hge.
        replace (advanceWhile keep input n (S pos) - pos)
          with (S (advanceWhile keep input n (S pos) - S pos)) by lia.
        rewrite (substring_get _ _ _ _ Ec). simpl. now rewrite IH.
      * now rewrite Nat.sub_diag, substring_zero.
    + now rewrite Nat.sub_diag, substring_zero.
Qed.

(** X19: the lexer throws only "Unexpected character", and exactly when
    the first character after the whitespace is none of those that begin a
    token: a letter, [#], [{], [}], a quote, a comma or a parenthesis. *)
Theorem lexer_error_characterised (l : SreLexer) (e : exn) :
  nextToken l = Throw e <->
  exists c,
    e = UnexpectedCharacter c /\
    String.get (pos_ (skipWhitespace l)) (input_ l) = Some c /\
    isspace c = false /\ isIdentStart c = false /\
    Ascii.eqb c "'" = false /\ Ascii.eqb c "," = false /\
    Ascii.eqb c "(" = false /\ Ascii.eqb c ")" = false.
Proof.
  unfold nextToken. cbn [input_ pos_ skipWhitespace].
  set (pos := advanceWhile isspace (input_ l)
                (String.length (input_ l) - pos_ l) (pos_ l)).
  destruct (String.get pos (input_ l)) as [c|] eqn:Ec.
  2:{ split; [discriminate | now intros (c & _ & [=] & _)]. }
  assert (Hsp : isspace c = false).
  { apply (advanceWhile_stops isspace (input_ l)
             (String.length (input_ l) - pos_ l) (pos_ l)); [lia|].
    exact Ec. }
  destruct (isIdentStart c) eqn:E1.
  { destruct (pushWhile _ _ _ _ _).
    split; [discriminate|]. intros (c' & _ & [= <-] & _ & H & _). congruence. }
  destruct (Ascii.eqb c "'") eqn:E2.
  { destruct (pushWhile _ _ _ _ _).
    split; [discriminate|].
    intros (c' & _ & [= <-] & _ & _ & H & _). congruence. }
  destruct (Ascii.eqb c ",") eqn:E3.
  { split; [discriminate|].
    intros (c' & _ & [= <-] & _ & _ & _ & H & _). congruence. }
  destruct (Ascii.eqb c "(") eqn:E4.
  { split; [discriminate|].
    intros (c' & _ & [= <-] & _ & _ & _ & _ & H & _). congruence. }
  destruct (Ascii.eqb c ")") eqn:E5.
  { split; [discriminate|].
    intros (c' & _ & [= <-] & _ & _ & _ & _ & _ & H). congruence. }
  split.
  - intros [= <-]. exists c. repeat split; auto.
  - intros (c' & -> & [= <-] & _). reflexivity.
Qed.

Lemma nextToken_pos_le l t l' :
  nextToken l = Ok (t, l') -> pos_ l <= pos_ l'.
Proof.
  unfold nextToken. cbn [input_ pos_ skipWhitespace].
  pose proof (advanceWhile_ge isspace (input_ l)
                (String.length (input_ l) - pos_ l) (pos_ l)) as Hge.
  set (pos := advanceWhile _ _ _ _) in *.
  destruct (String.get pos (input_ l)) as [c|] eqn:Hc.
  2:{ now intros [= <- <-]. }
  destruct (isIdentStart c).
  { destruct (pushWhile _ _ _ _ _) as [s pos'] eqn:Hp.
    intros [= <- <-]. simpl.
    pose proof (pushWhile_pos isIdentPart (input_ l)
                  (String.length (input_ l) - pos) "" pos) as Hs.
    rewrite Hp in Hs. simpl in Hs. subst pos'.
    pose proof (advanceWhile_ge isIdentPart (input_ l)
                  (String.length (input_ l) - pos) pos). lia. }
  destruct (Ascii.eqb c "'").
  { destruct (pushWhile _ _ _ _ _) as [s pos'] eqn:Hp.
    intros [= <- <-]. simpl.
    pose proof (pushWhile_pos notQuote (input_ l)
                  (String.length (input_ l) - S pos) "" (S pos)) as Hs.
    rewrite Hp in Hs. simpl in Hs. subst pos'.
    pose proof (advanceWhile_ge notQuote (input_ l)
                  (String.length (input_ l) - S pos) (S pos)). lia. }
  repeat match goal with
         | |- context [if ?b then _ else _] => destruct b
         end; try discriminate; intros [= <- <-]; simpl; lia.
Qed.

(** X20: a token never moves the lexer backwards nor changes its input;
    every token other than [End] moves it strictly forwards, and once [End]
    is returned it is returned again, from the same state, ever after. *)
Theorem lexer_moves_forward (l l' : SreLexer) (t : SreToken) :
  nextToken l = Ok (t, l') ->
  input_ l' = input_ l /\ pos_ l <= pos_ l' /\
  (type t <> End -> pos_ l < pos_ l' /\ pos_ l < String.length (input_ l)) /\
  (type t = End ->
   t = EndToken /\ String.length (input_ l) <= pos_ l' /\
   nextToken l' = Ok (t, l')).
Proof.
  intros H. split; [exact (nextToken_input _ _ _ H)|].
  split; [exact (nextToken_pos_le _ _ _ H)|]. split.
  - intros Hne. pose proof (nextToken_progress _ _ _ H Hne) as Hlt.
    unfold lexer_size in Hlt. rewrite (nextToken_input _ _ _ H) in Hlt. lia.
  - intros He. destruct (nextToken_End _ _ _ H He) as [-> Hsize].
    split; [reflexivity|]. split.
    + unfold lexer_size in Hsize. rewrite (nextToken_input _ _ _ H) in Hsize.
      lia.
    + now apply nextToken_at_end.
Qed.

Lemma lexer_moves_forward_witness :
  pos_ (SreLexer_new "  and x") < 5 /\
  nextToken {| input_ := "x  "; pos_ := 1 |} =
    Ok (EndToken, {| input_ := "x  "; pos_ := 3 |}) /\
  nextToken {| input_ := "x  "; pos_ := 3 |} =
    Ok (EndToken, {| input_ := "x  "; pos_ := 3 |}).
Proof.
  split; [|split].
  - apply (proj1 (proj1 (proj2 (proj2
      (lexer_moves_forward (SreLexer_new "  and x")
         {| input_ := "  and x"; pos_ := 5 |}
         {| type := And; text := "and" |} eq_refl)))
      ltac:(discriminate))).
  - reflexivity.
  - apply (proj2 (proj2 (proj2 (proj2 (proj2
      (lexer_moves_forward {| input_ := "x  "; pos_ := 1 |}
         {| input_ := "x  "; pos_ := 3 |} EndToken eq_refl))) eq_refl))).
Defined.

(** X21: the lexeme of an identifier or keyword token is the longest run
    of identifier characters of the input that starts where the skipped
    whitespace ends: it is the substring of its length from there, it
    begins with a character that can start an identifier, it holds
    identifier characters only, the lexer stops right behind it, and what
    comes there is the end of the input or a character that cannot
    continue an identifier. *)
Theorem word_lexeme (l l' : SreLexer) (t : SreToken) :
  nextToken l = Ok (t, l') -> isWord (type t) = true ->
  let start := pos_ (skipWhitespace l) in
  text t = substring start (String.length (text t)) (input_ l) /\
  pos_ l' = start + String.length (text t) /\
  (exists c, String.get start (input_ l) = Some c /\ isIdentStart c = true) /\
  forallb isIdentPart (list_ascii_of_string (text t)) = true /\
  match String.get (pos_ l') (input_ l) with
  | Some c => isIdentPart c = false
  | None => True
  end.
Proof.
  unfold nextToken. cbn [input_ pos_ skipWhitespace].
  set (pos := advanceWhile isspace (input_ l)
                (String.length (input_ l) - pos_ l) (pos_ l)).
  destruct (String.get pos (input_ l)) as [c|] eqn:Ec.
  2:{ intros [= <- <-]. discriminate. }
  destruct (isIdentStart c) eqn:E1.
  - destruct (pushWhile_spec isIdentPart (input_ l)
                (String.length (input_ l) - pos) "" pos) as [Hp Hall].
    cbv zeta in Hp, Hall. rewrite Hp.
    intros [= <- <-] _. cbn [type text pos_].
    pose proof (length_substring_run isIdentPart (input_ l)
                  (String.length (input_ l) - pos) pos) as Hlen.
    pose proof (get_Some_lt _ _ _ Ec) as Hlt.
    pose proof (advanceWhile_ge isIdentPart (input_ l)
                  (String.length (input_ l) - pos) pos) as Hge.
    pose proof (advanceWhile_stops isIdentPart (input_ l)
                  (String.length (input_ l) - pos) pos) as Hstop.
    set (pos' := advanceWhile isIdentPart (input_ l)
                   (String.length (input_ l) - pos) pos) in *.
    change ("" +:+ substring pos (pos' - pos) (input_ l))
      with (substring pos (pos' - pos) (input_ l)).
    rewrite Hlen.
    split; [reflexivity|]. split; [lia|].
    split; [exists c; split; [reflexivity | exact E1]|].
    split; [exact Hall|].
    destruct (String.get pos' (input_ l)) as [d|] eqn:Ed; [|exact I].
    apply (Hstop d); [lia | reflexivity].
  - destruct (Ascii.eqb c "'").
    { destruct (pushWhile _ _ _ _ _). intros [= <- <-]. discriminate. }
    repeat match goal with
           | |- context [if ?b then _ else _] => destruct b
           end; try discriminate; intros [= <- <-]; discriminate.
Qed.

Lemma word_lexeme_witness :
  text {| type := Identifier; text := "Abc1#" |} =
  substring 2 5 "  Abc1#,x".
Proof.
  apply (proj1 (word_lexeme (SreLexer_new "  Abc1#,x")
                  {| input_ := "  Abc1#,x"; pos_ := 7 |}
                  {| type := Identifier; text := "Abc1#" |} eq_refl eq_refl)).
Defined.

(** ** The lexer on a text that follows another *)

Lemma advanceWhile_shift keep pre s n pos :
  advanceWhile keep (pre +:+ s) n (String.length pre + pos) =
  String.length pre + advanceWhile keep s n pos.
Proof.
  revert pos. induction n as [|n IH]; intros pos; simpl; [reflexivity|].
  rewrite get_app_r. destruct (String.get pos s) as [c|]; [|reflexivity].
  destruct (keep c); [|reflexivity].
  rewrite <- IH. f_equal. lia.
Qed.

Lemma pushWhile_shift keep pre s n acc pos :
  pushWhile keep (pre +:+ s) n acc (String.length pre + pos) =
  (fst (pushWhile keep s n acc pos),
   String.length pre + snd (pushWhile keep s n acc pos)).
Proof.
  revert acc pos. induction n as [|n IH]; intros acc pos; simpl;
    [reflexivity|].
  rewrite get_app_r. destruct (String.get pos s) as [c|]; [|reflexivity].
  destruct (keep c); [|reflexivity].
  rewrite <- IH. f_equal. lia.
Qed.

Lemma nextToken_shift pre l :
  nextToken (shiftLexer pre l) =
  mapRes (fun x => (fst x, shiftLexer pre (snd x))) id (nextToken l).
Proof.
  unfold nextToken, skipWhitespace, shiftLexer. cbn [input_ pos_].
  rewrite length_app_string.
  replace (String.length pre + String.length (input_ l) -
           (String.length pre + pos_ l))
    with (String.length (input_ l) - pos_ l) by lia.
  rewrite !advanceWhile_shift, get_app_r.
  set (pos := advanceWhile isspace (input_ l)
                (String.length (input_ l) - pos_ l) (pos_ l)).
  destruct (String.get pos (input_ l)) as [c|]; [|reflexivity].
  destruct (isIdentStart c).
  { replace (String.length pre + String.length (input_ l) -
             (String.length pre + pos))
      with (String.length (input_ l) - pos) by lia.
    rewrite pushWhile_shift.
    now destruct (pushWhile isIdentPart (input_ l) _ "" pos). }
  destruct (Ascii.eqb c "'").
  { replace (String.length pre + String.length (input_ l) -
             S (String.length pre + pos))
      with (String.length (input_ l) - S pos) by lia.
    replace (S (String.length pre + pos))
      with (String.length pre + S pos) by lia.
    rewrite pushWhile_shift.
    destruct (pushWhile notQuote (input_ l) _ "" (S pos)).
    cbn [fst snd mapRes input_ pos_]. now rewrite Nat.add_succ_r. }
  repeat match goal with
         | |- context [if ?b then _ else _] => destruct b
         end; cbn [fst snd mapRes input_ pos_]; rewrite ?Nat.add_succ_r;
    reflexivity.
Qed.

Lemma trace_from_shift pre n l :
  trace_from n (shiftLexer pre l) = trace_from n l.
Proof.
  revert l. induction n as [|n IH]; intros l; [reflexivity|]. simpl.
  rewrite nextToken_shift.
  destruct (nextToken l) as [[t l']|e| |]; simpl; try reflexivity.
  - now rewrite IH.
  - now destruct e.
Qed.

(** What the lexer yields on [r] it yields on [pre +:+ r] from the
    position where [r] begins. *)
Lemma trace_of_shift pre l : trace_of (shiftLexer pre l) = trace_of l.
Proof.
  unfold trace_of.
  replace (lexer_size (shiftLexer pre l)) with (lexer_size l).
  - apply trace_from_shift.
  - unfold lexer_size, shiftLexer. simpl. rewrite length_app_string. lia.
Qed.

Lemma trace_of_suffix pre r :
  trace_of {| input_ := pre +:+ r; pos_ := String.length pre |} = tokens r.
Proof.
  unfold tokens. rewrite <- (trace_of_shift pre (SreLexer_new r)).
  unfold shiftLexer, SreLexer_new. cbn [input_ pos_].
  now rewrite Nat.add_0_r.
Qed.

Lemma advanceWhile_all keep pre ws s n :
  forallb keep (list_ascii_of_string ws) = true ->
  advanceWhile keep (pre +:+ (ws +:+ s)) (String.length ws + n)
    (String.length pre) =
  advanceWhile keep (pre +:+ (ws +:+ s)) n
    (String.length pre + String.length ws).
Proof.
  revert pre. induction ws as [|c ws IH]; intros pre Hall.
  - simpl. now rewrite Nat.add_0_r.
  - simpl in Hall. apply andb_true_iff in Hall as [Hc Hws].
    cbn [String.length Nat.add advanceWhile].
    replace (String.length pre) with (String.length pre + 0) at 1 by lia.
    rewrite get_app_r. cbn [String.append String.get]. rewrite Hc.
    specialize (IH (pre +:+ String c "") Hws).
    rewrite app_string_assoc, length_app_string in IH. simpl in IH.
    replace (String.length pre + 1) with (S (String.length pre)) in IH by lia.
    rewrite IH. f_equal. lia.
Qed.

Lemma tokens_leading_whitespace ws s :
  forallb isspace (list_ascii_of_string ws) = true ->
  tokens (ws +:+ s) = tokens s.
Proof.
  intros Hws. rewrite <- (trace_of_suffix ws s).
  unfold tokens. rewrite !trace_of_unfold.
  assert (E : nextToken (SreLexer_new (ws +:+ s)) =
              nextToken {| input_ := ws +:+ s; pos_ := String.length ws |}).
  { unfold nextToken, skipWhitespace, SreLexer_new. cbn [input_ pos_].
    assert (Hpos :
      advanceWhile isspace (ws +:+ s) (String.length (ws +:+ s) - 0) 0 =
      advanceWhile isspace (ws +:+ s)
        (String.length (ws +:+ s) - String.length ws) (String.length ws)).
    { pose proof (advanceWhile_all isspace "" ws s (String.length s) Hws) as H.
      simpl in H. rewrite length_app_string, Nat.sub_0_r.
      replace (String.length ws + String.length s - String.length ws)
        with (String.length s) by lia.
      exact H. }
    now rewrite Hpos. }
  now rewrite E.
Qed.

(** X22: whitespace before an expression is ignored: for every run [ws] of
    whitespace characters, [evaluate] on [ws] followed by [s] is
    [evaluate] on [s]. *)
Theorem leading_whitespace_ignored (e : SreRuleEngine) (ctx : SreContext)
    (ws s : string) :
  forallb isspace (list_ascii_of_string ws) = true ->
  evaluate e (ws +:+ s) ctx = evaluate e s ctx.
Proof.
  intros Hws.
  set (F := Nat.max (fuel_of (ws +:+ s)) (fuel_of s)).
  rewrite (evaluate_parse e (ws +:+ s) ctx F), (evaluate_parse e s ctx F)
    by lia.
  now rewrite (tokens_leading_whitespace ws s Hws).
Qed.

Lemma leading_whitespace_ignored_witness :
  evaluate SreRuleEngine_new (" " +:+ "contains(#{a}, 'ell')") ctx_ab =
  evaluate SreRuleEngine_new "contains(#{a}, 'ell')" ctx_ab.
Proof.
  apply (leading_whitespace_ignored SreRuleEngine_new ctx_ab " "
           "contains(#{a}, 'ell')"). reflexivity.
Defined.

(** X23: an input of whitespace only, the empty input included, has no
    token: [evaluate] raises "Unexpected token" with an empty lexeme. *)
Theorem blank_input_raises (e : SreRuleEngine) (ctx : SreContext)
    (ws : string) :
  forallb isspace (list_ascii_of_string ws) = true ->
  tokens ws = TEnd /\
  evaluate e ws ctx = Throw (UnexpectedToken "").
Proof.
  intros Hws.
  assert (Ht : tokens ws = TEnd).
  { pose proof (tokens_leading_whitespace ws "" Hws) as H.
    rewrite app_string_empty_r in H. rewrite H. reflexivity. }
  split; [exact Ht|].
  rewrite (evaluate_parse e ws ctx (fuel_of ws)) by lia.
  rewrite Ht. unfold parse, SreParser_new, advance, fuel_of.
  cbn [nextTrace bind].
  rewrite parseExpression_no_start; [reflexivity | discriminate | reflexivity].
Qed.

Lemma blank_input_raises_witness :
  evaluate SreRuleEngine_new "   " ctx_ab = Throw (UnexpectedToken "").
Proof.
  apply (proj2 (blank_input_raises SreRuleEngine_new ctx_ab "   " eq_refl)).
Defined.

(** ** The shape of the trees the parser builds

    [SreLogicalNode] is constructed in three places: by [parseOr] and
    [parseAnd] with both children, by [parseNot] with the left child only.
    [evalBool] reads [right_] for [And] and [Or] only, so that the null
    [right_] of a [Not] node is never dereferenced. *)

Lemma ensures_bind {A B : Type} (P : A -> Prop) (Q : B -> Prop)
    (r : res A) (k : A -> res B) :
  ensures P r -> (forall a, P a -> ensures Q (k a)) -> ensures Q (bind r k).
Proof. destruct r; simpl; auto. Qed.

Section WellFormed.
Context {Lexer : Type} (next : Lexer -> res (SreToken * Lexer)).
Hypothesis next_sound : forall l, next l <> NullDeref.

Lemma consume_ensures ty p : ensures (fun _ => True) (consume next ty p).
Proof.
  unfold consume, advance. destruct (SreTokenType_eqb (current p) ty);
    [|exact I].
  pose proof (next_sound (lexer_ p)).
  destruct (next (lexer_ p)) as [[t l]| | |]; simpl; auto.
Qed.

Let wf (x : SreASTNode * SreParser Lexer) : Prop := wellFormed (fst x) = true.
Let wfL (x : list SreASTNode * SreParser Lexer) : Prop :=
  forallb wellFormed (fst x) = true.

Variable pe : SreParser Lexer -> res (SreASTNode * SreParser Lexer).
Hypothesis Hpe : forall q, ensures wf (pe q).

Lemma parseArgs_loop_wellFormed k args p :
  forallb wellFormed args = true ->
  ensures wfL (parseArgs_loop next pe k args p).
Proof.
  revert args p. induction k as [|k IH]; intros args p Hargs;
    rewrite parseArgs_loop_eq;
    destruct (SreTokenType_eqb (current p) Comma); try exact Hargs;
    try exact I.
  eapply ensures_bind; [apply consume_ensures|]. intros p1 _.
  eapply ensures_bind; [apply Hpe|]. intros [a p2] Ha.
  apply IH. rewrite forallb_app, Hargs. simpl. unfold wf in Ha.
  simpl in Ha. now rewrite Ha.
Qed.

Lemma parsePrimary_wellFormed n p : ensures wf (parsePrimary next pe n p).
Proof.
  unfold parsePrimary. destruct (current p); try exact I.
  - eapply ensures_bind; [apply consume_ensures|]. intros p1 _.
    destruct (SreTokenType_eqb (current p1) LParen); [|reflexivity].
    eapply ensures_bind; [apply consume_ensures|]. intros p2 _.
    eapply ensures_bind with (P := wfL).
    + destruct (negb (SreTokenType_eqb (current p2) RParen)); [|reflexivity].
      eapply ensures_bind; [apply Hpe|]. intros [a p3] Ha.
      apply parseArgs_loop_wellFormed. simpl. unfold wf in Ha.
      simpl in Ha. now rewrite Ha.
    + intros [args p3] Hargs.
      eapply ensures_bind; [apply consume_ensures|]. intros p4 _. exact Hargs.
  - eapply ensures_bind; [apply consume_ensures|]. intros p1 _. reflexivity.
  - eapply ensures_bind; [apply consume_ensures|]. intros p1 _.
    eapply ensures_bind; [apply Hpe|]. intros [a p2] Ha.
    eapply ensures_bind; [apply consume_ensures|]. intros p3 _. exact Ha.
Qed.

Lemma parseNot_wellFormed n p : ensures wf (parseNot next pe n p).
Proof.
  unfold parseNot. destruct (SreTokenType_eqb (current p) Not);
    [|apply parsePrimary_wellFormed].
  eapply ensures_bind; [apply consume_ensures|]. intros p1 _.
  eapply ensures_bind; [apply parsePrimary_wellFormed|].
  intros [a p2] Ha. exact Ha.
Qed.

Lemma parseAnd_loop_wellFormed n k node p :
  wellFormed node = true -> ensures wf (parseAnd_loop next pe n k node p).
Proof.
  revert node p. induction k as [|k IH]; intros node p Hnode;
    rewrite parseAnd_loop_eq;
    destruct (SreTokenType_eqb (current p) And); try exact Hnode;
    try exact I.
  eapply ensures_bind; [apply consume_ensures|]. intros p1 _.
  eapply ensures_bind; [apply parseNot_wellFormed|]. intros [b p2] Hb.
  apply IH. simpl. unfold wf in Hb. simpl in Hb. now rewrite Hnode, Hb.
Qed.

Lemma parseAnd_wellFormed n p : ensures wf (parseAnd next pe n p).
Proof.
  unfold parseAnd.
  eapply ensures_bind; [apply parseNot_wellFormed|]. intros [a p1] Ha.
  apply parseAnd_loop_wellFormed. exact Ha.
Qed.

Lemma parseOr_loop_wellFormed n k node p :
  wellFormed node = true -> ensures wf (parseOr_loop next pe n k node p).
Proof.
  revert node p. induction k as [|k IH]; intros node p Hnode;
    rewrite parseOr_loop_eq;
    destruct (SreTokenType_eqb (current p) Or); try exact Hnode;
    try exact I.
  eapply ensures_bind; [apply consume_ensures|]. intros p1 _.
  eapply ensures_bind; [apply parseAnd_wellFormed|]. intros [b p2] Hb.
  apply IH. simpl. unfold wf in Hb. simpl in Hb. now rewrite Hnode, Hb.
Qed.

Lemma parseOr_wellFormed n p : ensures wf (parseOr next pe n p).
Proof.
  unfold parseOr.
  eapply ensures_bind; [apply parseAnd_wellFormed|]. intros [a p1] Ha.
  apply parseOr_loop_wellFormed. exact Ha.
Qed.
End WellFormed.

Lemma parseExpression_wellFormed {Lexer : Type}
    (next : Lexer -> res (SreToken * Lexer)) fuel p :
  (forall l, next l <> NullDeref) ->
  ensures (fun x => wellFormed (fst x) = true) (parseExpression next fuel p).
Proof.
  intros Hnext. revert p. induction fuel as [|fuel IH]; intros p; [exact I|].
  simpl. apply parseOr_wellFormed; [exact Hnext | exact IH].
Qed.

Lemma parseRoot_wellFormed expression :
  ensures (fun root => wellFormed root = true) (parseRoot expression).
Proof.
  unfold parseRoot, SreParser_new, advance.
  remember (fuel_of expression) as F eqn:EF. clear EF.
  pose proof (nextToken_definite (SreLexer_new expression)) as [_ Hn].
  destruct (nextToken (SreLexer_new expression)) as [[t l]|e| |];
    cbn [bind ensures]; auto.
  pose proof (parseExpression_wellFormed nextToken F
                {| lexer_ := l; currentToken_ := t |}
                (fun l => proj2 (nextToken_definite l))) as Hwf.
  destruct (parseExpression nextToken F _) as [[root p']|e| |];
    cbn [bind ensures fst] in *; auto.
Qed.

(** X24: the parser builds well-formed trees only: in the tree of every
    expression that parses, each [And] and [Or] node has both children
    and each [Not] node has its left child alone. *)
Theorem parser_builds_well_formed_trees (expression : string)
    (root : SreASTNode) :
  parseRoot expression = Ok root -> wellFormed root = true.
Proof.
  intros H. pose proof (parseRoot_wellFormed expression) as Hwf.
  rewrite H in Hwf. exact Hwf.
Qed.

Lemma parser_builds_well_formed_trees_witness :
  wellFormed
    (SreLogicalNode OpOr
       (SreLogicalNode OpNot (SreValueNode "a" true) None)
       (Some (SreFunctionNode "f" [SreValueNode "x" false]))) = true.
Proof.
  apply (parser_builds_well_formed_trees "not #{a} or f('x')"). reflexivity.
Defined.

Lemma evalArgs_not_null ctx args acc : evalArgs ctx args acc <> NullDeref.
Proof.
  revert acc. induction args as [|a args IH]; intros acc; simpl;
    [discriminate|].
  destruct a as [op l r | v [] | name args']; simpl; try discriminate.
  - destruct (ctx !! v); simpl; [apply IH | discriminate].
  - apply IH.
Qed.

Lemma evalBool_not_null ctx fns n :
  callables_safe fns -> wellFormed n = true ->
  evalBool ctx fns n <> NullDeref.
Proof.
  intros Hfns. induction n as [op l r IHl IHr | v isVar | name args _]
    using SreASTNode_induction; intros Hwf.
  - assert (Hl : wellFormed l = true).
    { destruct op, r; simpl in Hwf; try discriminate;
        try (apply andb_true_iff in Hwf; tauto); exact Hwf. }
    specialize (IHl Hl). simpl.
    destruct op; destruct (evalBool ctx fns l) as [[]|e| |]; simpl;
      try discriminate; try contradiction;
      destruct r as [r|]; simpl in Hwf; try discriminate; simpl;
      apply (IHr r eq_refl); apply andb_true_iff in Hwf; tauto.
  - simpl. destruct isVar; [destruct (ctx !! v)|]; discriminate.
  - simpl. pose proof (evalArgs_not_null ctx args []) as Ha.
    destruct (evalArgs ctx args []) as [vs|e| |]; simpl; try discriminate;
      try contradiction.
    destruct (fns !! lowercase name) as [f|] eqn:Ef; [|discriminate].
    exact (Hfns _ f vs Ef).
Qed.

Lemma builtins_safe : callables_safe (functions_ SreRuleEngine_new).
Proof.
  intros name f args. unfold SreRuleEngine_new, initBuiltInFunctions,
    registerFunction. cbn [functions_].
  change (lowercase "containsany") with "containsany".
  change (lowercase "contains") with "contains".
  destruct (decide (name = "containsany")) as [->|Hn1].
  { rewrite lookup_insert_eq. intros [= <-].
    destruct args as [|a0 [|a1 rest]]; discriminate. }
  rewrite lookup_insert_ne by congruence.
  destruct (decide (name = "contains")) as [->|Hn2].
  { rewrite lookup_insert_eq. intros [= <-].
    destruct args as [|a0 [|a1 [|a2 rest]]]; discriminate. }
  rewrite lookup_insert_ne by congruence.
  rewrite lookup_empty. discriminate.
Qed.

(** X25: [evaluate] never reads through the null [right_] of a [Not]
    node, whatever the expression, the context and the callables of the
    registry: the lexer and the parser dereference no child, the parser
    leaves [right_] null in [Not] nodes only, and [evalBool] reads
    [right_] in [And] and [Or] nodes only.  (This is about the null
    pointer alone; whether and how [evaluate] ends is not stated.) *)
Theorem null_child_never_read (e : SreRuleEngine) (ctx : SreContext)
    (expression : string) :
  callables_safe (functions_ e) ->
  evaluate e expression ctx <> NullDeref.
Proof.
  intros Hfns. rewrite evaluate_parseRoot.
  pose proof (parseRoot_wellFormed expression) as Hshape.
  destruct (parseRoot expression) as [root|e'| |]; cbn [bind ensures] in *;
    try discriminate; try contradiction.
  apply evalBool_not_null; [exact Hfns | exact Hshape].
Qed.

Lemma null_child_never_read_witness :
  evaluate SreRuleEngine_new "not contains(#{a}, 'x') or not #{b}" ctx_ab
  <> NullDeref.
Proof.
  apply (null_child_never_read SreRuleEngine_new ctx_ab
           "not contains(#{a}, 'x') or not #{b}" builtins_safe).
Defined.

(** ** Lexemes: literals, punctuation and names *)

Lemma identStart_not_space c : isIdentStart c = true -> isspace c = false.
Proof. destruct c as [[] [] [] [] [] [] [] []]; vm_compute; congruence. Qed.

Lemma advanceWhile_stay keep input n pos c :
  String.get pos input = Some c -> keep c = false ->
  advanceWhile keep input n pos = pos.
Proof.
  intros Hc Hk. destruct n; simpl; [reflexivity|]. now rewrite Hc, Hk.
Qed.

Lemma get_app_l (s t : string) (n : nat) (c : ascii) :
  String.get n s = Some c -> String.get n (s +:+ t) = Some c.
Proof.
  revert n. induction s as [|d s IH]; intros [|n]; simpl;
    try discriminate; auto.
Qed.

Lemma pushWhile_until keep pre s c rest acc n :
  forallb keep (list_ascii_of_string s) = true -> keep c = false ->
  String.length s <= n ->
  pushWhile keep (pre +:+ (s +:+ String c rest)) n acc (String.length pre) =
  (acc +:+ s, String.length pre + String.length s).
Proof.
  intros Hall Hc. revert pre acc n Hall.
  induction s as [|d s IH]; intros pre acc n Hall Hn.
  - rewrite app_string_empty_r, Nat.add_0_r.
    destruct n as [|n]; [reflexivity|]. cbn [pushWhile].
    replace (String.length pre) with (String.length pre + 0) at 1 by lia.
    rewrite get_app_r. cbn [String.append String.get]. now rewrite Hc.
  - simpl in Hall. apply andb_true_iff in Hall as [Hd Hs].
    destruct n as [|n]; [simpl in Hn; lia|]. cbn [pushWhile].
    replace (String.length pre) with (String.length pre + 0) at 1 by lia.
    rewrite get_app_r. cbn [String.append String.get]. rewrite Hd.
    specialize (IH (pre +:+ String d "") (push_back acc d) n Hs).
    rewrite app_string_assoc, length_app_string in IH. simpl in IH.
    replace (String.length pre + 1) with (S (String.length pre)) in IH by lia.
    simpl in Hn. rewrite IH by lia. unfold push_back.
    rewrite app_string_assoc. simpl. f_equal. lia.
Qed.

Lemma nextToken_literal s rest :
  contains_char "'" s = false ->
  nextToken (SreLexer_new (quote s +:+ rest)) =
  Ok (literalToken s,
      {| input_ := quote s +:+ rest; pos_ := String.length (quote s) |}).
Proof.
  intros Hq. unfold nextToken, skipWhitespace, SreLexer_new, quote.
  cbn [input_ pos_]. rewrite Nat.sub_0_r.
  rewrite !app_string_assoc.
  change ("'" +:+ s +:+ "'" +:+ rest) with (String "'" (s +:+ String "'" rest)).
  rewrite (advanceWhile_stay isspace _ _ 0 "'"%char) by reflexivity.
  cbn [String.get String.length isIdentStart]. cbv beta iota.
  change (isIdentStart "'") with false. change (Ascii.eqb "'" "'") with true.
  cbv beta iota.
  pose proof (pushWhile_until notQuote "'" s "'" rest ""
                (String.length (s +:+ String "'" rest) - 0)
                (notQuote_all s Hq) eq_refl) as Hp.
  rewrite Nat.sub_0_r, length_app_string in Hp.
  specialize (Hp ltac:(lia)).
  change ("'" +:+ s +:+ String "'" rest)
    with (String "'" (s +:+ String "'" rest)) in Hp.
  change (String.length "'") with 1 in Hp.
  replace (S (String.length (s +:+ String "'" rest)) - 1)
    with (String.length s + String.length (String "'" rest))
    by (rewrite length_app_string; lia).
  rewrite Hp. cbn [String.append String.length].
  rewrite length_app_string. cbn [String.length]. unfold literalToken.
  do 3 f_equal. lia.
Qed.

Lemma tokens_literal s rest :
  contains_char "'" s = false ->
  tokens (quote s +:+ rest) = TCons (literalToken s) (tokens rest).
Proof.
  intros Hq. unfold tokens at 1. rewrite trace_of_unfold.
  rewrite (nextToken_literal s rest Hq). cbn [type literalToken SreTokenType_eqb].
  now rewrite trace_of_suffix.
Qed.

Lemma tokens_comma rest : tokens ("," +:+ rest) = TCons T_comma (tokens rest).
Proof.
  unfold tokens at 1. rewrite trace_of_unfold.
  unfold nextToken, skipWhitespace, SreLexer_new. cbn [input_ pos_].
  rewrite (advanceWhile_stay isspace _ _ 0 ","%char) by reflexivity.
  cbn [String.append String.get]. cbv beta iota.
  change (isIdentStart ",") with false. cbv beta iota.
  cbn [Ascii.eqb Bool.eqb type SreTokenType_eqb].
  exact (f_equal (TCons T_comma) (trace_of_suffix "," rest)).
Qed.

Lemma tokens_lparen rest : tokens ("(" +:+ rest) = TCons T_lparen (tokens rest).
Proof.
  unfold tokens at 1. rewrite trace_of_unfold.
  unfold nextToken, skipWhitespace, SreLexer_new. cbn [input_ pos_].
  rewrite (advanceWhile_stay isspace _ _ 0 "("%char) by reflexivity.
  cbn [String.append String.get]. cbv beta iota.
  change (isIdentStart "(") with false. cbv beta iota.
  cbn [Ascii.eqb Bool.eqb type SreTokenType_eqb].
  exact (f_equal (TCons T_lparen) (trace_of_suffix "(" rest)).
Qed.

Lemma tokens_rparen rest : tokens (")" +:+ rest) = TCons T_rparen (tokens rest).
Proof.
  unfold tokens at 1. rewrite trace_of_unfold.
  unfold nextToken, skipWhitespace, SreLexer_new. cbn [input_ pos_].
  rewrite (advanceWhile_stay isspace _ _ 0 ")"%char) by reflexivity.
  cbn [String.append String.get]. cbv beta iota.
  change (isIdentStart ")") with false. cbv beta iota.
  cbn [Ascii.eqb Bool.eqb type SreTokenType_eqb].
  exact (f_equal (TCons T_rparen) (trace_of_suffix ")" rest)).
Qed.

Lemma tokens_name w c rest :
  isName w = true -> isIdentPart c = false ->
  tokens (w +:+ String c rest) =
  TCons {| type := Identifier; text := w |} (tokens (String c rest)).
Proof.
  unfold isName. intros Hw Hc.
  apply andb_true_iff in Hw as [Hw Hk]. apply andb_true_iff in Hw as [H0 Hall].
  apply SreTokenType_eqb_eq in Hk.
  destruct w as [|c0 w']; [discriminate|].
  unfold tokens at 1. rewrite trace_of_unfold.
  unfold nextToken, skipWhitespace, SreLexer_new. cbn [input_ pos_].
  rewrite Nat.sub_0_r.
  rewrite (advanceWhile_stay isspace _ _ 0 c0)
    by (try reflexivity; now apply identStart_not_space).
  change (String.get 0 (String c0 w' +:+ String c rest)) with (Some c0).
  cbv beta iota. rewrite H0.
  pose proof (pushWhile_until isIdentPart "" (String c0 w') c rest ""
                (String.length (String c0 w' +:+ String c rest))
                Hall Hc) as Hp.
  rewrite length_app_string in Hp. specialize (Hp ltac:(lia)).
  change ("" +:+ String c0 w' +:+ String c rest)
    with (String c0 w' +:+ String c rest) in Hp.
  change (String.length "") with 0 in Hp.
  change ("" +:+ String c0 w') with (String c0 w') in Hp.
  rewrite Nat.sub_0_r, length_app_string, Hp. cbn [type]. rewrite Hk.
  cbn [SreTokenType_eqb].
  exact (f_equal (TCons _) (trace_of_suffix (String c0 w') (String c rest))).
Qed.

Lemma tokens_moreLiterals args :
  forallb quoteFree args = true ->
  tokens (moreLiterals args +:+ ")") =
  tapp (moreLiteralTokens args) (TCons T_rparen TEnd).
Proof.
  induction args as [|a args IH]; intros Hq; [reflexivity|].
  simpl in Hq. apply andb_true_iff in Hq as [Ha Hq].
  apply negb_true_iff in Ha.
  cbn [moreLiterals moreLiteralTokens tapp fold_right].
  rewrite !app_string_assoc, tokens_comma, tokens_literal by exact Ha.
  now rewrite IH.
Qed.

Lemma tokens_call name args :
  isName name = true -> forallb quoteFree args = true ->
  tokens (call name args) =
  TCons {| type := Identifier; text := name |}
    (TCons T_lparen (tapp (literalTokens args) (TCons T_rparen TEnd))).
Proof.
  intros Hn Hq. unfold call.
  change (name +:+ "(" +:+ literals args +:+ ")")
    with (name +:+ String "(" (literals args +:+ ")")).
  rewrite tokens_name by (try exact Hn; reflexivity).
  change (String "(" (literals args +:+ ")"))
    with ("(" +:+ (literals args +:+ ")")).
  rewrite tokens_lparen. f_equal. f_equal.
  destruct args as [|a args]; [reflexivity|].
  simpl in Hq. apply andb_true_iff in Hq as [Ha Hq].
  apply negb_true_iff in Ha.
  cbn [literals literalTokens tapp fold_right].
  rewrite app_string_assoc, tokens_literal by exact Ha.
  now rewrite tokens_moreLiterals.
Qed.

(** ** Calls with literal arguments *)

Lemma parseExpression_literal F (p p1 : SreParser trace) :
  current p = StringLiteral -> advance nextTrace (lexer_ p) = Ok p1 ->
  current p1 <> And -> current p1 <> Or ->
  parseExpression nextTrace (S F) p =
  Ok (SreValueNode (text (currentToken_ p)) false, p1).
Proof.
  intros Hlit Hadv Hand Hor. cbn [parseExpression].
  apply SreTokenType_eqb_neq in Hand, Hor.
  unfold parseOr, parseAnd, parseNot, parsePrimary, consume. rewrite Hlit.
  cbn [SreTokenType_eqb]. rewrite Hadv. cbn [bind].
  rewrite parseAnd_loop_eq, Hand. cbn [bind].
  rewrite parseOr_loop_eq, Hor. reflexivity.
Qed.

Lemma advance_tapp_rparen ts tr :
  exists p, advance nextTrace (tapp (moreLiteralTokens ts) (TCons T_rparen tr))
            = Ok p /\ current p <> And /\ current p <> Or.
Proof.
  destruct ts as [|a ts]; eexists; (split; [reflexivity|]);
    split; discriminate.
Qed.

Lemma parseArgs_loop_literals F tr args : forall done k p,
  advance nextTrace (tapp (moreLiteralTokens args) (TCons T_rparen tr)) = Ok p ->
  length args <= k ->
  parseArgs_loop nextTrace (parseExpression nextTrace (S F)) k done p =
  Ok (done ++ map literalNode args, parserAt T_rparen tr).
Proof.
  induction args as [|a args IH]; intros done k p Hp Hk.
  - injection Hp as <-. rewrite parseArgs_loop_eq. cbn.
    now rewrite app_nil_r.
  - injection Hp as <-. destruct k as [|k]; [simpl in Hk; lia|].
    rewrite parseArgs_loop_eq.
    unfold consume.
    cbn [current currentToken_ type T_comma SreTokenType_eqb lexer_].
    unfold advance at 1. cbn [nextTrace bind].
    destruct (advance_tapp_rparen args tr) as (p1 & Hp1 & Hand & Hor).
    rewrite (parseExpression_literal F _ p1); [|reflexivity|exact Hp1|auto|auto].
    cbn [bind]. rewrite (IH _ k p1 Hp1) by (simpl in Hk; lia).
    cbn [currentToken_ text literalToken map]. now rewrite <- app_assoc.
Qed.

Lemma parse_call name args F :
  length args <= F ->
  parse (S (S F))
    (TCons {| type := Identifier; text := name |}
       (TCons T_lparen (tapp (literalTokens args) (TCons T_rparen TEnd)))) =
  Ok (SreFunctionNode name (map literalNode args)).
Proof.
  intros HF. unfold parse, SreParser_new, advance. cbn [nextTrace bind].
  remember (S F) as F1 eqn:EF1. cbn [parseExpression].
  unfold parseOr, parseAnd, parseNot, parsePrimary, consume, advance.
  cbn [current currentToken_ type SreTokenType_eqb lexer_ nextTrace bind
       text T_lparen].
  destruct args as [|a args].
  - cbn [literalTokens tapp fold_right nextTrace bind current currentToken_
         type T_rparen SreTokenType_eqb negb lexer_ EndToken map].
    rewrite parseAnd_loop_eq.
    cbn [current currentToken_ type EndToken SreTokenType_eqb bind].
    rewrite parseOr_loop_eq. reflexivity.
  - cbn [literalTokens tapp fold_right nextTrace bind current currentToken_
         type literalToken SreTokenType_eqb negb lexer_].
    destruct (advance_tapp_rparen args TEnd) as (p1 & Hp1 & Hand & Hor).
    subst F1.
    rewrite (parseExpression_literal F _ p1); [|reflexivity|exact Hp1|auto|auto].
    cbn [bind].
    rewrite (parseArgs_loop_literals F TEnd args _ (S F) p1 Hp1)
      by (simpl in HF; lia).
    cbn [bind current currentToken_ parserAt type T_rparen SreTokenType_eqb
         lexer_ nextTrace EndToken text app map].
    rewrite parseAnd_loop_eq.
    cbn [current currentToken_ type EndToken SreTokenType_eqb bind].
    rewrite parseOr_loop_eq. reflexivity.
Qed.

Lemma evalArgs_literals ctx args acc :
  evalArgs ctx (map literalNode args) acc = Ok (acc ++ args).
Proof.
  revert acc. induction args as [|a args IH]; intros acc; simpl.
  - now rewrite app_nil_r.
  - rewrite IH. now rewrite <- app_assoc.
Qed.

(** X26: a call spelled [name('a1',...,'an')], with any number of
    arguments from zero, hands the texts [a1], ..., [an] in this order to the
    callable registered under the lowercased name, and its result is the
    result of [evaluate]; without such a callable "Function not found" is
    raised with the name as written. *)
Theorem call_passes_literals (e : SreRuleEngine) (ctx : SreContext)
    (name : string) (args : list string) :
  isName name = true -> forallb quoteFree args = true ->
  evaluate e (call name args) ctx =
  match functions_ e !! lowercase name with
  | Some f => f args
  | None => Throw (FunctionNotFound name)
  end.
Proof.
  intros Hn Hq.
  set (F := Nat.max (String.length (call name args)) (length args)).
  rewrite (evaluate_parse e _ ctx (S (S F))) by (unfold fuel_of; lia).
  rewrite (tokens_call name args Hn Hq), parse_call by lia.
  cbn [bind evalBool]. rewrite evalArgs_literals. reflexivity.
Qed.

Lemma call_passes_literals_witness :
  evaluate SreRuleEngine_new (call "containsAny" ["hello"; "x y"; "ell"])
    ctx_ab =
  match functions_ SreRuleEngine_new !! lowercase "containsAny" with
  | Some f => f ["hello"; "x y"; "ell"]
  | None => Throw (FunctionNotFound "containsAny")
  end.
Proof.
  apply (call_passes_literals SreRuleEngine_new ctx_ab "containsAny"
           ["hello"; "x y"; "ell"]); reflexivity.
Defined.

(** X27: a quoted text is the literal of exactly the text between the
    quotes (no escape is interpreted, and words and blanks inside are kept
    as they are); as an expression it is true unless the text is empty. *)
Theorem quoted_literal_round_trip (e : SreRuleEngine) (ctx : SreContext)
    (s : string) :
  contains_char "'" s = false ->
  tokens (quote s) = TCons (literalToken s) TEnd /\
  parseRoot (quote s) = Ok (SreValueNode s false) /\
  evaluate e (quote s) ctx = Ok (negb (empty s)).
Proof.
  intros Hq.
  assert (Ht : tokens (quote s) = TCons (literalToken s) TEnd).
  { pose proof (tokens_literal s "" Hq) as H.
    now rewrite app_string_empty_r in H. }
  assert (Hp : parseRoot (quote s) = Ok (SreValueNode s false)).
  { rewrite (parseRoot_parse _ (fuel_of (quote s))) by lia.
    rewrite Ht. unfold parse, SreParser_new, advance, fuel_of.
    cbn [nextTrace bind].
    rewrite (parseExpression_literal _ _ (parserAt EndToken TEnd));
      [reflexivity | reflexivity | reflexivity | discriminate | discriminate]. }
  repeat split; [exact Ht | exact Hp |].
  rewrite evaluate_parseRoot, Hp. reflexivity.
Qed.

Lemma quoted_literal_round_trip_witness :
  evaluate SreRuleEngine_new (quote "not a and b") ctx_ab = Ok true.
Proof.
  apply (proj2 (proj2 (quoted_literal_round_trip SreRuleEngine_new ctx_ab
                         "not a and b" eq_refl))).
Defined.

(** ** The lexer on a re-cased input

    Letter case does not move the boundary of any token: the lexer over
    the lowercased input yields the tokens of the input with their lexemes
    lowercased, keywords included, and the same exception if any. *)

Lemma length_lowercase s : String.length (lowercase s) = String.length s.
Proof. induction s as [|c s IH]; simpl; congruence. Qed.

Lemma get_lowercase n s :
  String.get n (lowercase s) = option_map tolower (String.get n s).
Proof.
  revert n. induction s as [|c s IH]; intros [|n]; simpl; auto.
Qed.

Lemma substring_lowercase n m s :
  substring n m (lowercase s) = lowercase (substring n m s).
Proof.
  revert n m. induction s as [|c s IH]; intros [|n] [|m]; simpl;
    try reflexivity; try apply IH.
  now rewrite IH.
Qed.

Lemma isspace_tolower c : isspace (tolower c) = isspace c.
Proof.
  destruct c as [b0 b1 b2 b3 b4 b5 b6 b7].
  destruct b0, b1, b2, b3, b4, b5, b6, b7; reflexivity.
Qed.

Lemma isIdentStart_tolower c : isIdentStart (tolower c) = isIdentStart c.
Proof.
  destruct c as [b0 b1 b2 b3 b4 b5 b6 b7].
  destruct b0, b1, b2, b3, b4, b5, b6, b7; reflexivity.
Qed.

Lemma isIdentPart_tolower c : isIdentPart (tolower c) = isIdentPart c.
Proof.
  destruct c as [b0 b1 b2 b3 b4 b5 b6 b7].
  destruct b0, b1, b2, b3, b4, b5, b6, b7; reflexivity.
Qed.

Lemma notQuote_tolower c : notQuote (tolower c) = notQuote c.
Proof.
  destruct c as [b0 b1 b2 b3 b4 b5 b6 b7].
  destruct b0, b1, b2, b3, b4, b5, b6, b7; reflexivity.
Qed.

Lemma tolower_not_identStart c : isIdentStart c = false -> tolower c = c.
Proof.
  unfold isIdentStart, isalpha, tolower. destruct (isupper c); [|reflexivity].
  discriminate.
Qed.

Lemma keyword_lowercase s : keyword (lowercase s) = keyword s.
Proof. unfold keyword. now rewrite lowercase_idempotent. Qed.

Lemma advanceWhile_lowercase keep s n pos :
  (forall c, keep (tolower c) = keep c) ->
  advanceWhile keep (lowercase s) n pos = advanceWhile keep s n pos.
Proof.
  intros Hkeep. revert pos. induction n as [|n IH]; intros pos;
    [reflexivity|].
  cbn [advanceWhile]. rewrite get_lowercase.
  destruct (String.get pos s) as [c|]; cbn [option_map]; [|reflexivity].
  rewrite Hkeep. destruct (keep c); [apply IH | reflexivity].
Qed.

Lemma pushWhile_lowercase keep s n pos :
  (forall c, keep (tolower c) = keep c) ->
  pushWhile keep (lowercase s) n "" pos =
  (lowercase (fst (pushWhile keep s n "" pos)),
   snd (pushWhile keep s n "" pos)).
Proof.
  intros Hkeep.
  destruct (pushWhile_spec keep (lowercase s) n "" pos) as [Hp _].
  destruct (pushWhile_spec keep s n "" pos) as [Hq _].
  cbv zeta in Hp, Hq. rewrite Hp, Hq. cbn [fst snd].
  rewrite (advanceWhile_lowercase keep s n pos Hkeep).
  cbn [String.append]. now rewrite substring_lowercase.
Qed.

Lemma nextToken_lowercase l :
  nextToken (lowerLexer l) =
  mapRes (fun x => (lowerToken (fst x), lowerLexer (snd x))) id (nextToken l).
Proof.
  unfold nextToken, skipWhitespace, lowerLexer. cbn [input_ pos_].
  rewrite length_lowercase.
  rewrite (advanceWhile_lowercase isspace) by exact isspace_tolower.
  set (pos := advanceWhile isspace (input_ l)
                (String.length (input_ l) - pos_ l) (pos_ l)).
  rewrite get_lowercase.
  destruct (String.get pos (input_ l)) as [c|]; cbn [option_map];
    [|reflexivity].
  rewrite isIdentStart_tolower. destruct (isIdentStart c) eqn:E1.
  - rewrite (pushWhile_lowercase isIdentPart) by exact isIdentPart_tolower.
    destruct (pushWhile isIdentPart (input_ l) _ "" pos) as [w pos'].
    cbn [fst snd mapRes lowerToken type text input_ pos_].
    now rewrite keyword_lowercase.
  - rewrite (tolower_not_identStart c E1).
    destruct (Ascii.eqb c "'").
    { rewrite (pushWhile_lowercase notQuote) by exact notQuote_tolower.
      destruct (pushWhile notQuote (input_ l) _ "" (S pos)) as [w pos'].
      reflexivity. }
    repeat match goal with
           | |- context [if ?b then _ else _] => destruct b
           end; reflexivity.
Qed.

Lemma trace_from_lowercase n l :
  trace_from n (lowerLexer l) = lowerTrace (trace_from n l).
Proof.
  revert l. induction n as [|n IH]; intros l; [reflexivity|].
  cbn [trace_from]. rewrite nextToken_lowercase.
  destruct (nextToken l) as [[t l']|e| |]; cbn [mapRes fst snd lowerTrace];
    try reflexivity.
  - cbn [lowerToken type].
    destruct (SreTokenType_eqb (type t) End); [reflexivity|].
    cbn [lowerTrace]. now rewrite IH.
  - now rewrite mapExn_id.
Qed.

Lemma tokens_lowercase s : tokens (lowercase s) = lowerTrace (tokens s).
Proof.
  unfold tokens, trace_of, lexer_size, SreLexer_new. cbn [input_ pos_].
  rewrite length_lowercase.
  exact (trace_from_lowercase _ {| input_ := s; pos_ := 0 |}).
Qed.

Lemma nextIsLParen_lowerTrace tr tr' :
  lowerTrace tr = lowerTrace tr' -> nextIsLParen tr = nextIsLParen tr'.
Proof.
  destruct tr as [| |t r], tr' as [| |t' r']; simpl; try discriminate;
    try reflexivity.
  intros [= Ht _ _]. now rewrite Ht.
Qed.

(** Traces that agree up to the casing of their lexemes, and exactly on
    their values, agree after case folding. *)
Lemma foldCase_recased tr : forall tr',
  lowerTrace tr = lowerTrace tr' -> valuesKept tr tr' = true ->
  foldCase tr = foldCase tr'.
Proof.
  induction tr as [|e|t r IH]; intros [|e'|t' r']; simpl; try discriminate;
    try reflexivity.
  - now intros [= ->].
  - intros H Hv. injection H as Hty Htx Hr.
    apply andb_true_iff in Hv as [Hv Hvr].
    rewrite (IH r' Hr Hvr). f_equal.
    unfold foldToken, isValueToken in *.
    rewrite <- (nextIsLParen_lowerTrace r r' Hr), <- Hty.
    destruct t as [ty tx], t' as [ty' tx']. cbn [type text] in *. subst ty'.
    destruct ty; cbn [negb] in *; try (now rewrite Htx).
    + destruct (nextIsLParen r); cbn [negb] in Hv; [now rewrite Htx|].
      apply String.eqb_eq in Hv. now subst.
    + apply String.eqb_eq in Hv. now subst.
Qed.

(** C5: let [s'] be [s] with letters re-cased, every value (string literal,
    variable or bare identifier) kept as written, so that the casing
    changes only in keywords and in the names of called predicates; and
    let a predicate be registered under either of two names that differ in
    casing only.  Then [evaluate] yields the same boolean on both inputs,
    or fails on both with the same exception up to the casing of the token
    or function named in its message. *)
Theorem case_insensitivity (e : SreRuleEngine) (ctx : SreContext)
    (s s' name name' : string) (f : SreFunction) :
  lowercase s = lowercase s' ->
  valuesKept (tokens s) (tokens s') = true ->
  lowercase name = lowercase name' ->
  foldOutcome (evaluate (registerFunction name f e) s ctx) =
  foldOutcome (evaluate (registerFunction name' f e) s' ctx).
Proof.
  intros Hs Hvalues Hname. apply evaluate_foldCase; [|exact Hname].
  apply foldCase_recased; [|exact Hvalues].
  now rewrite <- !tokens_lowercase, Hs.
Qed.

Lemma case_insensitivity_witness :
  foldOutcome
    (evaluate
       (registerFunction "StartsWithH" (fun _ => Ok true) SreRuleEngine_new)
       "Contains(#{a}, 'ell') AND NOT containsany(#{b}, 'q') oR startswithh()"
       ctx_ab) =
  foldOutcome
    (evaluate
       (registerFunction "startswithh" (fun _ => Ok true) SreRuleEngine_new)
       "contains(#{a}, 'ell') and not CONTAINSANY(#{b}, 'q') or STARTSWITHH()"
       ctx_ab) /\
  foldOutcome
    (evaluate (registerFunction "f" (fun _ => Ok true) SreRuleEngine_new)
       "'x' and ''" ctx_ab) =
  foldOutcome
    (evaluate (registerFunction "F" (fun _ => Ok true) SreRuleEngine_new)
       "'x' AND ''" ctx_ab).
Proof.
  split.
  - apply (case_insensitivity SreRuleEngine_new ctx_ab
           "Contains(#{a}, 'ell') AND NOT containsany(#{b}, 'q') oR startswithh()"
           "contains(#{a}, 'ell') and not CONTAINSANY(#{b}, 'q') or STARTSWITHH()"
           "StartsWithH" "startswithh" (fun _ => Ok true));
      vm_compute; reflexivity.
  - apply (case_insensitivity SreRuleEngine_new ctx_ab
             "'x' and ''" "'x' AND ''" "f" "F" (fun _ => Ok true));
      vm_compute; reflexivity.
Defined.
